(** * Argus "Bot Minions": scheduler, rate limiter, alert sink and storage

    A shallow embedding of the TypeScript sources under
    [src/plugins/bot-minions], followed by the properties proved of it.

    The code:
    - [helpers/rateLimiter.ts]      module [RateLimiter]
    - the arithmetic of doubles     module [Float64]
    - [types/index.ts]              the types, one module per interface
    - [helpers/minionStorage.ts]    module [Storage]
    - [services/alertService.ts]    module [AlertService]
    - [services/minionEngine.ts]    module [MinionEngine]
    - [helpers/utils.ts]            module [Utils]
    - [services/keywordMonitor.ts]  module [KeywordMonitor]
    - [services/newMemberAlert.ts]  module [NewMemberAlertPoll]
    - concrete engines, stores and traces on which the code is run:
                                    module [Scenario]

    The properties: modules [Float64Facts], [RateLimiterFacts], [StorageFacts],
    [MinionEngineFacts], [AlertServiceFacts] and [KeywordMonitorFacts];
    then, function by function, [LimiterInvariants] (backoff, queue and
    spacing of the limiter), [StorageQueries] (the sorted queries, pruning
    and the cascade), [AlertCounter] (the unread counter against the
    store), [Lifecycle] (create, update, start, stop, pause, resume,
    initialize and shutdown of the engine), [UtilsFacts],
    [KeywordPollFacts] and [NewMemberAlertFacts].

    Conventions of the embedding.

    - A JavaScript [number] that only ever holds an integer (counters, message
      ids, [Date.now()] readings) is a [Z]; a [number] that can be fractional
      (delays, backoff, deadlines, the result of [Math.random()]) is a
      rational [Q].  The scheduler, which adds a fractional jitter to
      [Date.now()], rounds every sum and product to a double (module
      [Float64]); the rate limiter is described over exact rationals, the
      rounding of its sums and products not being modelled.
    - [Date.now()], every [Math.random()] draw and every generated id are
      inputs of the function that reads them; a draw [r] satisfies
      [0 <= r < 1].
    - A [Map<string, T>], a [Record<string, T>] and an IndexedDB object store
      keyed by [id] are [gmap string T]; [store.put(record)] inserts under
      the record's [id].  Storage operations succeed.
    - An [async] function is cut at its [await]s on timers, on queue
      promises and on the poll strategy; storage [await]s complete in place.
    - [console] output and the desktop notification and sound of the alert
      service are left out: they do not change the state described here. *)

From Stdlib Require Import ZArith QArith Qminmax Qround Qpower Lia Lqa Ascii String.
From stdpp Require Import gmap strings list fin_maps sorting pretty.

Local Open Scope Z_scope.

(* ===================================================================== *)
(** * helpers/rateLimiter.ts                                              *)
(* ===================================================================== *)

Module RateLimiter.

Record RateLimiterConfig := {
  minDelayMs : Q;
  maxDelayMs : Q;
  maxConcurrent : Z;
  backoffMultiplier : Q;
  maxBackoffMs : Q;
}.

Definition DEFAULT_CONFIG : RateLimiterConfig := {|
  minDelayMs := 2000;
  maxDelayMs := 5000;
  maxConcurrent := 1;
  backoffMultiplier := 2;
  maxBackoffMs := 300000;
|}.

(** The configuration of [getGlobalRateLimiter()]. *)
Definition GLOBAL_CONFIG : RateLimiterConfig := {|
  minDelayMs := 3000;
  maxDelayMs := 7000;
  maxConcurrent := 1;
  backoffMultiplier := 5 # 2;
  maxBackoffMs := 600000;
|}.

(** The private fields of the class.  A queue entry is the pair of
    callbacks of a pending promise; it is identified here by the number of
    the [acquire()] call that pushed it. *)
Record t := {
  config : RateLimiterConfig;
  lastCallTime : Z;
  currentBackoff : Q;
  activeCount : Z;
  queue : list nat;
  floodWaitUntil : Q;
}.

Definition new (cfg : RateLimiterConfig) : t := {|
  config := cfg;
  lastCallTime := 0;
  currentBackoff := 0;
  activeCount := 0;
  queue := [];
  floodWaitUntil := 0;
|}.

Definition set_lastCallTime (v : Z) (l : t) : t :=
  {| config := config l; lastCallTime := v; currentBackoff := currentBackoff l;
     activeCount := activeCount l; queue := queue l;
     floodWaitUntil := floodWaitUntil l |}.
Definition set_currentBackoff (v : Q) (l : t) : t :=
  {| config := config l; lastCallTime := lastCallTime l; currentBackoff := v;
     activeCount := activeCount l; queue := queue l;
     floodWaitUntil := floodWaitUntil l |}.
Definition set_activeCount (v : Z) (l : t) : t :=
  {| config := config l; lastCallTime := lastCallTime l;
     currentBackoff := currentBackoff l; activeCount := v; queue := queue l;
     floodWaitUntil := floodWaitUntil l |}.
Definition set_queue (v : list nat) (l : t) : t :=
  {| config := config l; lastCallTime := lastCallTime l;
     currentBackoff := currentBackoff l; activeCount := activeCount l;
     queue := v; floodWaitUntil := floodWaitUntil l |}.
Definition set_floodWaitUntil (v : Q) (l : t) : t :=
  {| config := config l; lastCallTime := lastCallTime l;
     currentBackoff := currentBackoff l; activeCount := activeCount l;
     queue := queue l; floodWaitUntil := v |}.

(** [getJitteredDelay()]; [rnd] is the [Math.random()] draw. *)
Definition getJitteredDelay (l : t) (rnd : Q) : Q :=
  let base := (minDelayMs (config l) + currentBackoff l)%Q in
  let jitter := (rnd * (maxDelayMs (config l) - minDelayMs (config l)))%Q in
  Qmin (base + jitter) (maxBackoffMs (config l)).

(** [release()]. The second component is the waiter whose promise is
    resolved, if any. *)
Definition release (l : t) : t * option nat :=
  let l1 := set_activeCount (Z.max 0 (activeCount l - 1)) l in
  match queue l1 with
  | [] => (l1, None)
  | next :: rest => (set_queue rest l1, Some next)
  end.

(** [reportSuccess()]. *)
Definition reportSuccess (l : t) : t :=
  set_currentBackoff (Qmax 0 (currentBackoff l - 500)) l.

(** [reportFloodWait(waitSeconds)], called when [Date.now()] reads [now]. *)
Definition floodWaitMs (waitSeconds : Q) : Q := ((waitSeconds + 5) * 1000)%Q.

Definition reportFloodWait (now : Z) (waitSeconds : Q) (l : t) : t :=
  let waitMs := floodWaitMs waitSeconds in
  let l1 := set_floodWaitUntil (inject_Z now + waitMs) l in
  set_currentBackoff
    (Qmin (currentBackoff l1 * backoffMultiplier (config l1) + waitMs)
          (maxBackoffMs (config l1))) l1.

(** [reportError()]. *)
Definition reportError (l : t) : t :=
  set_currentBackoff
    (Qmin (Qmax (currentBackoff l) (minDelayMs (config l))
             * backoffMultiplier (config l))
          (maxBackoffMs (config l))) l.

(** [reset()]. The second component lists the waiters whose promises are
    rejected with ['Rate limiter reset']. *)
Definition reset (l : t) : t * list nat :=
  (set_queue [] (set_activeCount 0 (set_floodWaitUntil 0 (set_currentBackoff 0 l))),
   queue l).

(** [getStatus()]. *)
Record Status := {
  status_activeCount : Z;
  queueLength : nat;
  status_currentBackoff : Q;
  isFloodWaiting : bool;
  floodWaitRemaining : Q;
}.

Definition Qgtb (a b : Q) : bool := negb (Qle_bool a b).
Definition Qltb (a b : Q) : bool := negb (Qle_bool b a).

Definition getStatus (now : Z) (l : t) : Status := {|
  status_activeCount := activeCount l;
  queueLength := length (queue l);
  status_currentBackoff := currentBackoff l;
  isFloodWaiting := Qgtb (floodWaitUntil l) (inject_Z now);
  floodWaitRemaining := Qmax 0 (floodWaitUntil l - inject_Z now);
|}.

(** ** [acquire()], cut at its three [await]s

    A call of [acquire()] runs synchronously up to its first pending
    [await].  Its continuation points are: *)
Inductive AcquirePc :=
| FloodSleep (since : Z) (ms : Q)    (* await this.sleep(waitTime) *)
| Queued                               (* await new Promise(... queue.push ...) *)
| QueueResolved                        (* resolved by release(), not yet resumed *)
| QueueRejected                        (* rejected by reset() *)
| SpacingSleep (since : Z) (ms : Q)  (* await this.sleep(requiredDelay - elapsed) *)
| Acquired.                            (* the promise of acquire() is fulfilled *)

(** Lines 73-74. *)
Definition acquire_finish (now : Z) (l : t) : t * AcquirePc :=
  (set_lastCallTime now (set_activeCount (activeCount l + 1) l), Acquired).

(** Lines 66-74: the spacing check. *)
Definition acquire_spacing (now : Z) (rnd : Q) (l : t) : t * AcquirePc :=
  let elapsed := inject_Z (now - lastCallTime l) in
  let requiredDelay := getJitteredDelay l rnd in
  if Qltb elapsed requiredDelay
  then (l, SpacingSleep now (requiredDelay - elapsed))
  else acquire_finish now l.

(** Lines 59-74: the concurrency check; [me] names the caller. *)
Definition acquire_concurrency (me : nat) (now : Z) (rnd : Q) (l : t)
  : t * AcquirePc :=
  if Z.geb (activeCount l) (maxConcurrent (config l))
  then (set_queue (queue l ++ [me]) l, Queued)
  else acquire_spacing now rnd l.

(** Lines 50-74: the call itself. *)
Definition acquire (me : nat) (now : Z) (rnd : Q) (l : t) : t * AcquirePc :=
  if Qgtb (floodWaitUntil l) (inject_Z now)
  then (l, FloodSleep now (floodWaitUntil l - inject_Z now))
  else acquire_concurrency me now rnd l.

(** A timer set by [sleep(ms)] at [since] may fire once the clock has
    reached [since + ms]. *)
Definition timer_due (since : Z) (ms : Q) (now : Z) : bool :=
  Qle_bool (inject_Z since + ms) (inject_Z now).

(** Resuming a suspended call when the host runs its continuation. *)
Definition acquire_resume (me : nat) (now : Z) (rnd : Q) (pc : AcquirePc) (l : t)
  : option (t * AcquirePc) :=
  match pc with
  | FloodSleep since ms =>
      if timer_due since ms now then Some (acquire_concurrency me now rnd l) else None
  | QueueResolved => Some (acquire_spacing now rnd l)
  | SpacingSleep since ms =>
      if timer_due since ms now then Some (acquire_finish now l) else None
  | Queued | QueueRejected | Acquired => None
  end.

(** ** The limiter and its callers as a transition system

    [calls] holds the continuation point of every [acquire()] call made so
    far, indexed by call number. *)
Record Sys := {
  clock : Z;
  lim : t;
  calls : list AcquirePc;
}.

Definition boot (cfg : RateLimiterConfig) (now : Z) : Sys :=
  {| clock := now; lim := new cfg; calls := [] |}.

Inductive Event :=
| EvTick (now : Z)                (* the clock advances to [now] *)
| EvAcquire (rnd : Q)             (* a new call of acquire() *)
| EvResume (who : nat) (rnd : Q)  (* the continuation of call [who] runs *)
| EvRelease                       (* release() *)
| EvReportSuccess
| EvReportError
| EvReportFloodWait (waitSeconds : Q)
| EvReset.

Definition mark (f : AcquirePc -> AcquirePc) (who : nat) (cs : list AcquirePc)
  : list AcquirePc :=
  match cs !! who with
  | Some pc => <[who := f pc]> cs
  | None => cs
  end.

Definition step (ev : Event) (s : Sys) : option Sys :=
  match ev with
  | EvTick now =>
      if Z.leb (clock s) now
      then Some {| clock := now; lim := lim s; calls := calls s |}
      else None
  | EvAcquire rnd =>
      let '(l, pc) := acquire (length (calls s)) (clock s) rnd (lim s) in
      Some {| clock := clock s; lim := l; calls := calls s ++ [pc] |}
  | EvResume who rnd =>
      pc ← calls s !! who;
      '(l, pc') ← acquire_resume who (clock s) rnd pc (lim s);
      Some {| clock := clock s; lim := l; calls := <[who := pc']> (calls s) |}
  | EvRelease =>
      let '(l, woken) := release (lim s) in
      Some {| clock := clock s; lim := l;
              calls := match woken with
                       | Some who => mark (fun _ => QueueResolved) who (calls s)
                       | None => calls s
                       end |}
  | EvReportSuccess =>
      Some {| clock := clock s; lim := reportSuccess (lim s); calls := calls s |}
  | EvReportError =>
      Some {| clock := clock s; lim := reportError (lim s); calls := calls s |}
  | EvReportFloodWait secs =>
      Some {| clock := clock s; lim := reportFloodWait (clock s) secs (lim s);
              calls := calls s |}
  | EvReset =>
      let '(l, rejected) := reset (lim s) in
      Some {| clock := clock s; lim := l;
              calls := foldr (mark (fun _ => QueueRejected)) (calls s) rejected |}
  end.

(** [execute(fn)] after [fn()] has settled: the [try]/[catch]/[finally]
    tail, lines 125-135.  [thrown] is [None] when [fn()] fulfilled and
    [Some secs] when it rejected, [secs] being the [seconds] property of the
    error when it has one. *)
Definition execute_settle (now : Z) (thrown : option (option Q)) (l : t)
  : t * option nat :=
  release
    match thrown with
    | None => reportSuccess l
    | Some (Some secs) => reportFloodWait now secs l
    | Some None => reportError l
    end.

Fixpoint run (evs : list Event) (s : Sys) : option Sys :=
  match evs with
  | [] => Some s
  | ev :: rest => s' ← step ev s; run rest s'
  end.

(** Number of calls of [acquire()] that have returned, and the discipline
    "each [release()] matches a prior [acquire()]": along the trace, a
    [release()] is only issued while fewer releases than returned acquires
    have been counted. *)
Definition is_acquired (pc : AcquirePc) : bool :=
  match pc with Acquired => true | _ => false end.

Definition acquired_calls (s : Sys) : nat :=
  length (List.filter is_acquired (calls s)).

Fixpoint disciplined (released : nat) (evs : list Event) (s : Sys) : bool :=
  match evs with
  | [] => true
  | ev :: rest =>
      match step ev s with
      | None => false
      | Some s' =>
          match ev with
          | EvRelease =>
              Nat.ltb released (acquired_calls s) && disciplined (S released) rest s'
          | _ => disciplined released rest s'
          end
      end
  end.

(** The invariant of [activeCount]. *)
Definition nonneg (l : t) : Prop := 0 <= activeCount l.

(** A configuration whose delays and multiplier are not negative. *)
Definition sane (cfg : RateLimiterConfig) : Prop :=
  (0 <= minDelayMs cfg)%Q /\ (0 <= backoffMultiplier cfg)%Q
  /\ (0 <= maxBackoffMs cfg)%Q.

(** Every wait reported along a trace is at least [-5] s, so that
    [waitMs] is not negative. *)
Definition waits_from_provider (ev : Event) : Prop :=
  match ev with
  | EvReportFloodWait secs => (-5 <= secs)%Q
  | _ => True
  end.

(** The queue and the suspended callers agree: the queue names, once each,
    the calls that wait at [Queued]. *)
Definition queue_agrees (s : Sys) : Prop :=
  NoDup (queue (lim s))
  /\ forall who, who ∈ queue (lim s) <-> calls s !! who = Some Queued.

(** The numbers of the calls that wait at [Queued]. *)
Definition is_queued_at (cs : list AcquirePc) (who : nat) : bool :=
  match cs !! who with
  | Some Queued => true
  | _ => false
  end.

Definition waiting (s : Sys) : list nat :=
  List.filter (is_queued_at (calls s)) (seq 0 (length (calls s))).

(** [n] calls of [reportSuccess()] in a row. *)
Definition successes (n : nat) (l : t) : t := Nat.iter n reportSuccess l.

End RateLimiter.

(* ===================================================================== *)
(** * types/index.ts                                                      *)
(* ===================================================================== *)

(** The one-character string holding a double quote. *)
Definition dquote : string := String (Ascii.ascii_of_nat 34) EmptyString.

Inductive MinionType :=
| keyword_monitor | new_member_alert | channel_clone_detector | media_monitor.

Inductive MinionStatus := running | paused | stopped | error | starting.

Inductive AlertPriority := info | warning | critical.

Inductive AlertType :=
| keyword_match | new_member | watchlist_hit | risk_account | channel_clone
| media_captured | media_analysis_hook | minion_error.

Inductive MinionLogLevel := level_debug | level_info | level_warn | level_error.

Inductive MediaKind := photo | video | document | audio.

#[global] Instance MinionType_eq_dec : EqDecision MinionType.
Proof. solve_decision. Defined.
#[global] Instance MinionStatus_eq_dec : EqDecision MinionStatus.
Proof. solve_decision. Defined.
#[global] Instance AlertPriority_eq_dec : EqDecision AlertPriority.
Proof. solve_decision. Defined.

Module KeywordMonitorConfig.
Record t := {
  keywords : list string;
  regexPatterns : list string;
  autoArchive : bool;
  alertPriority : AlertPriority;
  contextMessages : Z;
}.
End KeywordMonitorConfig.

Module NewMemberAlertConfig.
Record t := {
  watchlistUserIds : list string;
  newAccountThresholdDays : Q;
  suspiciousUsernamePatterns : list string;
  autoProfile : bool;
  watchlistAlertPriority : AlertPriority;
  riskAlertPriority : AlertPriority;
}.
End NewMemberAlertConfig.

Module ProtectedChannel.
Record t := {
  chatId : string;
  title : string;
  description : option string;
  username : option string;
  photoHash : option string;
}.
End ProtectedChannel.

Module ChannelCloneDetectorConfig.
Record t := {
  protectedChannels : list ProtectedChannel.t;
  nameThreshold : Q;
  descriptionThreshold : Q;
  alertPriority : AlertPriority;
}.
End ChannelCloneDetectorConfig.

Module MediaMonitorConfig.
Record t := {
  mediaTypes : list MediaKind;
  autoArchive : bool;
  extractMetadata : bool;
  imageAnalysisEnabled : bool;
  alertPriority : AlertPriority;
}.
End MediaMonitorConfig.

(** The union type of [MinionConfig.typeConfig]; the constructor is the
    [type] tag of the payload. *)
Inductive TypeConfig :=
| KeywordMonitor (c : KeywordMonitorConfig.t)
| NewMemberAlert (c : NewMemberAlertConfig.t)
| ChannelCloneDetector (c : ChannelCloneDetectorConfig.t)
| MediaMonitor (c : MediaMonitorConfig.t).

Module MinionConfig.
Record t := {
  id : string;
  name : string;
  type : MinionType;
  enabled : bool;
  createdAt : Z;
  updatedAt : Z;
  targetChatIds : list string;
  pollIntervalMs : Q;
  typeConfig : TypeConfig;
}.

(** [Partial<MinionConfig>]: [None] is an absent key. *)
Record partial := {
  id' : option string;
  name' : option string;
  type' : option MinionType;
  enabled' : option bool;
  createdAt' : option Z;
  updatedAt' : option Z;
  targetChatIds' : option (list string);
  pollIntervalMs' : option Q;
  typeConfig' : option TypeConfig;
}.

(** The object literal [{}]. *)
Definition nothing : partial := {|
  id' := None; name' := None; type' := None; enabled' := None;
  createdAt' := None; updatedAt' := None; targetChatIds' := None;
  pollIntervalMs' := None; typeConfig' := None;
|}.

(** [{ ...config, ...updates }]. *)
Definition spread (config : t) (updates : partial) : t := {|
  id := default (id config) (id' updates);
  name := default (name config) (name' updates);
  type := default (type config) (type' updates);
  enabled := default (enabled config) (enabled' updates);
  createdAt := default (createdAt config) (createdAt' updates);
  updatedAt := default (updatedAt config) (updatedAt' updates);
  targetChatIds := default (targetChatIds config) (targetChatIds' updates);
  pollIntervalMs := default (pollIntervalMs config) (pollIntervalMs' updates);
  typeConfig := default (typeConfig config) (typeConfig' updates);
|}.

(** [Omit<MinionConfig, 'id' | 'createdAt' | 'updatedAt'>], the argument
    of [createMinion]. *)
Record draft := {
  draft_name : string;
  draft_type : MinionType;
  draft_enabled : bool;
  draft_targetChatIds : list string;
  draft_pollIntervalMs : Q;
  draft_typeConfig : TypeConfig;
}.
End MinionConfig.

Module MinionState.
Record t := {
  id : string;
  status : MinionStatus;
  lastPollAt : Z;
  nextPollAt : Q;
  messagesScanned : Z;
  alertsTriggered : Z;
  errorsCount : Z;
  lastError : option string;
  startedAt : option Z;
  uptimeMs : Z;
  lastMessageIds : gmap string Z;
  lastKnownMembers : gmap string (list string);
}.

(** [Partial<MinionState>]: [None] is an absent key.  The two optional
    fields can also be present with value [undefined] ([Some None]). *)
Record partial := {
  id' : option string;
  status' : option MinionStatus;
  lastPollAt' : option Z;
  nextPollAt' : option Q;
  messagesScanned' : option Z;
  alertsTriggered' : option Z;
  errorsCount' : option Z;
  lastError' : option (option string);
  startedAt' : option (option Z);
  uptimeMs' : option Z;
  lastMessageIds' : option (gmap string Z);
  lastKnownMembers' : option (gmap string (list string));
}.

(** The object literal [{}]. *)
Definition nothing : partial := {|
  id' := None; status' := None; lastPollAt' := None; nextPollAt' := None;
  messagesScanned' := None; alertsTriggered' := None; errorsCount' := None;
  lastError' := None; startedAt' := None; uptimeMs' := None;
  lastMessageIds' := None; lastKnownMembers' := None;
|}.

(** A key of the later object wins: [later] if present, else [earlier]. *)
Definition pick {A} (earlier later : option A) : option A :=
  match later with
  | Some v => Some v
  | None => earlier
  end.

(** [{ ...a, ...b }] on two partial objects. *)
Definition spread2 (a b : partial) : partial := {|
  id' := pick (id' a) (id' b);
  status' := pick (status' a) (status' b);
  lastPollAt' := pick (lastPollAt' a) (lastPollAt' b);
  nextPollAt' := pick (nextPollAt' a) (nextPollAt' b);
  messagesScanned' := pick (messagesScanned' a) (messagesScanned' b);
  alertsTriggered' := pick (alertsTriggered' a) (alertsTriggered' b);
  errorsCount' := pick (errorsCount' a) (errorsCount' b);
  lastError' := pick (lastError' a) (lastError' b);
  startedAt' := pick (startedAt' a) (startedAt' b);
  uptimeMs' := pick (uptimeMs' a) (uptimeMs' b);
  lastMessageIds' := pick (lastMessageIds' a) (lastMessageIds' b);
  lastKnownMembers' := pick (lastKnownMembers' a) (lastKnownMembers' b);
|}.

(** [{ ...current, ...updates }] on a full state. *)
Definition spread (current : t) (updates : partial) : t := {|
  id := default (id current) (id' updates);
  status := default (status current) (status' updates);
  lastPollAt := default (lastPollAt current) (lastPollAt' updates);
  nextPollAt := default (nextPollAt current) (nextPollAt' updates);
  messagesScanned := default (messagesScanned current) (messagesScanned' updates);
  alertsTriggered := default (alertsTriggered current) (alertsTriggered' updates);
  errorsCount := default (errorsCount current) (errorsCount' updates);
  lastError := default (lastError current) (lastError' updates);
  startedAt := default (startedAt current) (startedAt' updates);
  uptimeMs := default (uptimeMs current) (uptimeMs' updates);
  lastMessageIds := default (lastMessageIds current) (lastMessageIds' updates);
  lastKnownMembers := default (lastKnownMembers current) (lastKnownMembers' updates);
|}.

(** Object literals are written key by key: [with_status running
    (with_lastError None nothing)] is [{ lastError: undefined, status:
    'running' }]. *)
Definition with_status (v : MinionStatus) (p : partial) : partial :=
  {| id' := id' p; status' := Some v; lastPollAt' := lastPollAt' p;
     nextPollAt' := nextPollAt' p; messagesScanned' := messagesScanned' p;
     alertsTriggered' := alertsTriggered' p;
     errorsCount' := errorsCount' p; lastError' := lastError' p;
     startedAt' := startedAt' p; uptimeMs' := uptimeMs' p;
     lastMessageIds' := lastMessageIds' p;
     lastKnownMembers' := lastKnownMembers' p |}.
Definition with_lastPollAt (v : Z) (p : partial) : partial :=
  {| id' := id' p; status' := status' p; lastPollAt' := Some v;
     nextPollAt' := nextPollAt' p; messagesScanned' := messagesScanned' p;
     alertsTriggered' := alertsTriggered' p;
     errorsCount' := errorsCount' p; lastError' := lastError' p;
     startedAt' := startedAt' p; uptimeMs' := uptimeMs' p;
     lastMessageIds' := lastMessageIds' p;
     lastKnownMembers' := lastKnownMembers' p |}.
Definition with_nextPollAt (v : Q) (p : partial) : partial :=
  {| id' := id' p; status' := status' p; lastPollAt' := lastPollAt' p;
     nextPollAt' := Some v; messagesScanned' := messagesScanned' p;
     alertsTriggered' := alertsTriggered' p;
     errorsCount' := errorsCount' p; lastError' := lastError' p;
     startedAt' := startedAt' p; uptimeMs' := uptimeMs' p;
     lastMessageIds' := lastMessageIds' p;
     lastKnownMembers' := lastKnownMembers' p |}.
Definition with_messagesScanned (v : Z) (p : partial) : partial :=
  {| id' := id' p; status' := status' p; lastPollAt' := lastPollAt' p;
     nextPollAt' := nextPollAt' p; messagesScanned' := Some v;
     alertsTriggered' := alertsTriggered' p;
     errorsCount' := errorsCount' p; lastError' := lastError' p;
     startedAt' := startedAt' p; uptimeMs' := uptimeMs' p;
     lastMessageIds' := lastMessageIds' p;
     lastKnownMembers' := lastKnownMembers' p |}.
Definition with_alertsTriggered (v : Z) (p : partial) : partial :=
  {| id' := id' p; status' := status' p; lastPollAt' := lastPollAt' p;
     nextPollAt' := nextPollAt' p; messagesScanned' := messagesScanned' p;
     alertsTriggered' := Some v; errorsCount' := errorsCount' p;
     lastError' := lastError' p; startedAt' := startedAt' p;
     uptimeMs' := uptimeMs' p; lastMessageIds' := lastMessageIds' p;
     lastKnownMembers' := lastKnownMembers' p |}.
Definition with_errorsCount (v : Z) (p : partial) : partial :=
  {| id' := id' p; status' := status' p; lastPollAt' := lastPollAt' p;
     nextPollAt' := nextPollAt' p; messagesScanned' := messagesScanned' p;
     alertsTriggered' := alertsTriggered' p; errorsCount' := Some v;
     lastError' := lastError' p; startedAt' := startedAt' p;
     uptimeMs' := uptimeMs' p; lastMessageIds' := lastMessageIds' p;
     lastKnownMembers' := lastKnownMembers' p |}.
Definition with_lastError (v : option string) (p : partial) : partial :=
  {| id' := id' p; status' := status' p; lastPollAt' := lastPollAt' p;
     nextPollAt' := nextPollAt' p; messagesScanned' := messagesScanned' p;
     alertsTriggered' := alertsTriggered' p;
     errorsCount' := errorsCount' p; lastError' := Some v;
     startedAt' := startedAt' p; uptimeMs' := uptimeMs' p;
     lastMessageIds' := lastMessageIds' p;
     lastKnownMembers' := lastKnownMembers' p |}.
Definition with_startedAt (v : option Z) (p : partial) : partial :=
  {| id' := id' p; status' := status' p; lastPollAt' := lastPollAt' p;
     nextPollAt' := nextPollAt' p; messagesScanned' := messagesScanned' p;
     alertsTriggered' := alertsTriggered' p;
     errorsCount' := errorsCount' p; lastError' := lastError' p;
     startedAt' := Some v; uptimeMs' := uptimeMs' p;
     lastMessageIds' := lastMessageIds' p;
     lastKnownMembers' := lastKnownMembers' p |}.
Definition with_uptimeMs (v : Z) (p : partial) : partial :=
  {| id' := id' p; status' := status' p; lastPollAt' := lastPollAt' p;
     nextPollAt' := nextPollAt' p; messagesScanned' := messagesScanned' p;
     alertsTriggered' := alertsTriggered' p;
     errorsCount' := errorsCount' p; lastError' := lastError' p;
     startedAt' := startedAt' p; uptimeMs' := Some v;
     lastMessageIds' := lastMessageIds' p;
     lastKnownMembers' := lastKnownMembers' p |}.
Definition with_lastMessageIds (v : gmap string Z) (p : partial) : partial :=
  {| id' := id' p; status' := status' p; lastPollAt' := lastPollAt' p;
     nextPollAt' := nextPollAt' p; messagesScanned' := messagesScanned' p;
     alertsTriggered' := alertsTriggered' p;
     errorsCount' := errorsCount' p; lastError' := lastError' p;
     startedAt' := startedAt' p; uptimeMs' := uptimeMs' p;
     lastMessageIds' := Some v; lastKnownMembers' := lastKnownMembers' p |}.

Definition with_lastKnownMembers (v : gmap string (list string)) (p : partial)
  : partial :=
  {| id' := id' p; status' := status' p; lastPollAt' := lastPollAt' p;
     nextPollAt' := nextPollAt' p; messagesScanned' := messagesScanned' p;
     alertsTriggered' := alertsTriggered' p;
     errorsCount' := errorsCount' p; lastError' := lastError' p;
     startedAt' := startedAt' p; uptimeMs' := uptimeMs' p;
     lastMessageIds' := lastMessageIds' p; lastKnownMembers' := Some v |}.

Definition set_uptimeMs (v : Z) (s : t) : t :=
  spread s (with_uptimeMs v nothing).

(** The assignment [state.status = v] on a state object. *)
Definition set_status (v : MinionStatus) (s : t) : t :=
  spread s (with_status v nothing).
End MinionState.

Module MinionAlert.
Record t := {
  id : string;
  minionId : string;
  minionName : string;
  minionType : MinionType;
  alertType : AlertType;
  priority : AlertPriority;
  title : string;
  description : string;
  chatId : string;
  chatTitle : string;
  messageId : option Z;
  userId : option string;
  userName : option string;
  timestamp : Z;
  read : bool;
  dismissed : bool;
  matchData : option string;
  evidenceId : option string;
}.

Definition set_read (v : bool) (a : t) : t :=
  {| id := id a; minionId := minionId a; minionName := minionName a;
     minionType := minionType a; alertType := alertType a;
     priority := priority a; title := title a; description := description a;
     chatId := chatId a; chatTitle := chatTitle a; messageId := messageId a;
     userId := userId a; userName := userName a; timestamp := timestamp a;
     read := v; dismissed := dismissed a; matchData := matchData a;
     evidenceId := evidenceId a |}.

Definition set_dismissed (v : bool) (a : t) : t :=
  {| id := id a; minionId := minionId a; minionName := minionName a;
     minionType := minionType a; alertType := alertType a;
     priority := priority a; title := title a; description := description a;
     chatId := chatId a; chatTitle := chatTitle a; messageId := messageId a;
     userId := userId a; userName := userName a; timestamp := timestamp a;
     read := read a; dismissed := v; matchData := matchData a;
     evidenceId := evidenceId a |}.
End MinionAlert.

Module MinionLogEntry.
Record t := {
  id : string;
  minionId : string;
  level : MinionLogLevel;
  message : string;
  timestamp : Z;
  data : option string;
}.
End MinionLogEntry.

(* ===================================================================== *)
(** * helpers/minionStorage.ts                                            *)
(* ===================================================================== *)

Module Storage.

(** The database: one [gmap] per object store, keyed by the record's
    [id] (the [keyPath] of every store).  The statistics store holds one
    record that no function below reads; it is left out. *)
Record DB := {
  CONFIGS : gmap string MinionConfig.t;
  STATES : gmap string MinionState.t;
  ALERTS : gmap string MinionAlert.t;
  LOGS : gmap string MinionLogEntry.t;
}.

Definition empty : DB :=
  {| CONFIGS := ∅; STATES := ∅; ALERTS := ∅; LOGS := ∅ |}.

Definition set_CONFIGS (v : gmap string MinionConfig.t) (db : DB) : DB :=
  {| CONFIGS := v; STATES := STATES db; ALERTS := ALERTS db; LOGS := LOGS db |}.
Definition set_STATES (v : gmap string MinionState.t) (db : DB) : DB :=
  {| CONFIGS := CONFIGS db; STATES := v; ALERTS := ALERTS db; LOGS := LOGS db |}.
Definition set_ALERTS (v : gmap string MinionAlert.t) (db : DB) : DB :=
  {| CONFIGS := CONFIGS db; STATES := STATES db; ALERTS := v; LOGS := LOGS db |}.
Definition set_LOGS (v : gmap string MinionLogEntry.t) (db : DB) : DB :=
  {| CONFIGS := CONFIGS db; STATES := STATES db; ALERTS := ALERTS db; LOGS := v |}.

(** [store.getAll()]: the records of a store.  IndexedDB lists them by
    key; here they come as the map enumerates them, and what is stated
    below of a list of records holds in whatever order they come. *)
Definition getAll {A} (store : gmap string A) : list A :=
  (map_to_list store).*2.

(** [arr.slice(0, limit)]. *)
Definition slice0 {A} (limit : nat) (l : list A) : list A := take limit l.

(** ** Minion configs *)
Definition saveConfig (config : MinionConfig.t) (db : DB) : DB :=
  set_CONFIGS (<[MinionConfig.id config := config]> (CONFIGS db)) db.
Definition getConfig (id : string) (db : DB) : option MinionConfig.t :=
  CONFIGS db !! id.
Definition getAllConfigs (db : DB) : list MinionConfig.t := getAll (CONFIGS db).
Definition deleteConfig (id : string) (db : DB) : DB :=
  set_CONFIGS (delete id (CONFIGS db)) db.

(** ** Minion states *)
Definition saveState (state : MinionState.t) (db : DB) : DB :=
  set_STATES (<[MinionState.id state := state]> (STATES db)) db.
Definition getState (id : string) (db : DB) : option MinionState.t :=
  STATES db !! id.
Definition getAllStates (db : DB) : list MinionState.t := getAll (STATES db).
Definition deleteState (id : string) (db : DB) : DB :=
  set_STATES (delete id (STATES db)) db.

(** ** Alerts *)
Definition saveAlert (alert : MinionAlert.t) (db : DB) : DB :=
  set_ALERTS (<[MinionAlert.id alert := alert]> (ALERTS db)) db.
Definition getAlert (id : string) (db : DB) : option MinionAlert.t :=
  ALERTS db !! id.
Definition getAllAlerts (db : DB) : list MinionAlert.t := getAll (ALERTS db).

(** [doIndexQuery(ALERTS, 'minionId', minionId)]. *)
Definition getAlertsByMinion (minionId : string) (db : DB) : list MinionAlert.t :=
  filter (fun a => MinionAlert.minionId a = minionId) (getAllAlerts db).

Definition getAlertsByPriority (priority : AlertPriority) (db : DB)
  : list MinionAlert.t :=
  filter (fun a => MinionAlert.priority a = priority) (getAllAlerts db).

Definition markAlertRead (id : string) (db : DB) : DB :=
  match getAlert id db with
  | None => db
  | Some alert => saveAlert (MinionAlert.set_read true alert) db
  end.

Definition markAlertDismissed (id : string) (db : DB) : DB :=
  match getAlert id db with
  | None => db
  | Some alert => saveAlert (MinionAlert.set_dismissed true alert) db
  end.

(** The body of the [forEach] of [markAllAlertsRead]. *)
Definition markOne (db : DB) (alert : MinionAlert.t) : DB :=
  if MinionAlert.read alert then db
  else saveAlert (MinionAlert.set_read true alert) db.

Definition markAllAlertsRead (db : DB) : DB :=
  foldl markOne db (getAllAlerts db).

Definition deleteAlert (id : string) (db : DB) : DB :=
  set_ALERTS (delete id (ALERTS db)) db.

(** [alerts.forEach((alert) => store.delete(alert.id))]. *)
Definition deleteAlerts (alerts : list MinionAlert.t) (db : DB) : DB :=
  foldl (fun db alert => deleteAlert (MinionAlert.id alert) db) db alerts.

Definition clearAlertsByMinion (minionId : string) (db : DB) : DB :=
  deleteAlerts (getAlertsByMinion minionId db) db.

(** [(a, b) => b.timestamp - a.timestamp]: [a] is placed before [b] when
    its timestamp is not smaller.  Among records with the same timestamp
    the sort of the source keeps the order of [getAll()]; the order
    [merge_sort] gives them is not meant to be that one. *)
Definition newer_alert (a b : MinionAlert.t) : Prop :=
  MinionAlert.timestamp b <= MinionAlert.timestamp a.
Definition newer_log (a b : MinionLogEntry.t) : Prop :=
  MinionLogEntry.timestamp b <= MinionLogEntry.timestamp a.

#[global] Instance newer_alert_dec a b : Decision (newer_alert a b).
Proof. unfold newer_alert. apply _. Defined.
#[global] Instance newer_log_dec a b : Decision (newer_log a b).
Proof. unfold newer_log. apply _. Defined.

Definition getRecentAlerts (limit : nat) (db : DB) : list MinionAlert.t :=
  slice0 limit (merge_sort newer_alert (getAllAlerts db)).

(** ** Logs *)
Definition saveLog (entry : MinionLogEntry.t) (db : DB) : DB :=
  set_LOGS (<[MinionLogEntry.id entry := entry]> (LOGS db)) db.

Definition logsOfMinion (minionId : string) (db : DB) : list MinionLogEntry.t :=
  filter (fun e => MinionLogEntry.minionId e = minionId) (getAll (LOGS db)).

(** [getLogsByMinion(minionId, limit = 100)]. *)
Definition getLogsByMinion (minionId : string) (limit : nat) (db : DB)
  : list MinionLogEntry.t :=
  slice0 limit (merge_sort newer_log (logsOfMinion minionId db)).

Definition getAllLogs (limit : nat) (db : DB) : list MinionLogEntry.t :=
  slice0 limit (merge_sort newer_log (getAll (LOGS db))).

Definition deleteLog (id : string) (db : DB) : DB :=
  set_LOGS (delete id (LOGS db)) db.

(** [logs.forEach((log) => store.delete(log.id))]. *)
Definition deleteLogs (logs : list MinionLogEntry.t) (db : DB) : DB :=
  foldl (fun db log => deleteLog (MinionLogEntry.id log) db) db logs.

Definition clearLogsByMinion (minionId : string) (db : DB) : DB :=
  deleteLogs (getLogsByMinion minionId (Z.to_nat 10000) db) db.

(** [pruneOldLogs(maxAgeMs)]; returns the number of entries deleted. *)
Definition pruneOldLogs (now : Z) (maxAgeMs : Z) (db : DB) : DB * nat :=
  let cutoff := now - maxAgeMs in
  let toDelete :=
    filter (fun e => MinionLogEntry.timestamp e < cutoff) (getAll (LOGS db)) in
  (deleteLogs toDelete db, length toDelete).

(** ** Cleanup *)
Definition deleteAllMinionData (minionId : string) (db : DB) : DB :=
  clearLogsByMinion minionId
    (clearAlertsByMinion minionId
       (deleteState minionId
          (deleteConfig minionId db))).

(** Every record sits under its own [id]: what [store.put] with
    [keyPath: 'id'] guarantees. *)
Definition keyed {A} (key : A -> string) (store : gmap string A) : Prop :=
  forall k v, store !! k = Some v -> key v = k.

End Storage.

(* ===================================================================== *)
(** * services/alertService.ts                                            *)
(* ===================================================================== *)

Module AlertService.

(** The fields of the service.  [countNotified] records, oldest first, the
    argument of every round of calls to the unread-count listeners;
    [alertNotified] the ids of the alerts handed to the alert listeners.
    Desktop notification and sound have no effect on this state. *)
Record t := {
  desktopNotificationsEnabled : bool;
  soundEnabled : bool;
  unreadCount : Z;
  countNotified : list Z;
  alertNotified : list string;
}.

Definition new : t := {|
  desktopNotificationsEnabled := false;
  soundEnabled := true;
  unreadCount := 0;
  countNotified := [];
  alertNotified := [];
|}.

Definition set_unreadCount (v : Z) (s : t) : t :=
  {| desktopNotificationsEnabled := desktopNotificationsEnabled s;
     soundEnabled := soundEnabled s; unreadCount := v;
     countNotified := countNotified s; alertNotified := alertNotified s |}.

(** [notifyCountListeners()]: each listener is called with
    [this.unreadCount]. *)
Definition notifyCountListeners (s : t) : t :=
  {| desktopNotificationsEnabled := desktopNotificationsEnabled s;
     soundEnabled := soundEnabled s; unreadCount := unreadCount s;
     countNotified := countNotified s ++ [unreadCount s];
     alertNotified := alertNotified s |}.

Definition notifyAlertListeners (alert : MinionAlert.t) (s : t) : t :=
  {| desktopNotificationsEnabled := desktopNotificationsEnabled s;
     soundEnabled := soundEnabled s; unreadCount := unreadCount s;
     countNotified := countNotified s;
     alertNotified := alertNotified s ++ [MinionAlert.id alert] |}.

(** The service and the database it writes to. *)
Definition world : Type := t * Storage.DB.

Definition pushAlert (alert : MinionAlert.t) (w : world) : world :=
  let '(s, db) := w in
  let db := Storage.saveAlert alert db in
  let s := if MinionAlert.read alert then s
           else notifyCountListeners (set_unreadCount (unreadCount s + 1) s) in
  (notifyAlertListeners alert s, db).

Definition markRead (alertId : string) (w : world) : world :=
  let '(s, db) := w in
  let db := Storage.markAlertRead alertId db in
  (notifyCountListeners (set_unreadCount (Z.max 0 (unreadCount s - 1)) s), db).

Definition markDismissed (alertId : string) (w : world) : world :=
  let '(s, db) := w in
  (s, Storage.markAlertDismissed alertId db).

Definition markAllRead (w : world) : world :=
  let '(s, db) := w in
  let db := Storage.markAllAlertsRead db in
  (notifyCountListeners (set_unreadCount 0 s), db).

Definition getUnreadCount (w : world) : Z := unreadCount (fst w).

(** What a user of the service can observe of an alert and of the
    counter. *)
Definition flags (alertId : string) (w : world) : option (bool * bool) :=
  a ← Storage.getAlert alertId (snd w);
  Some (MinionAlert.read a, MinionAlert.dismissed a).

(** The calls a client can make on the service, and sequences of them. *)
Inductive Op :=
| OpPushAlert (alert : MinionAlert.t)
| OpMarkRead (alertId : string)
| OpMarkDismissed (alertId : string)
| OpMarkAllRead.

Definition perform (w : world) (op : Op) : world :=
  match op with
  | OpPushAlert alert => pushAlert alert w
  | OpMarkRead alertId => markRead alertId w
  | OpMarkDismissed alertId => markDismissed alertId w
  | OpMarkAllRead => markAllRead w
  end.

Definition performAll (ops : list Op) (w : world) : world := foldl perform w ops.

(** The number of stored alerts that are unread. *)
Definition unreadIn (db : Storage.DB) : Z :=
  Z.of_nat (length (filter (fun a => MinionAlert.read a = false)
                      (Storage.getAllAlerts db))).

(** A call under which the counter can be kept exact: a pushed alert has
    an id that is not stored yet, and [markRead] names a stored alert that
    is unread. *)
Definition careful (w : world) (op : Op) : bool :=
  match op with
  | OpPushAlert alert =>
      match Storage.getAlert (MinionAlert.id alert) (snd w) with
      | None => true
      | Some _ => false
      end
  | OpMarkRead alertId =>
      match Storage.getAlert alertId (snd w) with
      | Some alert => negb (MinionAlert.read alert)
      | None => false
      end
  | OpMarkDismissed _ | OpMarkAllRead => true
  end.

Fixpoint allCareful (ops : list Op) (w : world) : bool :=
  match ops with
  | [] => true
  | op :: rest => careful w op && allCareful rest (perform w op)
  end.

End AlertService.

(* ===================================================================== *)
(** * JavaScript numbers: IEEE 754 binary64                               *)
(* ===================================================================== *)

(** [round q] is the double nearest to the rational [q], ties going to
    the even significand: what a JavaScript [+] or [*] returns for operands
    whose exact sum or product is [q].  Subnormal numbers are rounded on
    their fixed grid of [2^-1074]; a result beyond the largest double
    ([Infinity] in JavaScript) is not represented. *)
Module Float64.

Definition pow2 (e : Z) : Q := Qpower 2 e.

(** [binade q] is the [e] with [2^e <= q < 2^(e+1)], for [q > 0]. *)
Definition binade (q : Q) : Z :=
  let e := Z.log2 (Qnum q) - Z.log2 (Zpos (Qden q)) in
  if Qle_bool (pow2 e) q then e else e - 1.

(** The distance between two neighbouring doubles around [q > 0]: 52 binary
    places below the leading one. *)
Definition ulp (q : Q) : Q := pow2 (Z.max (binade q) (-1022) - 52).

(** The integer nearest to [x], the even one of two that are equally
    near. *)
Definition nearest (x : Q) : Z :=
  let f := Qfloor x in
  match (x - inject_Z f ?= 1 # 2)%Q with
  | Lt => f
  | Gt => f + 1
  | Eq => if Z.even f then f else f + 1
  end.

Definition round_pos (q : Q) : Q := (inject_Z (nearest (q / ulp q)) * ulp q)%Q.

Definition round (q : Q) : Q :=
  Qred match (q ?= 0)%Q with
       | Eq => 0
       | Gt => round_pos q
       | Lt => - round_pos (- q)
       end.

(** [q] is a double. *)
Definition representable (q : Q) : Prop := (round q == q)%Q.

(** [a + b] and [a * b] on doubles. *)
Definition add (a b : Q) : Q := round (a + b).
Definition mul (a b : Q) : Q := round (a * b).

End Float64.

(* ===================================================================== *)
(** * services/minionEngine.ts                                            *)
(* ===================================================================== *)

Module MinionEngine.

(** A pending [setTimeout(() => this.executePoll(id), delay)]. *)
Record Timer := {
  armedAt : Z;
  delay : Q;
}.

(** The engine with the module-level objects it works on: the table
    [minionPollFunctions] (only whether a type has a function matters to
    the engine; what a poll does is an input of [executePoll_settle]), the
    database, the global rate limiter and the alert service.
    [notified] counts the rounds of [notifyListeners()]. *)
Record t := {
  timers : gmap string Timer;
  states : gmap string MinionState.t;
  configs : gmap string MinionConfig.t;
  minionPollFunctions : MinionType -> bool;
  db : Storage.DB;
  rateLimiter : RateLimiter.t;
  alertService : AlertService.t;
  notified : nat;
}.

Definition set_timers (v : gmap string Timer) (e : t) : t :=
  {| timers := v; states := states e; configs := configs e;
     minionPollFunctions := minionPollFunctions e; db := db e;
     rateLimiter := rateLimiter e; alertService := alertService e;
     notified := notified e |}.
Definition set_states (v : gmap string MinionState.t) (e : t) : t :=
  {| timers := timers e; states := v; configs := configs e;
     minionPollFunctions := minionPollFunctions e; db := db e;
     rateLimiter := rateLimiter e; alertService := alertService e;
     notified := notified e |}.
Definition set_configs (v : gmap string MinionConfig.t) (e : t) : t :=
  {| timers := timers e; states := states e; configs := v;
     minionPollFunctions := minionPollFunctions e; db := db e;
     rateLimiter := rateLimiter e; alertService := alertService e;
     notified := notified e |}.
Definition set_db (v : Storage.DB) (e : t) : t :=
  {| timers := timers e; states := states e; configs := configs e;
     minionPollFunctions := minionPollFunctions e; db := v;
     rateLimiter := rateLimiter e; alertService := alertService e;
     notified := notified e |}.
Definition set_rateLimiter (v : RateLimiter.t) (e : t) : t :=
  {| timers := timers e; states := states e; configs := configs e;
     minionPollFunctions := minionPollFunctions e; db := db e;
     rateLimiter := v; alertService := alertService e;
     notified := notified e |}.
Definition set_alertService (v : AlertService.t) (e : t) : t :=
  {| timers := timers e; states := states e; configs := configs e;
     minionPollFunctions := minionPollFunctions e; db := db e;
     rateLimiter := rateLimiter e; alertService := v;
     notified := notified e |}.

Definition notifyListeners (e : t) : t :=
  {| timers := timers e; states := states e; configs := configs e;
     minionPollFunctions := minionPollFunctions e; db := db e;
     rateLimiter := rateLimiter e; alertService := alertService e;
     notified := S (notified e) |}.

Definition createDefaultState (id : string) : MinionState.t := {|
  MinionState.id := id;
  MinionState.status := stopped;
  MinionState.lastPollAt := 0;
  MinionState.nextPollAt := 0;
  MinionState.messagesScanned := 0;
  MinionState.alertsTriggered := 0;
  MinionState.errorsCount := 0;
  MinionState.lastError := None;
  MinionState.startedAt := None;
  MinionState.uptimeMs := 0;
  MinionState.lastMessageIds := ∅;
  MinionState.lastKnownMembers := ∅;
|}.

(** [updated.startedAt && updated.status === 'running']: a start time of
    [0] is falsy. *)
Definition uptime_base (s : MinionState.t) : option Z :=
  match MinionState.startedAt s, MinionState.status s with
  | Some started, running => if decide (started = 0) then None else Some started
  | _, _ => None
  end.

(** Lines 349-352: the uptime is recomputed when the minion is running and
    has a start time. *)
Definition refreshed (now : Z) (updated : MinionState.t) : MinionState.t :=
  match uptime_base updated with
  | Some started => MinionState.set_uptimeMs (now - started) updated
  | None => updated
  end.

(** [updateState(id, updates)]. *)
Definition updateState (id : string) (updates : MinionState.partial) (now : Z)
    (e : t) : t :=
  match states e !! id with
  | None => e
  | Some current =>
      let updated := refreshed now (MinionState.spread current updates) in
      set_states (<[id := updated]> (states e)) e
  end.

(** [persistState(id)]. *)
Definition persistState (id : string) (e : t) : t :=
  match states e !! id with
  | Some state => set_db (Storage.saveState state (db e)) e
  | None => e
  end.

(** [log(minionId, level, message)]; [logId] is the value
    [generateLogId()] returns.  No caller in the engine passes [data]. *)
Definition log (minionId : string) (level : MinionLogLevel) (message : string)
    (now : Z) (logId : string) (e : t) : t :=
  let entry := {|
    MinionLogEntry.id := logId;
    MinionLogEntry.minionId := minionId;
    MinionLogEntry.level := level;
    MinionLogEntry.message := message;
    MinionLogEntry.timestamp := now;
    MinionLogEntry.data := None;
  |} in
  set_db (Storage.saveLog entry (db e)) e.

(** [clearTimer(id)]. *)
Definition clearTimer (id : string) (e : t) : t :=
  match timers e !! id with
  | Some _ => set_timers (delete id (timers e)) e
  | None => e
  end.

Definition just_status (s : MinionStatus) : MinionState.partial :=
  MinionState.with_status s MinionState.nothing.

(** [schedulePoll(id)]; [rnd] is the [Math.random()] draw.  The jitter is
    fractional, so the sums round: [interval + jitter] for the timer, and
    [Date.now() + interval + jitter], added from the left, for
    [nextPollAt]. *)
Definition schedulePoll (id : string) (now : Z) (rnd : Q) (e : t) : t :=
  match configs e !! id, states e !! id with
  | Some config, Some state =>
      if decide (MinionState.status state = running) then
        let interval := Qmax (MinionConfig.pollIntervalMs config) 30000 in
        let jitter := Float64.mul rnd 5000 in
        let timer := {| armedAt := now; delay := Float64.add interval jitter |} in
        let e := set_timers (<[id := timer]> (timers e)) e in
        updateState id
          (MinionState.with_nextPollAt
             (Float64.add (Float64.add (inject_Z now) interval) jitter)
             MinionState.nothing)
          now e
      else e
  | _, _ => e
  end.

Definition typeName (ty : MinionType) : string :=
  match ty with
  | keyword_monitor => "keyword-monitor"
  | new_member_alert => "new-member-alert"
  | channel_clone_detector => "channel-clone-detector"
  | media_monitor => "media-monitor"
  end.

(** [startMinion(id)]. *)
Definition startMinion (id : string) (now : Z) (logId : string) (rnd : Q) (e : t)
  : t * bool :=
  match configs e !! id with
  | None => (e, false)
  | Some config =>
      if minionPollFunctions e (MinionConfig.type config) then
        let e := clearTimer id e in
        let e := updateState id
          (MinionState.with_startedAt (Some now)
             (MinionState.with_lastError None
             (MinionState.with_status running
             MinionState.nothing))) now e in
        let e := log id level_info
                   ("Minion " +:+ dquote +:+ MinionConfig.name config +:+ dquote
                      +:+ " started")
                   now logId e in
        let e := schedulePoll id now rnd e in
        (notifyListeners e, true)
      else
        let e := log id level_error
                   ("No poll function registered for type: "
                      +:+ typeName (MinionConfig.type config)) now logId e in
        let e := updateState id
          (MinionState.with_lastError
             (Some ("No handler for type: " +:+ typeName (MinionConfig.type config)))
             (MinionState.with_status error MinionState.nothing)) now e in
        (e, false)
  end.

(** [stopMinion(id)]. *)
Definition stopMinion (id : string) (now : Z) (logId : string) (e : t) : t :=
  let e := clearTimer id e in
  let e := updateState id (just_status stopped) now e in
  let e := persistState id e in
  let e := log id level_info "Minion stopped" now logId e in
  notifyListeners e.

(** [pauseMinion(id)]. *)
Definition pauseMinion (id : string) (now : Z) (logId : string) (e : t) : t :=
  let e := clearTimer id e in
  let e := updateState id (just_status paused) now e in
  let e := persistState id e in
  let e := log id level_info "Minion paused" now logId e in
  notifyListeners e.

(** [resumeMinion(id)]. *)
Definition resumeMinion (id : string) (now : Z) (logId : string) (rnd : Q) (e : t)
  : t :=
  match states e !! id with
  | Some state =>
      if decide (MinionState.status state = paused) then
        let e := updateState id (just_status running) now e in
        let e := log id level_info "Minion resumed" now logId e in
        let e := schedulePoll id now rnd e in
        notifyListeners e
      else e
  | None => e
  end.

(** [deleteMinion(id)]. *)
Definition deleteMinion (id : string) (now : Z) (logId : string) (e : t) : t :=
  let e := stopMinion id now logId e in
  let e := set_db (Storage.deleteAllMinionData id (db e)) e in
  let e := set_configs (delete id (configs e)) e in
  let e := set_states (delete id (states e)) e in
  notifyListeners e.

(** [emitAlert(alert)]. *)
Definition emitAlert (alert : MinionAlert.t) (now : Z) (logId : string) (e : t)
  : t :=
  let e := set_db (Storage.saveAlert alert (db e)) e in
  let '(svc, d) := AlertService.pushAlert alert (alertService e, db e) in
  let e := set_db d (set_alertService svc e) in
  let e := log (MinionAlert.minionId alert) level_info
             ("Alert: [" +:+ match MinionAlert.priority alert with
                             | info => "info"
                             | warning => "warning"
                             | critical => "critical"
                             end +:+ "] " +:+ MinionAlert.title alert)
             now logId e in
  let e :=
    match states e !! MinionAlert.minionId alert with
    | Some state =>
        updateState (MinionAlert.minionId alert)
          (MinionState.with_alertsTriggered (MinionState.alertsTriggered state + 1)
             MinionState.nothing) now e
    | None => e
    end in
  notifyListeners e.

(** ** [executePoll(id)]

    The function is cut where it awaits
    [rateLimiter.execute(async () => pollFn(config, state, this))].

    [executePoll_begin] is the part before: the guards and the debug log
    line.  It yields the [config] and [state] the strategy is called with;
    [state] is the snapshot the rest of the function keeps using. *)
Definition executePoll_begin (id : string) (now : Z) (logId : string) (e : t)
  : option (MinionConfig.t * MinionState.t * t) :=
  config ← configs e !! id;
  state ← states e !! id;
  if decide (MinionState.status state = running) then
    if minionPollFunctions e (MinionConfig.type config) then
      Some (config, state,
            log id level_debug
              ("Polling " +:+ pretty (length (MinionConfig.targetChatIds config))
                 +:+ " target(s)...") now logId e)
    else None
  else None.

(** A value caught by the [catch] block: [errorMsg] is what line 276
    computes from it, [seconds] its [seconds] property if it is an object
    that has one. *)
Record Thrown := {
  errorMsg : string;
  seconds : option Q;
}.

(** [new Error('Rate limiter reset')], with which [reset()] rejects queued
    waiters. *)
Definition limiterReset : Thrown :=
  {| errorMsg := "Rate limiter reset"; seconds := None |}.

(** What the awaited call settles with. *)
Inductive PollOutcome :=
| Fulfilled (stateUpdates : MinionState.partial)  (* the strategy returned *)
| Rejected (thrown : Thrown)                      (* the strategy threw *)
| Cancelled.                                      (* acquire() was rejected by reset() *)

Definition thrownOf (outcome : PollOutcome) : option Thrown :=
  match outcome with
  | Fulfilled _ => None
  | Rejected err => Some err
  | Cancelled => Some limiterReset
  end.

(** What [RateLimiter.execute] does to the limiter once the strategy has
    settled; [l] is the limiter as [acquire()] and whatever ran since have
    left it.  When [acquire()] itself is rejected, [execute] never enters
    its [try] block: nothing is reported or released. *)
Definition settle_rateLimiter (now : Z) (outcome : PollOutcome) (l : RateLimiter.t)
  : RateLimiter.t :=
  match outcome with
  | Fulfilled _ => (RateLimiter.execute_settle now None l).1
  | Rejected err => (RateLimiter.execute_settle now (Some (seconds err)) l).1
  | Cancelled => l
  end.

(** Lines 296-302. *)
Definition executePoll_reschedule (id : string) (now : Z) (rnd : Q) (e : t) : t :=
  let e :=
    match states e !! id with
    | Some currentState =>
        if decide (MinionState.status currentState = running)
        then schedulePoll id now rnd e
        else e
    | None => e
    end in
  notifyListeners e.

Record LogIds := {
  failedLogId : string;     (* for 'Poll failed: ...' *)
  tooManyLogId : string;    (* for 'Too many errors, pausing minion' *)
  pausedLogId : string;     (* for 'Minion paused' *)
}.

(** Lines 268-274: the rest of the [try] block. *)
Definition executePoll_succeeded (id : string) (state : MinionState.t)
    (stateUpdates : MinionState.partial) (now : Z) (e : t) : t :=
  let e := updateState id
    (MinionState.spread2 stateUpdates
       (MinionState.with_errorsCount (MinionState.errorsCount state)
          (MinionState.with_lastPollAt now MinionState.nothing))) now e in
  persistState id e.

(** Lines 276-285: the [catch] block up to the 'Poll failed' line. *)
Definition executePoll_failed (id : string) (state : MinionState.t) (err : Thrown)
    (now : Z) (ids : LogIds) (e : t) : t :=
  let e := updateState id
    (MinionState.with_lastPollAt now
       (MinionState.with_errorsCount (MinionState.errorsCount state + 1)
          (MinionState.with_lastError (Some (errorMsg err)) MinionState.nothing)))
    now e in
  log id level_error ("Poll failed: " +:+ errorMsg err) now (failedLogId ids) e.

(** Lines 276-302 for a caught value: the [catch] block, and the
    rescheduling unless the block returns. *)
Definition executePoll_catch (id : string) (state : MinionState.t) (err : Thrown)
    (now : Z) (ids : LogIds) (rnd : Q) (e : t) : t :=
  let e := executePoll_failed id state err now ids e in
  match states e !! id with
  | Some currentState =>
      if Z.geb (MinionState.errorsCount currentState) 10 then
        let e := log id level_error "Too many errors, pausing minion"
                   now (tooManyLogId ids) e in
        pauseMinion id now (pausedLogId ids) e
      else executePoll_reschedule id now rnd e
  | None => executePoll_reschedule id now rnd e
  end.

(** [executePoll_settle] is the part after the await.  [e] is the engine as
    it is when the call settles, [state] the snapshot taken by
    [executePoll_begin]. *)
Definition executePoll_settle (id : string) (state : MinionState.t)
    (outcome : PollOutcome) (now : Z) (ids : LogIds) (rnd : Q) (e : t) : t :=
  let e := set_rateLimiter (settle_rateLimiter now outcome (rateLimiter e)) e in
  match outcome with
  | Fulfilled stateUpdates =>
      executePoll_reschedule id now rnd
        (executePoll_succeeded id state stateUpdates now e)
  | Rejected err => executePoll_catch id state err now ids rnd e
  | Cancelled => executePoll_catch id state limiterReset now ids rnd e
  end.

(** A whole [executePoll(id)] during which no other callback runs, whose
    [acquire()] returns and whose strategy settles while the clock still
    reads [now], and whose strategy makes no call on the engine handle:
    the two halves run back to back, with lines 73-74 of [acquire()]
    (the call is counted and stamped) in between.  (The handle of the
    timer that fired stays in [timers] until it is overwritten or cleared,
    as in the source.) *)
Definition executePoll (id : string) (outcome : PollOutcome) (now : Z)
    (pollingLogId : string) (ids : LogIds) (rnd : Q) (e : t) : t :=
  match executePoll_begin id now pollingLogId e with
  | Some (_, state, e) =>
      let e :=
        match outcome with
        | Cancelled => e
        | Fulfilled _ | Rejected _ =>
            set_rateLimiter (RateLimiter.acquire_finish now (rateLimiter e)).1 e
        end in
      executePoll_settle id state outcome now ids rnd e
  | None => e
  end.

(** The status the engine reports for a minion. *)
Definition statusOf (id : string) (e : t) : option MinionStatus :=
  MinionState.status <$> states e !! id.

Definition errorsCountOf (id : string) (e : t) : option Z :=
  MinionState.errorsCount <$> states e !! id.

(** What starting, stopping, pausing and resuming are meant to leave
    alone: the cursors and the counters of a state. *)
Definition progress (s : MinionState.t)
  : gmap string Z * gmap string (list string) * Z * Z * Z :=
  (MinionState.lastMessageIds s, MinionState.lastKnownMembers s,
   MinionState.messagesScanned s, MinionState.alertsTriggered s,
   MinionState.errorsCount s).

(** ** Creation and update

    [createMinion(config)]; [newId] is the value [generateMinionId()]
    returns, [createdLogId] and [startLogId] the ids of the log lines of
    the function and of the [startMinion] it calls. *)
Definition createMinion (config : MinionConfig.draft) (newId : string) (now : Z)
    (createdLogId startLogId : string) (rnd : Q) (e : t) : t * MinionConfig.t :=
  let fullConfig := {|
    MinionConfig.id := newId;
    MinionConfig.name := MinionConfig.draft_name config;
    MinionConfig.type := MinionConfig.draft_type config;
    MinionConfig.enabled := MinionConfig.draft_enabled config;
    MinionConfig.createdAt := now;
    MinionConfig.updatedAt := now;
    MinionConfig.targetChatIds := MinionConfig.draft_targetChatIds config;
    MinionConfig.pollIntervalMs := MinionConfig.draft_pollIntervalMs config;
    MinionConfig.typeConfig := MinionConfig.draft_typeConfig config;
  |} in
  let e := set_db (Storage.saveConfig fullConfig (db e)) e in
  let e := set_configs (<[newId := fullConfig]> (configs e)) e in
  let e := set_states (<[newId := createDefaultState newId]> (states e)) e in
  (* saveState(this.states.get(fullConfig.id)!) *)
  let e := persistState newId e in
  let e := log newId level_info
             ("Minion " +:+ dquote +:+ MinionConfig.name fullConfig +:+ dquote
                +:+ " created (" +:+ typeName (MinionConfig.type fullConfig) +:+ ")")
             now createdLogId e in
  let e := if MinionConfig.enabled fullConfig
           then (startMinion newId now startLogId rnd e).1
           else e in
  (notifyListeners e, fullConfig).

(** [updateMinion(id, updates)]. *)
Definition updateMinion (id : string) (updates : MinionConfig.partial) (now : Z)
    (logId : string) (e : t) : t * option MinionConfig.t :=
  match configs e !! id with
  | None => (e, None)
  | Some config =>
      let merged := MinionConfig.spread config updates in
      let updated := {|
        MinionConfig.id := id;
        MinionConfig.name := MinionConfig.name merged;
        MinionConfig.type := MinionConfig.type merged;
        MinionConfig.enabled := MinionConfig.enabled merged;
        MinionConfig.createdAt := MinionConfig.createdAt merged;
        MinionConfig.updatedAt := now;
        MinionConfig.targetChatIds := MinionConfig.targetChatIds merged;
        MinionConfig.pollIntervalMs := MinionConfig.pollIntervalMs merged;
        MinionConfig.typeConfig := MinionConfig.typeConfig merged;
      |} in
      let e := set_db (Storage.saveConfig updated (db e)) e in
      let e := set_configs (<[id := updated]> (configs e)) e in
      let e := log id level_info
                 ("Minion " +:+ dquote +:+ MinionConfig.name updated +:+ dquote
                    +:+ " configuration updated") now logId e in
      (notifyListeners e, Some updated)
  end.

(** ** Start-up and shutdown

    The engine object with the three fields that only [initialize],
    [shutdown] and [getStats] use.  [pruningIntervals] counts the
    [setInterval] timers registered by [schedulePruning()]; nothing in the
    class clears them. *)
Record Host := {
  engine : t;
  initialized : bool;
  engineStartTime : Z;
  pruningIntervals : nat;
}.

(** Lines 89-100, one config of the first loop.  [stateMap] is the [Map]
    built from the stored states, keyed by their [id]. *)
Definition loadConfig (stateMap : gmap string MinionState.t) (e : t)
    (config : MinionConfig.t) : t :=
  let e := set_configs (<[MinionConfig.id config := config]> (configs e)) e in
  match stateMap !! MinionConfig.id config with
  | Some existingState =>
      set_states (<[MinionConfig.id config :=
                      MinionState.set_status stopped existingState]> (states e)) e
  | None =>
      set_states (<[MinionConfig.id config :=
                      createDefaultState (MinionConfig.id config)]> (states e)) e
  end.

(** What one call of [startMinion] reads from the environment. *)
Record StartInputs := {
  startNow : Z;
  startLogId : string;
  startRnd : Q;
}.

(** Lines 103-107, one config of the second loop. *)
Definition autoStart (inputs : string -> StartInputs) (e : t)
    (config : MinionConfig.t) : t :=
  if MinionConfig.enabled config then
    let i := inputs (MinionConfig.id config) in
    (startMinion (MinionConfig.id config) (startNow i) (startLogId i) (startRnd i) e).1
  else e.

(** [new Map(states.map((s) => [s.id, s]))]: a later entry replaces an
    earlier one with the same key. *)
Definition stateMapOf (states : list MinionState.t) : gmap string MinionState.t :=
  foldl (fun m s => <[MinionState.id s := s]> m) ∅ states.

(** [initialize()], called when [Date.now()] reads [now]; [inputs id] is
    what the [startMinion(id)] of the second loop reads. *)
Definition initialize (now : Z) (inputs : string -> StartInputs) (h : Host) : Host :=
  if initialized h then h
  else
    let e := engine h in
    let configs := Storage.getAllConfigs (db e) in
    let states := Storage.getAllStates (db e) in
    let stateMap := stateMapOf states in
    let e := foldl (loadConfig stateMap) e configs in
    let e := foldl (autoStart inputs) e configs in
    {| engine := notifyListeners e;
       initialized := true;
       engineStartTime := now;
       pruningIntervals := S (pruningIntervals h) |}.

(** [shutdown()].  The loop assigns [state.status = 'stopped'] on the
    objects held by [this.states] and stores each of them; the [Map] is
    walked in insertion order, which a [gmap] does not record, and the
    stores are made in the order of [map_to_list]. *)
Definition shutdown (h : Host) : Host :=
  let e := set_timers ∅ (engine h) in
  let stoppedStates := MinionState.set_status stopped <$> states e in
  let e := set_states stoppedStates e in
  let e := set_db (foldl (fun db state => Storage.saveState state db) (db e)
                     (Storage.getAll stoppedStates)) e in
  {| engine := e;
     initialized := false;
     engineStartTime := engineStartTime h;
     pruningIntervals := pruningIntervals h |}.

(** An engine object as the module creates it, over a database and a poll
    function table. *)
Definition fresh (registered : MinionType -> bool) (database : Storage.DB) : Host := {|
  engine := {| timers := ∅; states := ∅; configs := ∅;
               minionPollFunctions := registered; db := database;
               rateLimiter := RateLimiter.new RateLimiter.GLOBAL_CONFIG;
               alertService := AlertService.new; notified := 0 |};
  initialized := false;
  engineStartTime := 0;
  pruningIntervals := 0;
|}.

End MinionEngine.

(* ===================================================================== *)
(** * helpers/utils.ts (the string helpers the keyword monitor uses)      *)
(* ===================================================================== *)

Module Utils.

(** [text.includes(needle)]: [needle] occurs in [text].  Strings are kept
    in UTF-8; on well-formed strings an occurrence of the bytes of [needle]
    is an occurrence of its characters, as in the code-unit comparison of
    JavaScript. *)
Fixpoint includes (text needle : string) : bool :=
  String.prefix needle text
  || match text with
     | EmptyString => false
     | String _ rest => includes rest needle
     end.

(** [matchesKeywords(text, keywords)]; [toLowerCase] is
    [String.prototype.toLowerCase], the Unicode case mapping of the
    JavaScript engine. *)
Definition matchesKeywords (toLowerCase : string -> string)
    (text : string) (keywords : list string) : list string :=
  let lowerText := toLowerCase text in
  List.filter (fun keyword => includes lowerText (toLowerCase keyword)) keywords.

Record RegexMatch := {
  pattern : string;
  matches : list string;
}.

(** [matchesRegexPatterns(text, patterns)].  [matchAll pattern text] stands
    for [text.match(new RegExp(pattern, 'gi'))]: the matches, or [None]
    when there is none or the pattern does not compile (the [catch]
    skips it). *)
Definition matchesRegexPatterns (matchAll : string -> string -> option (list string))
    (text : string) (patterns : list string) : list RegexMatch :=
  omap (fun p => ms ← matchAll p text; Some {| pattern := p; matches := ms |})
       patterns.

End Utils.

(* ===================================================================== *)
(** * services/telegramBridge.ts (types) and services/keywordMonitor.ts   *)
(* ===================================================================== *)

Module BridgeMessage.
Record t := {
  id : Z;
  chatId : string;
  senderId : option string;
  date : Z;
  text : string;
  mediaType : option string;
  hasMedia : bool;
  isForwarded : bool;
  forwardFromId : option string;
  views : option Z;
  editDate : option Z;
}.
End BridgeMessage.

Module KeywordMonitor.

(** What a strategy asks of the engine handle, in call order. *)
Inductive EngineCall :=
| EmitAlert (alert : MinionAlert.t)
| Log (minionId : string) (level : MinionLogLevel) (message : string).

Record Acc := {
  totalScanned : Z;
  updatedLastMessageIds : gmap string Z;
  calls : list EngineCall;
}.

Definition newline : string := String (Ascii.ascii_of_nat 10) EmptyString.

Section Poll.

(** The bridge and the JavaScript built-ins the strategy relies on:
    [fetchChatMessages chatId limit offsetId] is what the bridge answers
    during this poll; [toLowerCase] is [String.prototype.toLowerCase] (see
    [Utils.matchesKeywords]); [matchAll] is the regular-expression engine
    (see [Utils.matchesRegexPatterns]); [truncate] is [truncate] of
    [helpers/utils.ts], which measures and cuts its argument in UTF-16 code
    units with [length] and [substring]; [generateAlertId n] is the id
    generated for the alert built after [n] earlier engine calls;
    [stringify] is [JSON.stringify] of the match record. *)
Variable fetchChatMessages : string -> nat -> option Z -> list BridgeMessage.t.
Variable toLowerCase : string -> string.
Variable matchAll : string -> string -> option (list string).
Variable truncate : string -> nat -> string.
Variable generateAlertId : nat -> string.
Variable stringify : list string -> list Utils.RegexMatch -> BridgeMessage.t -> string.
Variable now : Z.

Variable config : MinionConfig.t.
Variable typeConfig : KeywordMonitorConfig.t.
Variable state : MinionState.t.

Definition matchDetails (keywordMatches : list string)
    (regexMatches : list Utils.RegexMatch) : string :=
  String.concat "; "
    (((fun k => "keyword: " +:+ dquote +:+ k +:+ dquote) <$> keywordMatches)
     ++ ((fun r => "regex: /" +:+ Utils.pattern r +:+ "/ → "
                     +:+ String.concat ", " (Utils.matches r)) <$> regexMatches)).

(** Lines 59-108: one message of [newMessages]. *)
Definition scanMessage (chatId : string) (acc : Acc) (message : BridgeMessage.t)
  : Acc :=
  if decide (BridgeMessage.text message = EmptyString) then acc
  else
    let keywordMatches :=
      Utils.matchesKeywords toLowerCase (BridgeMessage.text message)
        (KeywordMonitorConfig.keywords typeConfig) in
    let regexMatches :=
      Utils.matchesRegexPatterns matchAll (BridgeMessage.text message)
        (KeywordMonitorConfig.regexPatterns typeConfig) in
    if (0 <? length keywordMatches)%nat || (0 <? length regexMatches)%nat then
      let alert := {|
        MinionAlert.id := generateAlertId (length (calls acc));
        MinionAlert.minionId := MinionConfig.id config;
        MinionAlert.minionName := MinionConfig.name config;
        MinionAlert.minionType := keyword_monitor;
        MinionAlert.alertType := keyword_match;
        MinionAlert.priority := KeywordMonitorConfig.alertPriority typeConfig;
        MinionAlert.title := "Keyword Match in " +:+ chatId;
        MinionAlert.description :=
          "Matched: " +:+ matchDetails keywordMatches regexMatches
            +:+ newline +:+ newline +:+ "Message: "
            +:+ truncate (BridgeMessage.text message) 300;
        MinionAlert.chatId := chatId;
        MinionAlert.chatTitle := chatId;
        MinionAlert.messageId := Some (BridgeMessage.id message);
        MinionAlert.userId := BridgeMessage.senderId message;
        MinionAlert.userName := None;
        MinionAlert.timestamp := now;
        MinionAlert.read := false;
        MinionAlert.dismissed := false;
        MinionAlert.matchData := Some (stringify keywordMatches regexMatches message);
        MinionAlert.evidenceId := None;
      |} in
      {| totalScanned := totalScanned acc;
         updatedLastMessageIds := updatedLastMessageIds acc;
         calls :=
           calls acc ++ [EmitAlert alert]
             ++ (if KeywordMonitorConfig.autoArchive typeConfig
                 then [Log (MinionConfig.id config) level_info
                         ("Auto-archiving matched message "
                            +:+ pretty (BridgeMessage.id message)
                            +:+ " in " +:+ chatId)]
                 else []) |}
    else acc.

(** [Math.max(...newMessages.map((m) => m.id))] on a non-empty array. *)
Definition maxId (first : BridgeMessage.t) (rest : list BridgeMessage.t) : Z :=
  foldr Z.max (BridgeMessage.id first) (BridgeMessage.id <$> rest).

(** Lines 37-109: one target chat. *)
Definition pollChat (acc : Acc) (chatId : string) : Acc :=
  let lastSeenId := default 0 (MinionState.lastMessageIds state !! chatId) in
  let messages :=
    fetchChatMessages chatId 50%nat
      (if 0 <? lastSeenId then Some lastSeenId else None) in
  match messages with
  | [] => acc
  | _ :: _ =>
      let newMessages :=
        if 0 <? lastSeenId
        then filter (fun m => lastSeenId < BridgeMessage.id m) messages
        else messages in
      match newMessages with
      | [] => acc
      | first :: rest =>
          foldl (scanMessage chatId)
            {| totalScanned := totalScanned acc + Z.of_nat (length newMessages);
               updatedLastMessageIds :=
                 <[chatId := maxId first rest]> (updatedLastMessageIds acc);
               calls := calls acc |}
            newMessages
      end
  end.

(** [pollKeywordMonitor(config, state, engine)]: the engine calls made,
    in order, and the partial state returned. *)
Definition pollKeywordMonitor : list EngineCall * MinionState.partial :=
  let acc :=
    foldl pollChat
      {| totalScanned := 0;
         updatedLastMessageIds := MinionState.lastMessageIds state;
         calls := [] |}
      (MinionConfig.targetChatIds config) in
  (calls acc,
   MinionState.with_lastMessageIds (updatedLastMessageIds acc)
     (MinionState.with_messagesScanned
        (MinionState.messagesScanned state + totalScanned acc)
        MinionState.nothing)).

(** The alerts among the engine calls. *)
Definition alertsOf (cs : list EngineCall) : list MinionAlert.t :=
  omap (fun c => match c with EmitAlert a => Some a | Log _ _ _ => None end) cs.

(** A message with text in which a keyword or a pattern is found. *)
Definition triggers (message : BridgeMessage.t) : Prop :=
  BridgeMessage.text message <> EmptyString
  /\ (Utils.matchesKeywords toLowerCase (BridgeMessage.text message)
        (KeywordMonitorConfig.keywords typeConfig) <> []
      \/ Utils.matchesRegexPatterns matchAll (BridgeMessage.text message)
           (KeywordMonitorConfig.regexPatterns typeConfig) <> []).

(** The alert [a] is about message [m] of chat [chatId]. *)
Definition about (chatId : string) (m : BridgeMessage.t) (a : MinionAlert.t) : Prop :=
  MinionAlert.chatId a = chatId
  /\ MinionAlert.messageId a = Some (BridgeMessage.id m)
  /\ MinionAlert.alertType a = keyword_match.

(** The messages [pollChat] scans for a chat. *)
Definition newMessagesOf (chatId : string) : list BridgeMessage.t :=
  let lastSeenId := default 0 (MinionState.lastMessageIds state !! chatId) in
  if 0 <? lastSeenId
  then filter (fun m => lastSeenId < BridgeMessage.id m)
         (fetchChatMessages chatId 50%nat (Some lastSeenId))
  else fetchChatMessages chatId 50%nat None.

(** What every alert of the strategy carries besides its subject. *)
Definition stamped (a : MinionAlert.t) : Prop :=
  MinionAlert.minionId a = MinionConfig.id config
  /\ MinionAlert.minionName a = MinionConfig.name config
  /\ MinionAlert.minionType a = keyword_monitor
  /\ MinionAlert.priority a = KeywordMonitorConfig.alertPriority typeConfig
  /\ MinionAlert.timestamp a = now
  /\ MinionAlert.read a = false
  /\ MinionAlert.dismissed a = false.

(** The number of messages a poll scans: the new messages of every
    target, a chat listed twice being fetched and counted twice. *)
Definition scannedIn (targets : list string) : Z :=
  foldr (fun chatId n => Z.of_nat (length (newMessagesOf chatId)) + n) 0 targets.

(** The log lines among the engine calls. *)
Definition logsOf (cs : list EngineCall) : list (string * MinionLogLevel * string) :=
  omap (fun c => match c with
                 | EmitAlert _ => None
                 | Log minionId level message => Some (minionId, level, message)
                 end) cs.

End Poll.

End KeywordMonitor.

(* ===================================================================== *)
(** * services/newMemberAlert.ts                                          *)
(* ===================================================================== *)

Module BridgeMember.
Record t := {
  userId : string;
  firstName : string;
  lastName : string;
  username : string;
  isBot : bool;
  isPremium : bool;
  joinDate : Z;
}.
End BridgeMember.

Module NewMemberAlertPoll.
Import KeywordMonitor.

Record Acc := {
  totalScanned : Z;
  updatedLastKnownMembers : gmap string (list string);
  calls : list EngineCall;
}.

(** A string is truthy when it is not empty. *)
Definition truthy (s : string) : bool :=
  match s with
  | EmptyString => false
  | String _ _ => true
  end.

(** [a || b] on strings. *)
Definition orElse (a b : string) : string := if truthy a then a else b.

Section Poll.

(** The bridge and the helpers of [utils.ts] that read the clock or run
    regular expressions: [fetchChatMembers chatId limit] is what the bridge
    answers during this poll; [estimateAccountAgeDays userId] is the whole
    number of days the helper estimates, or [-1]; [isSuspiciousUsername] is
    the helper of that name; [generateAlertId n] is the id generated for
    the alert built after [n] earlier engine calls; [stringify] is
    [JSON.stringify] of the match record. *)
Variable fetchChatMembers : string -> nat -> list BridgeMember.t.
Variable estimateAccountAgeDays : string -> Z.
Variable isSuspiciousUsername : string -> list string -> bool.
Variable generateAlertId : nat -> string.
Variable stringify : BridgeMember.t -> list string -> bool -> Z -> string.
Variable now : Z.

Variable config : MinionConfig.t.
Variable typeConfig : NewMemberAlertConfig.t.
Variable state : MinionState.t.

(** [[member.firstName, member.lastName].filter(Boolean).join(' ')]. *)
Definition fullName (member : BridgeMember.t) : string :=
  String.concat " "
    (List.filter truthy [BridgeMember.firstName member; BridgeMember.lastName member]).

(** [typeConfig.watchlistUserIds.includes(member.userId)]. *)
Definition onWatchlist (member : BridgeMember.t) : bool :=
  bool_decide (BridgeMember.userId member
                 ∈ NewMemberAlertConfig.watchlistUserIds typeConfig).

(** Lines 55-83: the risk factors of a member, in the order they are
    pushed. *)
Definition riskFactorsOf (member : BridgeMember.t) : list string :=
  let ageDays := estimateAccountAgeDays (BridgeMember.userId member) in
  (if onWatchlist member then ["WATCHLIST HIT"] else [])
  ++ (if (0 <=? ageDays)
         && negb (Qle_bool (NewMemberAlertConfig.newAccountThresholdDays typeConfig)
                    (inject_Z ageDays))
      then ["New account (~" +:+ pretty ageDays +:+ " days old)"] else [])
  ++ (if isSuspiciousUsername (BridgeMember.username member)
           (NewMemberAlertConfig.suspiciousUsernamePatterns typeConfig)
      then ["Suspicious username: @" +:+ BridgeMember.username member] else [])
  ++ (if truthy (BridgeMember.username member) then [] else ["No username set"])
  ++ (if BridgeMember.isBot member then ["Bot account"] else []).

(** Lines 54-134: one member of [newMembers]. *)
Definition scanMember (chatId : string) (acc : Acc) (member : BridgeMember.t) : Acc :=
  let riskFactors := riskFactorsOf member in
  let isWatchlistHit := onWatchlist member in
  let ageDays := estimateAccountAgeDays (BridgeMember.userId member) in
  let shouldAlert := isWatchlistHit || (0 <? length riskFactors)%nat in
  let memberName :=
    orElse (orElse (fullName member) (BridgeMember.username member))
      (BridgeMember.userId member) in
  let alert := {|
    MinionAlert.id := generateAlertId (length (calls acc));
    MinionAlert.minionId := MinionConfig.id config;
    MinionAlert.minionName := MinionConfig.name config;
    MinionAlert.minionType := new_member_alert;
    MinionAlert.alertType := if isWatchlistHit then watchlist_hit else risk_account;
    MinionAlert.priority :=
      if isWatchlistHit then NewMemberAlertConfig.watchlistAlertPriority typeConfig
      else NewMemberAlertConfig.riskAlertPriority typeConfig;
    MinionAlert.title :=
      if isWatchlistHit
      then "WATCHLIST: " +:+ memberName +:+ " joined " +:+ chatId
      else "Risk Account: " +:+ memberName +:+ " joined " +:+ chatId;
    MinionAlert.description :=
      String.concat newline
        (["User: " +:+ memberName;
          if truthy (BridgeMember.username member)
          then "Username: @" +:+ BridgeMember.username member
          else "No username";
          "User ID: " +:+ BridgeMember.userId member;
          "Estimated account age: ~"
            +:+ (if 0 <=? ageDays then pretty ageDays +:+ " days" else "unknown");
          EmptyString;
          "Risk Factors:"]
         ++ ((fun f => "  • " +:+ f) <$> riskFactors));
    MinionAlert.chatId := chatId;
    MinionAlert.chatTitle := chatId;
    MinionAlert.messageId := None;
    MinionAlert.userId := Some (BridgeMember.userId member);
    MinionAlert.userName := Some memberName;
    MinionAlert.timestamp := now;
    MinionAlert.read := false;
    MinionAlert.dismissed := false;
    MinionAlert.matchData := Some (stringify member riskFactors isWatchlistHit ageDays);
    MinionAlert.evidenceId := None;
  |} in
  {| totalScanned := totalScanned acc;
     updatedLastKnownMembers := updatedLastKnownMembers acc;
     calls :=
       calls acc
         ++ (if shouldAlert then [EmitAlert alert] else [])
         ++ [Log (MinionConfig.id config) level_info
               ("New member in " +:+ chatId +:+ ": " +:+ fullName member
                  +:+ " (@" +:+ orElse (BridgeMember.username member) "none"
                  +:+ ") [" +:+ BridgeMember.userId member +:+ "]"
                  +:+ (if (0 <? length riskFactors)%nat
                       then " — " +:+ String.concat ", " riskFactors
                       else EmptyString))] |}.

(** [state.lastKnownMembers[chatId] || []]; the [Set] built from it is
    this list read as a set. *)
Definition previousMemberIds (chatId : string) : list string :=
  default [] (MinionState.lastKnownMembers state !! chatId).

(** Lines 47-49. *)
Definition newMembersOf (chatId : string) : list BridgeMember.t :=
  if (0 <? length (previousMemberIds chatId))%nat
  then filter (fun m => BridgeMember.userId m ∉ previousMemberIds chatId)
         (fetchChatMembers chatId 200%nat)
  else [].

(** Lines 36-139: one target chat. *)
Definition pollChat (acc : Acc) (chatId : string) : Acc :=
  let members := fetchChatMembers chatId 200%nat in
  match members with
  | [] => acc
  | _ :: _ =>
      let currentMemberIds := BridgeMember.userId <$> members in
      let newMembers := newMembersOf chatId in
      let acc :=
        foldl (scanMember chatId)
          {| totalScanned := totalScanned acc + Z.of_nat (length members);
             updatedLastKnownMembers :=
               <[chatId := currentMemberIds]> (updatedLastKnownMembers acc);
             calls := calls acc |}
          newMembers in
      if (0 <? length newMembers)%nat && (0 <? length (previousMemberIds chatId))%nat
      then {| totalScanned := totalScanned acc;
              updatedLastKnownMembers := updatedLastKnownMembers acc;
              calls :=
                calls acc
                  ++ [Log (MinionConfig.id config) level_info
                        ("Detected " +:+ pretty (length newMembers)
                           +:+ " new member(s) in " +:+ chatId)] |}
      else acc
  end.

(** [pollNewMemberAlert(config, state, engine)]: the engine calls made,
    in order, and the partial state returned. *)
Definition pollNewMemberAlert : list EngineCall * MinionState.partial :=
  let acc :=
    foldl pollChat
      {| totalScanned := 0;
         updatedLastKnownMembers := MinionState.lastKnownMembers state;
         calls := [] |}
      (MinionConfig.targetChatIds config) in
  (calls acc,
   MinionState.with_lastKnownMembers (updatedLastKnownMembers acc)
     (MinionState.with_messagesScanned
        (MinionState.messagesScanned state + totalScanned acc)
        MinionState.nothing)).

(** The alert [a] reports that [member] joined [chatId]. *)
Definition reports (chatId : string) (member : BridgeMember.t) (a : MinionAlert.t)
  : Prop :=
  MinionAlert.chatId a = chatId
  /\ MinionAlert.userId a = Some (BridgeMember.userId member)
  /\ MinionAlert.minionId a = MinionConfig.id config
  /\ MinionAlert.alertType a
     = (if onWatchlist member then watchlist_hit else risk_account)
  /\ MinionAlert.priority a
     = (if onWatchlist member
        then NewMemberAlertConfig.watchlistAlertPriority typeConfig
        else NewMemberAlertConfig.riskAlertPriority typeConfig)
  /\ MinionAlert.read a = false.

End Poll.

End NewMemberAlertPoll.

(* ===================================================================== *)
(** * A concrete engine, used to run the code on explicit inputs           *)
(* ===================================================================== *)

Module Scenario.
Import MinionEngine.

Definition T0 : Z := 1700000000000.

Definition watcher : MinionConfig.t := {|
  MinionConfig.id := "minion-1";
  MinionConfig.name := "watcher";
  MinionConfig.type := keyword_monitor;
  MinionConfig.enabled := true;
  MinionConfig.createdAt := T0;
  MinionConfig.updatedAt := T0;
  MinionConfig.targetChatIds := ["chat-1"];
  MinionConfig.pollIntervalMs := 60000;
  MinionConfig.typeConfig :=
    KeywordMonitor {|
      KeywordMonitorConfig.keywords := ["scam"];
      KeywordMonitorConfig.regexPatterns := [];
      KeywordMonitorConfig.autoArchive := true;
      KeywordMonitorConfig.alertPriority := warning;
      KeywordMonitorConfig.contextMessages := 3;
    |};
|}.

(** The engine right after [createMinion] has stored the config and the
    default state of ["minion-1"], every minion type having its poll
    function registered. *)
Definition created : t := {|
  timers := ∅;
  states := {[ "minion-1" := createDefaultState "minion-1" ]};
  configs := {[ "minion-1" := watcher ]};
  minionPollFunctions := fun _ => true;
  db := Storage.saveState (createDefaultState "minion-1")
          (Storage.saveConfig watcher Storage.empty);
  rateLimiter := RateLimiter.new RateLimiter.GLOBAL_CONFIG;
  alertService := AlertService.new;
  notified := 0;
|}.

Definition started : t := (startMinion "minion-1" T0 "log-start" 0 created).1.

(** The state of ["minion-1"] once started. *)
Definition running_state : MinionState.t :=
  default (createDefaultState "minion-1") (states started !! "minion-1").

(** The [Math.random()] draw [0.123456789], as the double it is. *)
Definition draw : Q := Float64.round (123456789 # 1000000000).

(** The started engine re-armed by [schedulePoll] 61 s after [T0] with
    that draw. *)
Definition rearmed : t := schedulePoll "minion-1" (T0 + 61000) draw started.

(** The draw [0.4096000732421874], a double, and the engine re-armed with
    it. *)
Definition draw' : Q := 1844674737224443 # 4503599627370496.
Definition rearmed' : t := schedulePoll "minion-1" (T0 + 61000) draw' started.

Definition networkError : Thrown :=
  {| errorMsg := "network down"; seconds := None |}.

(** A provider rate-limit error: an object with [seconds = 30]. *)
Definition floodWaitError : Thrown :=
  {| errorMsg := "A wait of 30 seconds is required"; seconds := Some 30%Q |}.

Definition logIds (n : nat) : LogIds := {|
  failedLogId := "log-failed-" +:+ pretty n;
  tooManyLogId := "log-toomany-" +:+ pretty n;
  pausedLogId := "log-paused-" +:+ pretty n;
|}.

(** An unread alert of ["minion-1"]. *)
Definition alert (id : string) : MinionAlert.t := {|
  MinionAlert.id := id;
  MinionAlert.minionId := "minion-1";
  MinionAlert.minionName := "watcher";
  MinionAlert.minionType := keyword_monitor;
  MinionAlert.alertType := keyword_match;
  MinionAlert.priority := warning;
  MinionAlert.title := "Keyword Match in chat-1";
  MinionAlert.description := "Matched";
  MinionAlert.chatId := "chat-1";
  MinionAlert.chatTitle := "chat-1";
  MinionAlert.messageId := Some 10;
  MinionAlert.userId := None;
  MinionAlert.userName := None;
  MinionAlert.timestamp := 1700000000000;
  MinionAlert.read := false;
  MinionAlert.dismissed := false;
  MinionAlert.matchData := None;
  MinionAlert.evidenceId := None;
|}.

(** The debug line the [n]-th poll writes. *)
Definition pollingLog (n : nat) : MinionLogEntry.t := {|
  MinionLogEntry.id := "log-polling-" +:+ pretty n;
  MinionLogEntry.minionId := "minion-1";
  MinionLogEntry.level := level_debug;
  MinionLogEntry.message := "Polling 1 target(s)...";
  MinionLogEntry.timestamp := T0 + 61000 * Z.of_nat n;
  MinionLogEntry.data := None;
|}.

(** The started engine with one alert of ["minion-1"] stored and the debug
    lines of polls [1 .. n] in the log store (which already holds the line
    written by [startMinion]). *)
Definition busy (n : nat) : t :=
  set_db
    (foldr Storage.saveLog (Storage.saveAlert (alert "alert-a") (db started))
       (pollingLog <$> seq 1 n))
    started.

(** The [n]-th poll of ["minion-1"], fired 61 s after the previous one. *)
Definition poll (outcome : PollOutcome) (n : nat) (e : t) : t :=
  executePoll "minion-1" outcome (T0 + 61000 * Z.of_nat n)
    ("log-polling-" +:+ pretty n) (logIds n) (1 # 2) e.

(** Polls number [1 .. length outcomes] in a row, from [e]. *)
Definition polls (outcomes : list PollOutcome) (e : t) : t :=
  foldl (fun e '(n, outcome) => poll outcome (S n) e) e (imap pair outcomes).

(** *** The rate limiter *)

(** One call completes and is released; 100 ms and 200 ms later two more
    calls arrive.  Both find [activeCount = 0], both pass the concurrency
    check and both sleep for the spacing delay; when their timers fire,
    each increments [activeCount]. *)
Definition overshoot_trace : list RateLimiter.Event :=
  [RateLimiter.EvAcquire 0; RateLimiter.EvReportSuccess; RateLimiter.EvRelease;
   RateLimiter.EvTick (T0 + 100); RateLimiter.EvAcquire 0;
   RateLimiter.EvTick (T0 + 200); RateLimiter.EvAcquire 0;
   RateLimiter.EvTick (T0 + 5000); RateLimiter.EvResume 1 0;
   RateLimiter.EvResume 2 0].

(** One call holds the limiter and a second one waits in the queue.  The
    first is released, which resolves the waiter's promise; before the
    waiter's continuation runs, a third call arrives and finds
    [activeCount = 0].  The third call and the woken waiter both sleep for
    the spacing delay, and each increments [activeCount] afterwards. *)
Definition waiter_trace : list RateLimiter.Event :=
  [RateLimiter.EvAcquire 0;
   RateLimiter.EvTick (T0 + 50); RateLimiter.EvAcquire 0;
   RateLimiter.EvTick (T0 + 100); RateLimiter.EvReportSuccess;
   RateLimiter.EvRelease; RateLimiter.EvAcquire 0; RateLimiter.EvResume 1 0;
   RateLimiter.EvTick (T0 + 5000); RateLimiter.EvResume 1 0;
   RateLimiter.EvResume 2 0].

(** The trace runs on a fresh limiter, every [release()] follows a returned
    [acquire()], and it ends with [activeCount = 2] under [maxConcurrent =
    1]. *)
Definition overshoots (trace : list RateLimiter.Event)
    (cfg : RateLimiter.RateLimiterConfig) : Prop :=
  RateLimiter.disciplined 0 trace (RateLimiter.boot cfg T0) = true
  /\ exists s, RateLimiter.run trace (RateLimiter.boot cfg T0) = Some s
       /\ RateLimiter.maxConcurrent (RateLimiter.config (RateLimiter.lim s)) = 1
       /\ RateLimiter.activeCount (RateLimiter.lim s) = 2
       /\ RateLimiter.status_activeCount
            (RateLimiter.getStatus (RateLimiter.clock s) (RateLimiter.lim s)) = 2.

(** *** The keyword monitor *)

Definition message (id : Z) (text : string) : BridgeMessage.t := {|
  BridgeMessage.id := id;
  BridgeMessage.chatId := "chat-1";
  BridgeMessage.senderId := Some "user-7";
  BridgeMessage.date := 1700000000;
  BridgeMessage.text := text;
  BridgeMessage.mediaType := None;
  BridgeMessage.hasMedia := false;
  BridgeMessage.isForwarded := false;
  BridgeMessage.forwardFromId := None;
  BridgeMessage.views := None;
  BridgeMessage.editDate := None;
|}.

(** The chat holds two messages before the minion exists. *)
Definition history (chatId : string) (limit : nat) (offsetId : option Z)
  : list BridgeMessage.t :=
  if decide (chatId = "chat-1")
  then [message 10 "Big SCAM here"; message 11 "hello"]
  else [].

Definition watcherKeywords : KeywordMonitorConfig.t :=
  match MinionConfig.typeConfig watcher with
  | KeywordMonitor c => c
  | _ => {| KeywordMonitorConfig.keywords := [];
            KeywordMonitorConfig.regexPatterns := [];
            KeywordMonitorConfig.autoArchive := true;
            KeywordMonitorConfig.alertPriority := warning;
            KeywordMonitorConfig.contextMessages := 3 |}
  end.

(** The texts and keywords of the scenarios are ASCII.  On ASCII strings
    [String.prototype.toLowerCase] maps [A]-[Z] to [a]-[z] and keeps every
    other character, and the [length] and [substring] that [truncate] calls
    count characters as [String.length] and [String.substring] do. *)
Definition lowerAscii (c : ascii) : ascii :=
  let n := nat_of_ascii c in
  if ((65 <=? n) && (n <=? 90))%nat then ascii_of_nat (n + 32) else c.

Fixpoint toLowerCaseAscii (s : string) : string :=
  match s with
  | EmptyString => EmptyString
  | String c rest => String (lowerAscii c) (toLowerCaseAscii rest)
  end.

Definition truncateAscii (str : string) (maxLen : nat) : string :=
  if (String.length str <=? maxLen)%nat then str
  else String.substring 0 maxLen str +:+ "...".

Definition firstPoll : list KeywordMonitor.EngineCall * MinionState.partial :=
  KeywordMonitor.pollKeywordMonitor history toLowerCaseAscii (fun _ _ => None)
    truncateAscii
    (fun n => "alert-" +:+ pretty n) (fun _ _ _ => "{}") T0
    watcher watcherKeywords (createDefaultState "minion-1").

(** *** The engine's lifecycle *)

(** [created] in a process where no strategy module was loaded: no minion
    type has a poll function. *)
Definition unregistered : t := {|
  timers := timers created;
  states := states created;
  configs := configs created;
  minionPollFunctions := fun _ => false;
  db := db created;
  rateLimiter := rateLimiter created;
  alertService := alertService created;
  notified := notified created;
|}.

(** The engine object holding [started], initialized at [T0]. *)
Definition host : Host := {|
  engine := started;
  initialized := true;
  engineStartTime := T0;
  pruningIntervals := 1;
|}.

(** What the [startMinion] calls of [initialize] read, 5 ms after [T0]. *)
Definition startInputs (id : string) : StartInputs := {|
  startNow := T0 + 5;
  startLogId := "log-start-" +:+ id;
  startRnd := 1 # 2;
|}.

(** *** The log store *)

(** A line logged at [timestamp] by another minion. *)
Definition otherLog (id : string) (timestamp : Z) : MinionLogEntry.t := {|
  MinionLogEntry.id := id;
  MinionLogEntry.minionId := "minion-2";
  MinionLogEntry.level := level_info;
  MinionLogEntry.message := "Minion started";
  MinionLogEntry.timestamp := timestamp;
  MinionLogEntry.data := None;
|}.

(** A database with one alert and two log lines of ["minion-1"] and one
    log line of ["minion-2"]. *)
Definition archive : Storage.DB :=
  Storage.saveLog (otherLog "log-other" (T0 + 1000))
    (Storage.saveLog (pollingLog 2)
       (Storage.saveLog (pollingLog 1)
          (Storage.saveAlert (alert "alert-a") Storage.empty))).

(** *** The new-member monitor *)

Definition greeterConfig : NewMemberAlertConfig.t := {|
  NewMemberAlertConfig.watchlistUserIds := ["777"];
  NewMemberAlertConfig.newAccountThresholdDays := 30;
  NewMemberAlertConfig.suspiciousUsernamePatterns := [];
  NewMemberAlertConfig.autoProfile := true;
  NewMemberAlertConfig.watchlistAlertPriority := critical;
  NewMemberAlertConfig.riskAlertPriority := warning;
|}.

Definition greeter : MinionConfig.t := {|
  MinionConfig.id := "minion-2";
  MinionConfig.name := "greeter";
  MinionConfig.type := new_member_alert;
  MinionConfig.enabled := true;
  MinionConfig.createdAt := T0;
  MinionConfig.updatedAt := T0;
  MinionConfig.targetChatIds := ["group-1"];
  MinionConfig.pollIntervalMs := 60000;
  MinionConfig.typeConfig := NewMemberAlert greeterConfig;
|}.

Definition member (userId username : string) : BridgeMember.t := {|
  BridgeMember.userId := userId;
  BridgeMember.firstName := "Ann";
  BridgeMember.lastName := EmptyString;
  BridgeMember.username := username;
  BridgeMember.isBot := false;
  BridgeMember.isPremium := false;
  BridgeMember.joinDate := 0;
|}.

(** The group holds a watchlisted user and one without a username before
    the minion exists. *)
Definition roster (chatId : string) (limit : nat) : list BridgeMember.t :=
  if decide (chatId = "group-1")
  then [member "777" "ann"; member "12" EmptyString]
  else [].

Definition firstRoll : list KeywordMonitor.EngineCall * MinionState.partial :=
  NewMemberAlertPoll.pollNewMemberAlert roster (fun _ => 4000) (fun _ _ => false)
    (fun n => "alert-" +:+ pretty n) (fun _ _ _ _ => "{}") T0
    greeter greeterConfig (createDefaultState "minion-2").

End Scenario.

(* ===================================================================== *)
(** * Properties of the rounding                                          *)
(* ===================================================================== *)

Module Float64Facts.
Import Float64.

Lemma pow2_pos e : (0 < pow2 e)%Q.
Proof. apply Qpower_0_lt. reflexivity. Qed.

Lemma pow2_le a b : a <= b -> (pow2 a <= pow2 b)%Q.
Proof. intros H. apply Qpower_le_compat_l; [exact H|discriminate]. Qed.

Lemma pow2_lt_inv a b : (pow2 a < pow2 b)%Q -> a < b.
Proof. intros H. eapply Qpower_lt_compat_l_inv; [exact H|reflexivity]. Qed.

Lemma pow2_add a b : (pow2 (a + b) == pow2 a * pow2 b)%Q.
Proof. apply Qpower_plus. discriminate. Qed.

Lemma pow2_Z k : 0 <= k -> (pow2 k == inject_Z (2 ^ k))%Q.
Proof. intros H. unfold pow2. by rewrite Zpower_Qpower. Qed.

Lemma log2_Q n : 0 < n ->
  (pow2 (Z.log2 n) <= inject_Z n)%Q /\ (inject_Z n < pow2 (Z.log2 n + 1))%Q.
Proof.
  intros Hn. destruct (Z.log2_spec n Hn) as [Hlo Hhi].
  pose proof (Z.log2_nonneg n) as H0.
  rewrite !pow2_Z by lia. split.
  - rewrite <- Zle_Qle. exact Hlo.
  - rewrite <- Zlt_Qlt. exact Hhi.
Qed.

Lemma Qmake_mult n d : ((n # d) * inject_Z (Zpos d) == inject_Z n)%Q.
Proof. unfold Qeq, Qmult, inject_Z. simpl. lia. Qed.

Lemma binade_spec q : (0 < q)%Q ->
  (pow2 (binade q) <= q)%Q /\ (q < pow2 (binade q + 1))%Q.
Proof.
  intros Hq. destruct q as [n d].
  assert (Hn : 0 < n) by (unfold Qlt in Hq; simpl in Hq; lia).
  destruct (log2_Q n Hn) as [Hn1 Hn2].
  destruct (log2_Q (Zpos d) eq_refl) as [Hd1 Hd2].
  pose proof (Qmake_mult n d) as Hnd.
  unfold binade. cbn [Qnum Qden].
  set (ln := Z.log2 n) in *. set (ld := Z.log2 (Z.pos d)) in *.
  pose proof (pow2_pos ld) as Hpd.
  assert (E1 : (pow2 (ln + 1) == pow2 (ln - ld + 1) * pow2 ld)%Q).
  { rewrite <- pow2_add. by replace (ln - ld + 1 + ld) with (ln + 1) by lia. }
  assert (E2 : (pow2 ln == pow2 (ln - ld - 1) * pow2 (ld + 1))%Q).
  { rewrite <- pow2_add. by replace (ln - ld - 1 + (ld + 1)) with ln by lia. }
  pose proof (pow2_pos (ln - ld + 1)) as Hp1.
  pose proof (pow2_pos (ln - ld - 1)) as Hp2.
  destruct (Qle_bool (pow2 (ln - ld)) (n # d)) eqn:Ht.
  - apply Qle_bool_iff in Ht. split; [exact Ht|].
    apply Qnot_le_lt. intros Hc.
    set (N := inject_Z n) in *. set (D := inject_Z (Z.pos d)) in *.
    set (P := pow2 (ln - ld + 1)) in *. set (q := (n # d)%Q) in *.
    set (A := pow2 ld) in *. set (B := pow2 (ln + 1)) in *.
    nra.
  - assert (Hlt : ((n # d) < pow2 (ln - ld))%Q).
    { apply Qnot_le_lt. intros Hc. apply Qle_bool_iff in Hc. congruence. }
    replace (ln - ld - 1 + 1) with (ln - ld) by lia. split; [|exact Hlt].
    apply Qnot_lt_le. intros Hc.
    set (N := inject_Z n) in *. set (D := inject_Z (Z.pos d)) in *.
    set (P := pow2 (ln - ld - 1)) in *. set (q := (n # d)%Q) in *.
    set (A := pow2 (ld + 1)) in *. set (B := pow2 ln) in *.
    nra.
Qed.

Lemma binade_mono a b : (0 < a)%Q -> (a <= b)%Q -> binade a <= binade b.
Proof.
  intros Ha Hab.
  destruct (binade_spec a Ha) as [Ha1 _].
  destruct (binade_spec b) as [_ Hb2]; [lra|].
  assert (binade a < binade b + 1); [|lia].
  apply pow2_lt_inv. lra.
Qed.

Lemma nearest_bounds x : Qfloor x <= nearest x <= Qfloor x + 1.
Proof.
  unfold nearest. destruct (_ ?= _)%Q; [destruct (Z.even _)| |]; lia.
Qed.

Lemma nearest_Z k : nearest (inject_Z k) = k.
Proof.
  unfold nearest. rewrite Qfloor_Z.
  destruct (Qcompare_spec (inject_Z k - inject_Z k) (1 # 2)) as [H|H|H];
    [lra|reflexivity|lra].
Qed.

Lemma nearest_comp x y : (x == y)%Q -> nearest x = nearest y.
Proof.
  intros E. unfold nearest. rewrite (Qfloor_comp x y E).
  assert (E' : (x - inject_Z (Qfloor y) == y - inject_Z (Qfloor y))%Q)
    by (rewrite E; reflexivity).
  by rewrite (Qcompare_comp _ _ E' (1 # 2) (1 # 2) (Qeq_refl _)).
Qed.

Lemma nearest_mono x y : (x <= y)%Q -> nearest x <= nearest y.
Proof.
  intros Hxy. pose proof (Qfloor_resp_le x y Hxy) as Hf.
  pose proof (nearest_bounds x) as Hx. pose proof (nearest_bounds y) as Hy.
  destruct (decide (Qfloor x = Qfloor y)) as [E|]; [|lia].
  unfold nearest. rewrite <- E.
  destruct (Qcompare_spec (x - inject_Z (Qfloor x)) (1 # 2)) as [H1|H1|H1];
    destruct (Qcompare_spec (y - inject_Z (Qfloor x)) (1 # 2)) as [H2|H2|H2];
    try destruct (Z.even _); try lia; exfalso; lra.
Qed.

Lemma round_pos_nonneg q : (0 < q)%Q -> (0 <= round_pos q)%Q.
Proof.
  intros Hq. unfold round_pos, ulp.
  set (u := pow2 _). assert (Hu : (0 < u)%Q) by apply pow2_pos.
  assert (0 <= nearest (q / u)).
  { pose proof (nearest_bounds (q / u)).
    assert (0 <= Qfloor (q / u)); [|lia].
    rewrite <- (Qfloor_Z 0). apply Qfloor_resp_le.
    apply Qle_shift_div_l; [exact Hu|]. change (inject_Z 0) with 0%Q. lra. }
  apply Qmult_le_0_compat; [|lra].
  change 0%Q with (inject_Z 0). by rewrite <- Zle_Qle.
Qed.

Lemma round_pos_mono a b : (0 < a)%Q -> (a <= b)%Q -> (round_pos a <= round_pos b)%Q.
Proof.
  intros Ha Hab. assert (Hb : (0 < b)%Q) by lra.
  pose proof (binade_mono a b Ha Hab) as Hbin.
  destruct (binade_spec a Ha) as [_ Ha2]. destruct (binade_spec b Hb) as [Hb1 _].
  unfold round_pos, ulp.
  set (ea := Z.max (binade a) (-1022)). set (eb := Z.max (binade b) (-1022)).
  assert (Hua : (0 < pow2 (ea - 52))%Q) by apply pow2_pos.
  assert (Hub : (0 < pow2 (eb - 52))%Q) by apply pow2_pos.
  destruct (decide (ea = eb)) as [E|Hne].
  - rewrite E in *. apply Qmult_le_compat_r; [|lra].
    rewrite <- Zle_Qle. apply nearest_mono.
    apply Qmult_le_compat_r; [exact Hab|]. apply Qlt_le_weak, Qinv_lt_0_compat, Hub.
  - assert (Hlt : ea < eb) by lia. assert (Eb : eb = binade b) by lia.
    apply Qle_trans with (pow2 (ea + 1)).
    + assert (E53 : (pow2 (ea + 1) == inject_Z (2 ^ 53) * pow2 (ea - 52))%Q).
      { rewrite <- pow2_Z by lia. rewrite <- pow2_add.
        by replace (53 + (ea - 52)) with (ea + 1) by lia. }
      rewrite E53. apply Qmult_le_compat_r; [|lra].
      rewrite <- Zle_Qle. rewrite <- (nearest_Z (2 ^ 53)). apply nearest_mono.
      apply Qle_shift_div_r; [exact Hua|]. rewrite <- E53.
      apply Qlt_le_weak. eapply Qlt_le_trans; [exact Ha2|]. apply pow2_le. lia.
    + apply Qle_trans with (pow2 eb); [apply pow2_le; lia|].
      assert (E52 : (pow2 eb == inject_Z (2 ^ 52) * pow2 (eb - 52))%Q).
      { rewrite <- pow2_Z by lia. rewrite <- pow2_add.
        by replace (52 + (eb - 52)) with eb by lia. }
      rewrite E52 at 1. apply Qmult_le_compat_r; [|lra].
      rewrite <- Zle_Qle. rewrite <- (nearest_Z (2 ^ 52)) at 1. apply nearest_mono.
      apply Qle_shift_div_l; [exact Hub|]. rewrite <- E52. by rewrite Eb.
Qed.

Lemma round_pos_comp a b : (a == b)%Q -> (0 < a)%Q -> (round_pos a == round_pos b)%Q.
Proof.
  intros E Ha. apply Qle_antisym; apply round_pos_mono; lra.
Qed.

Lemma round_mono a b : (a <= b)%Q -> (round a <= round b)%Q.
Proof.
  intros Hab. unfold round. rewrite !Qred_correct.
  destruct (Qcompare_spec a 0) as [Ea|Ha|Ha]; destruct (Qcompare_spec b 0) as [Eb|Hb|Hb];
    try lra.
  - apply round_pos_nonneg, Hb.
  - pose proof (round_pos_nonneg (- a)). lra.
  - assert (H : (round_pos (- b) <= round_pos (- a))%Q)
      by (apply round_pos_mono; lra).
    lra.
  - pose proof (round_pos_nonneg (- a)). pose proof (round_pos_nonneg b). lra.
  - by apply round_pos_mono.
Qed.

Lemma round_nonneg q : (0 <= q)%Q -> (0 <= round q)%Q.
Proof. intros H. change 0%Q with (round 0) at 1. by apply round_mono. Qed.

Lemma round_comp a b : (a == b)%Q -> (round a == round b)%Q.
Proof. intros E. apply Qle_antisym; apply round_mono; lra. Qed.

Lemma nearest_err x :
  (- (1 # 2) <= inject_Z (nearest x) - x <= 1 # 2)%Q.
Proof.
  pose proof (Qfloor_le x) as Hlo. pose proof (Qlt_floor x) as Hhi.
  rewrite inject_Z_plus in Hhi. change (inject_Z 1) with 1%Q in Hhi.
  unfold nearest.
  destruct (Qcompare_spec (x - inject_Z (Qfloor x)) (1 # 2)) as [H|H|H];
    [destruct (Z.even _)| |];
    rewrite ?inject_Z_plus; change (inject_Z 1) with 1%Q; lra.
Qed.

Lemma round_pos_err q : (0 < q)%Q ->
  (- (ulp q * (1 # 2)) <= round_pos q - q <= ulp q * (1 # 2))%Q.
Proof.
  intros Hq. unfold round_pos.
  assert (Hu : (0 < ulp q)%Q) by apply pow2_pos.
  set (u := ulp q) in *.
  pose proof (nearest_err (q / u)) as He.
  assert (E : (q == q / u * u)%Q) by (field; lra).
  set (m := inject_Z (nearest (q / u))) in *. set (x := (q / u)%Q) in *.
  nra.
Qed.

Lemma ulp_le q k : (0 < q)%Q -> (q < pow2 k)%Q -> -1021 <= k ->
  (ulp q <= pow2 (k - 53))%Q.
Proof.
  intros Hq Hk Hmin. destruct (binade_spec q Hq) as [Hb _].
  assert (binade q < k) by (apply pow2_lt_inv; lra).
  unfold ulp. apply pow2_le. lia.
Qed.

Lemma round_err q k : (0 <= q)%Q -> (q < pow2 k)%Q -> -1021 <= k ->
  (- pow2 (k - 54) <= round q - q <= pow2 (k - 54))%Q.
Proof.
  intros Hq Hk Hmin. pose proof (pow2_pos (k - 54)) as Hp.
  assert (E : (pow2 (k - 53) == 2 * pow2 (k - 54))%Q).
  { replace (k - 53) with (1 + (k - 54)) by lia. by rewrite pow2_add. }
  unfold round. rewrite Qred_correct.
  destruct (Qcompare_spec q 0) as [E0|H0|H0]; [lra|lra|].
  pose proof (round_pos_err q H0) as He.
  pose proof (ulp_le q k H0 Hk Hmin) as Hu.
  lra.
Qed.

(** A double below [1] is at most [1 - 2^-53]. *)
Lemma representable_below_one q :
  representable q -> (0 <= q)%Q -> (q < 1)%Q -> (q <= 1 - pow2 (-53))%Q.
Proof.
  unfold representable. intros Hr H0 H1.
  assert (E53 : (pow2 (-53) == 1 # 9007199254740992)%Q) by reflexivity.
  assert (E1 : (pow2 (-1) == 1 # 2)%Q) by reflexivity.
  assert (E0 : (pow2 0 == 1)%Q) by reflexivity.
  destruct (Qle_lt_or_eq _ _ H0) as [Hpos|Hz]; [|lra].
  destruct (binade_spec q Hpos) as [Hb1 Hb2].
  assert (Hneg : binade q < 0) by (apply pow2_lt_inv; lra).
  destruct (decide (binade q = -1)) as [Eb|Hne].
  - revert Hr. unfold round. rewrite Qred_correct.
    destruct (Qcompare_spec q 0) as [?|?|_]; [lra|lra|].
    unfold round_pos, ulp. rewrite Eb.
    change (pow2 (Z.max (-1) (-1022) - 52)) with (pow2 (-53)).
    set (m := nearest (q / pow2 (-53))). intros Hr.
    rewrite E53 in Hr.
    assert (Hm : m < 9007199254740992).
    { rewrite Zlt_Qlt.
      change (inject_Z 9007199254740992) with 9007199254740992%Q. lra. }
    assert (Hm' : (inject_Z m <= inject_Z 9007199254740991)%Q).
    { rewrite <- Zle_Qle. lia. }
    change (inject_Z 9007199254740991) with 9007199254740991%Q in Hm'. lra.
  - assert (Hle : (pow2 (binade q + 1) <= pow2 (-1))%Q) by (apply pow2_le; lia).
    lra.
Qed.

End Float64Facts.

(* ===================================================================== *)
(** * Properties of the rate limiter                                      *)
(* ===================================================================== *)

Module RateLimiterFacts.
Import RateLimiter.

Lemma Qgtb_true a b : Qgtb a b = true <-> (b < a)%Q.
Proof.
  unfold Qgtb. rewrite negb_true_iff, <- not_true_iff_false, Qle_bool_iff.
  split; [apply Qnot_le_lt | apply Qlt_not_le].
Qed.

Lemma timer_due_spec since ms now :
  timer_due since ms now = true <-> (inject_Z since + ms <= inject_Z now)%Q.
Proof. unfold timer_due. apply Qle_bool_iff. Qed.

(** ** [activeCount] stays non-negative *)

Lemma release_nonneg l : nonneg (release l).1.
Proof.
  unfold release, nonneg. simpl.
  destruct (queue l); simpl; lia.
Qed.

Lemma acquire_finish_nonneg now l : nonneg l -> nonneg (acquire_finish now l).1.
Proof. unfold nonneg. simpl. lia. Qed.

Lemma acquire_spacing_nonneg now rnd l :
  nonneg l -> nonneg (acquire_spacing now rnd l).1.
Proof.
  intros H. unfold acquire_spacing.
  destruct (Qltb _ _); [exact H | by apply acquire_finish_nonneg].
Qed.

Lemma acquire_concurrency_nonneg me now rnd l :
  nonneg l -> nonneg (acquire_concurrency me now rnd l).1.
Proof.
  intros H. unfold acquire_concurrency.
  destruct (_ >=? _); [exact H | by apply acquire_spacing_nonneg].
Qed.

Lemma acquire_nonneg me now rnd l : nonneg l -> nonneg (acquire me now rnd l).1.
Proof.
  intros H. unfold acquire.
  destruct (Qgtb _ _); [exact H | by apply acquire_concurrency_nonneg].
Qed.

Lemma acquire_resume_nonneg me now rnd pc l l' pc' :
  acquire_resume me now rnd pc l = Some (l', pc') -> nonneg l -> nonneg l'.
Proof.
  intros Hr H. destruct pc; simpl in Hr; try discriminate.
  - destruct (timer_due _ _ _); [|discriminate].
    pose proof (acquire_concurrency_nonneg me now rnd l H) as Hn.
    inversion Hr as [Heq]. by rewrite Heq in Hn.
  - pose proof (acquire_spacing_nonneg now rnd l H) as Hn.
    inversion Hr as [Heq]. by rewrite Heq in Hn.
  - destruct (timer_due _ _ _); [|discriminate].
    inversion Hr as [Heq]. by apply (acquire_finish_nonneg now l).
Qed.

Lemma step_nonneg ev s s' :
  step ev s = Some s' -> nonneg (lim s) -> nonneg (lim s').
Proof.
  intros Hs H. destruct ev; simpl in Hs.
  - destruct (_ <=? _); [|discriminate]. by injection Hs as <-.
  - pose proof (acquire_nonneg (length (calls s)) (clock s) rnd (lim s) H) as Hn.
    destruct (acquire _ _ _ _) as [l pc]. by injection Hs as <-.
  - destruct (calls s !! who) as [pc|]; [|discriminate]. simpl in Hs.
    destruct (acquire_resume _ _ _ _ _) as [[l pc']|] eqn:Hr; [|discriminate].
    simpl in Hs. injection Hs as <-. simpl.
    eapply acquire_resume_nonneg; eauto.
  - pose proof (release_nonneg (lim s)) as Hn.
    destruct (release (lim s)) as [l woken]. by injection Hs as <-.
  - injection Hs as <-. exact H.
  - injection Hs as <-. exact H.
  - injection Hs as <-. exact H.
  - injection Hs as <-. unfold nonneg. simpl. lia.
Qed.

Lemma run_nonneg evs : forall s s',
  run evs s = Some s' -> nonneg (lim s) -> nonneg (lim s').
Proof.
  induction evs as [|ev evs IH]; intros s s' Hr H; simpl in Hr.
  - by injection Hr as <-.
  - destruct (step ev s) as [s1|] eqn:Hs; [|discriminate]. simpl in Hr.
    eapply IH; [exact Hr|]. eapply step_nonneg; eauto.
Qed.

(** C10. Whatever calls are made on a limiter, and however they
    interleave (in particular with more [release()] than [acquire()]), the
    [activeCount] that [getStatus()] reports is never negative. *)
Theorem getStatus_activeCount_nonneg cfg now0 evs s :
  run evs (boot cfg now0) = Some s ->
  0 <= status_activeCount (getStatus (clock s) (lim s)).
Proof.
  intros Hr. simpl.
  apply (run_nonneg evs (boot cfg now0) s Hr).
  unfold nonneg. simpl. lia.
Qed.

Lemma getStatus_activeCount_nonneg_witness :
  exists s,
    run [EvRelease; EvRelease; EvAcquire 0; EvRelease; EvRelease; EvRelease]
        (boot DEFAULT_CONFIG 1700000000000) = Some s
    /\ 0 <= status_activeCount (getStatus (clock s) (lim s)).
Proof.
  eexists. split.
  - vm_compute. reflexivity.
  - eapply (getStatus_activeCount_nonneg DEFAULT_CONFIG 1700000000000
              [EvRelease; EvRelease; EvAcquire 0; EvRelease; EvRelease; EvRelease]).
    vm_compute. reflexivity.
Defined.

(** ** The concurrency cap *)

(** C3. On a limiter with [maxConcurrent = 1] (the default configuration
    and the global one), two traces in which every [release()] follows a
    completed [acquire()] reach [activeCount = 2]: in the first, two calls
    arrive while the limiter is idle; in the second, a call arrives between
    the [release()] that wakes a queued waiter and the waiter's resumption.
    The cap is exceeded in both. *)
Theorem acquire_overshoots_maxConcurrent :
  Scenario.overshoots Scenario.overshoot_trace DEFAULT_CONFIG
  /\ Scenario.overshoots Scenario.overshoot_trace GLOBAL_CONFIG
  /\ Scenario.overshoots Scenario.waiter_trace DEFAULT_CONFIG
  /\ Scenario.overshoots Scenario.waiter_trace GLOBAL_CONFIG.
Proof.
  repeat apply conj;
    (vm_compute; reflexivity)
    || (eexists; split; [vm_compute; reflexivity | repeat apply conj; reflexivity]).
Qed.

(** ** Flood wait *)

Lemma reportFloodWait_deadline now secs l :
  floodWaitUntil (reportFloodWait now secs l) = (inject_Z now + floodWaitMs secs)%Q.
Proof. reflexivity. Qed.

Lemma reportFloodWait_backoff now secs l :
  currentBackoff (reportFloodWait now secs l)
  = Qmin (currentBackoff l * backoffMultiplier (config l) + floodWaitMs secs)
         (maxBackoffMs (config l)).
Proof. reflexivity. Qed.

(** C6 as stated fails at the cap: a report of 300 s on a fresh default
    limiter brings [currentBackoff] to [maxBackoffMs]; a further report of
    30 s leaves it there. *)
Lemma reportFloodWait_backoff_not_strict :
  let l := reportFloodWait Scenario.T0 300 (new DEFAULT_CONFIG) in
  let l' := reportFloodWait (Scenario.T0 + 1000) 30 l in
  ~ (currentBackoff l < currentBackoff l')%Q.
Proof. vm_compute. intros H. discriminate H. Qed.

(** C6, amended. After [reportFloodWait(waitSeconds)] at time [now]:
    an [acquire()] called before the deadline [now + (waitSeconds + 5) *
    1000] is suspended, leaves the limiter as it is, and its timer is not
    due before that deadline; called at [now] itself it sleeps for [(waitSeconds
    + 5) * 1000] ms.  [currentBackoff] becomes [min(currentBackoff *
    backoffMultiplier + (waitSeconds + 5) * 1000, maxBackoffMs)], which is
    never above [maxBackoffMs], strictly above the former value when that
    value was below [maxBackoffMs], and equal to [maxBackoffMs] when the
    former value had reached it. *)
Theorem reportFloodWait_blocks_next_acquire l now secs me now' rnd :
  (-5 < secs)%Q ->
  (inject_Z now' < inject_Z now + floodWaitMs secs)%Q ->
  (0 <= currentBackoff l)%Q ->
  (1 <= backoffMultiplier (config l))%Q ->
  let l' := reportFloodWait now secs l in
  (exists ms,
      acquire me now' rnd l' = (l', FloodSleep now' ms)
      /\ (inject_Z now' + ms == inject_Z now + floodWaitMs secs)%Q
      /\ (now' = now -> ms == (secs + 5) * 1000)%Q
      /\ forall t, timer_due now' ms t = true ->
                   (inject_Z now + (secs + 5) * 1000 <= inject_Z t)%Q)
  /\ currentBackoff l'
     = Qmin (currentBackoff l * backoffMultiplier (config l) + (secs + 5) * 1000)
            (maxBackoffMs (config l))
  /\ (currentBackoff l' <= maxBackoffMs (config l))%Q
  /\ ((currentBackoff l < maxBackoffMs (config l))%Q ->
      (currentBackoff l < currentBackoff l')%Q)
  /\ ((maxBackoffMs (config l) <= currentBackoff l)%Q ->
      (currentBackoff l' == maxBackoffMs (config l))%Q).
Proof.
  intros Hsecs Hnow Hcb Hmult l'.
  assert (Hw : (0 < floodWaitMs secs)%Q) by (unfold floodWaitMs; lra).
  split; [|split; [reflexivity|split; [|split]]].
  - exists (floodWaitUntil l' - inject_Z now')%Q.
    assert (Hgt : Qgtb (floodWaitUntil l') (inject_Z now') = true).
    { apply Qgtb_true. subst l'. rewrite reportFloodWait_deadline. exact Hnow. }
    split; [|split; [|split]].
    + unfold acquire. rewrite Hgt. reflexivity.
    + subst l'. rewrite reportFloodWait_deadline. ring.
    + intros ->. subst l'. rewrite reportFloodWait_deadline.
      unfold floodWaitMs. ring.
    + intros t Ht. apply timer_due_spec in Ht.
      subst l'. rewrite reportFloodWait_deadline in Ht.
      unfold floodWaitMs in Ht. lra.
  - subst l'. rewrite reportFloodWait_backoff. apply Q.le_min_r.
  - intros Hlt. subst l'. rewrite reportFloodWait_backoff.
    apply Q.min_glb_lt; [|exact Hlt].
    set (cb := currentBackoff l) in *.
    set (m := backoffMultiplier (config l)) in *.
    nra.
  - intros Hge. subst l'. rewrite reportFloodWait_backoff.
    apply Q.min_r.
    set (cb := currentBackoff l) in *.
    set (m := backoffMultiplier (config l)) in *.
    nra.
Qed.

Lemma reportFloodWait_blocks_next_acquire_witness :
  let l := new DEFAULT_CONFIG in
  let now := Scenario.T0 in
  let l' := reportFloodWait now 30 l in
  ((-5 < 30)%Q
   /\ (inject_Z now < inject_Z now + floodWaitMs 30)%Q
   /\ (0 <= currentBackoff l)%Q
   /\ (1 <= backoffMultiplier (config l))%Q)
  /\ (exists ms,
        acquire 0%nat now 0 l' = (l', FloodSleep now ms)
        /\ (inject_Z now + ms == inject_Z now + floodWaitMs 30)%Q
        /\ (now = now -> ms == (30 + 5) * 1000)%Q
        /\ forall t, timer_due now ms t = true ->
                     (inject_Z now + (30 + 5) * 1000 <= inject_Z t)%Q)
  /\ currentBackoff l'
     = Qmin (currentBackoff l * backoffMultiplier (config l) + (30 + 5) * 1000)
            (maxBackoffMs (config l))
  /\ (currentBackoff l' <= maxBackoffMs (config l))%Q
  /\ ((currentBackoff l < maxBackoffMs (config l))%Q ->
      (currentBackoff l < currentBackoff l')%Q)
  /\ ((maxBackoffMs (config l) <= currentBackoff l)%Q ->
      (currentBackoff l' == maxBackoffMs (config l))%Q).
Proof.
  cbv zeta.
  assert (H1 : (-5 < 30)%Q) by reflexivity.
  assert (H2 : (inject_Z Scenario.T0 < inject_Z Scenario.T0 + floodWaitMs 30)%Q)
    by reflexivity.
  assert (H3 : (0 <= currentBackoff (new DEFAULT_CONFIG))%Q) by discriminate.
  assert (H4 : (1 <= backoffMultiplier (config (new DEFAULT_CONFIG)))%Q)
    by discriminate.
  split; [by repeat apply conj|].
  exact (reportFloodWait_blocks_next_acquire (new DEFAULT_CONFIG) Scenario.T0 30
           0%nat Scenario.T0 0 H1 H2 H3 H4).
Defined.

End RateLimiterFacts.

(* ===================================================================== *)
(** * Properties of the storage                                           *)
(* ===================================================================== *)

Module StorageFacts.
Import Storage.

(** ** Stores and their record lists *)

Lemma elem_of_getAll {A} (store : gmap string A) (v : A) :
  v ∈ getAll store <-> exists k, store !! k = Some v.
Proof.
  unfold getAll. rewrite list_elem_of_fmap. split.
  - intros ([k v'] & -> & Hin). exists k. by apply elem_of_map_to_list.
  - intros (k & Hk). exists (k, v). split; [done|]. by apply elem_of_map_to_list.
Qed.

(** In a store whose records sit under their own id, the ids of the
    records listed are pairwise distinct. *)
Lemma getAll_ids_NoDup {A} (key : A -> string) (store : gmap string A) :
  keyed key store -> NoDup (key <$> getAll store).
Proof.
  intros Hkeyed. unfold getAll.
  assert (Heq : key <$> (map_to_list store).*2 = (map_to_list store).*1).
  { rewrite <- list_fmap_compose. apply list_fmap_ext.
    intros i [k v] Hin. simpl.
    apply Hkeyed. apply elem_of_map_to_list.
    by apply list_elem_of_lookup_2 in Hin. }
  rewrite Heq. apply NoDup_fst_map_to_list.
Qed.

Lemma keyed_insert {A} (key : A -> string) (store : gmap string A) (v : A) :
  keyed key store -> keyed key (<[key v := v]> store).
Proof.
  intros Hkeyed k v' Hlook.
  destruct (decide (key v = k)) as [<-|Hne].
  - rewrite lookup_insert_eq in Hlook. by injection Hlook as <-.
  - rewrite lookup_insert_ne in Hlook by done. by apply Hkeyed.
Qed.

(** ** Deleting a list of logs *)

Lemma deleteLogs_LOGS logs : forall db k,
  LOGS (deleteLogs logs db) !! k
  = if decide (k ∈ MinionLogEntry.id <$> logs) then None else LOGS db !! k.
Proof.
  unfold deleteLogs.
  induction logs as [|log logs IH]; intros db k.
  - rewrite decide_False; [done | apply not_elem_of_nil].
  - cbn [foldl]. rewrite IH, fmap_cons.
    change (LOGS (deleteLog ?i db)) with (delete i (LOGS db)).
    rewrite lookup_delete.
    destruct (decide (k ∈ MinionLogEntry.id <$> logs)) as [Hin|Hnin].
    + rewrite decide_True; [done | apply elem_of_cons; by right].
    + destruct (decide (MinionLogEntry.id log = k)) as [<-|Hne].
      * rewrite decide_True; [done | apply elem_of_cons; by left].
      * rewrite decide_False; [done|].
        intros [Heq|Hin]%elem_of_cons; [by subst | done].
Qed.

Lemma deleteLogs_others logs : forall db,
  CONFIGS (deleteLogs logs db) = CONFIGS db
  /\ STATES (deleteLogs logs db) = STATES db
  /\ ALERTS (deleteLogs logs db) = ALERTS db.
Proof.
  unfold deleteLogs.
  induction logs as [|log logs IH]; intros db; simpl; [done|].
  destruct (IH (deleteLog (MinionLogEntry.id log) db)) as (-> & -> & ->). done.
Qed.

Lemma elem_of_logsOfMinion minionId db entry :
  entry ∈ logsOfMinion minionId db
  <-> MinionLogEntry.minionId entry = minionId
      /\ exists k, LOGS db !! k = Some entry.
Proof.
  unfold logsOfMinion. by rewrite list_elem_of_filter, elem_of_getAll.
Qed.

Lemma logsOfMinion_ids_NoDup minionId db :
  keyed MinionLogEntry.id (LOGS db) ->
  NoDup (MinionLogEntry.id <$> logsOfMinion minionId db).
Proof.
  intros Hkeyed. unfold logsOfMinion.
  apply (sublist_NoDup _ (MinionLogEntry.id <$> getAll (LOGS db)));
    [by apply getAll_ids_NoDup|].
  apply fmap_sublist, sublist_filter.
Qed.

(** [clearLogsByMinion] spares exactly the entries of the minion that are
    not among the 10000 newest. *)
Lemma clearLogsByMinion_left minionId db entry :
  keyed MinionLogEntry.id (LOGS db) ->
  entry ∈ logsOfMinion minionId (clearLogsByMinion minionId db)
  <-> entry ∈ logsOfMinion minionId db
      /\ entry ∉ getLogsByMinion minionId (Z.to_nat 10000) db.
Proof.
  intros Hkeyed.
  unfold clearLogsByMinion.
  set (gone := getLogsByMinion minionId (Z.to_nat 10000) db).
  assert (Hgone : forall x, x ∈ gone -> x ∈ logsOfMinion minionId db).
  { intros x Hx. unfold gone, getLogsByMinion, slice0 in Hx.
    eapply elem_of_sublist in Hx; [|apply sublist_take].
    by rewrite merge_sort_Permutation in Hx. }
  rewrite !elem_of_logsOfMinion. split.
  - intros (Hm & k & Hk). rewrite deleteLogs_LOGS in Hk.
    case_decide as Hin; [done|]. split; [eauto|].
    intros Hgn. apply Hin. apply list_elem_of_fmap. exists entry. split; [|done].
    symmetry. by apply Hkeyed.
  - intros ((Hm & k & Hk) & Hnot). split; [done|]. exists k.
    rewrite deleteLogs_LOGS. rewrite decide_False; [done|].
    intros (other & Hid & Hother)%list_elem_of_fmap.
    apply Hnot. assert (other = entry) as <-; [|done].
    apply Hgone, elem_of_logsOfMinion in Hother as (_ & k' & Hk').
    assert (k' = k) as ->.
    { rewrite Hid. symmetry. by apply Hkeyed. }
    congruence.
Qed.

(** With at most 10000 entries, all of the minion's logs go. *)
Lemma clearLogsByMinion_small minionId db :
  keyed MinionLogEntry.id (LOGS db) ->
  (length (logsOfMinion minionId db) <= Z.to_nat 10000)%nat ->
  logsOfMinion minionId (clearLogsByMinion minionId db) = [].
Proof.
  intros Hkeyed Hlen. apply elem_of_nil_inv. intros entry Hin.
  apply clearLogsByMinion_left in Hin as (Hin & Hnot); [|done].
  apply Hnot. unfold getLogsByMinion, slice0.
  rewrite take_ge.
  - by rewrite merge_sort_Permutation.
  - by rewrite merge_sort_Permutation.
Qed.

(** With more than 10000 entries, some entry of the minion is left. *)
Lemma clearLogsByMinion_excess minionId db :
  keyed MinionLogEntry.id (LOGS db) ->
  (Z.to_nat 10000 < length (logsOfMinion minionId db))%nat ->
  exists entry,
    entry ∈ logsOfMinion minionId (clearLogsByMinion minionId db)
    /\ entry ∈ logsOfMinion minionId db.
Proof.
  intros Hkeyed Hlen.
  set (sorted := merge_sort newer_log (logsOfMinion minionId db)).
  assert (Hperm : sorted ≡ₚ logsOfMinion minionId db)
    by apply merge_sort_Permutation.
  assert (Hdup : NoDup sorted).
  { rewrite Hperm. eapply NoDup_fmap_1. by apply logsOfMinion_ids_NoDup. }
  destruct (lookup_lt_is_Some_2 sorted (Z.to_nat 10000)) as [entry Hentry].
  { by rewrite Hperm. }
  assert (Hin : entry ∈ logsOfMinion minionId db).
  { rewrite <- Hperm. by eapply list_elem_of_lookup_2. }
  exists entry. split; [|done].
  apply clearLogsByMinion_left; [done|]. split; [done|].
  unfold getLogsByMinion, slice0. fold sorted.
  intros (i & Hi & Hlt)%elem_of_take.
  assert (i = Z.to_nat 10000) by (eapply NoDup_lookup; eauto).
  lia.
Qed.

(** A lookup with a positive limit is empty only if the minion has no log
    at all. *)
Lemma getLogsByMinion_nil minionId limit db :
  (0 < limit)%nat ->
  getLogsByMinion minionId limit db = [] ->
  logsOfMinion minionId db = [].
Proof.
  unfold getLogsByMinion, slice0. intros Hpos Hnil.
  apply length_zero_iff_nil. apply (f_equal length) in Hnil.
  rewrite length_take in Hnil.
  rewrite (Permutation_length (merge_sort_Permutation _ _)) in Hnil.
  simpl in Hnil. lia.
Qed.

(** Writing an entry under an unused id adds one entry to the logs of its
    minion. *)
Lemma logsOfMinion_saveLog_fresh minionId entry db :
  LOGS db !! MinionLogEntry.id entry = None ->
  MinionLogEntry.minionId entry = minionId ->
  length (logsOfMinion minionId (saveLog entry db))
  = S (length (logsOfMinion minionId db)).
Proof.
  intros Hfresh Hm. unfold logsOfMinion, getAll.
  change (LOGS (saveLog entry db))
    with (<[MinionLogEntry.id entry := entry]> (LOGS db)).
  rewrite (map_to_list_insert _ _ _ Hfresh).
  rewrite fmap_cons. cbn [snd].
  by rewrite filter_cons_True.
Qed.

(** ** Deleting a list of alerts *)

Lemma deleteAlerts_ALERTS alerts : forall db k,
  ALERTS (deleteAlerts alerts db) !! k
  = if decide (k ∈ MinionAlert.id <$> alerts) then None else ALERTS db !! k.
Proof.
  unfold deleteAlerts.
  induction alerts as [|alert alerts IH]; intros db k.
  - rewrite decide_False; [done | apply not_elem_of_nil].
  - cbn [foldl]. rewrite IH, fmap_cons.
    change (ALERTS (deleteAlert ?i db)) with (delete i (ALERTS db)).
    rewrite lookup_delete.
    destruct (decide (k ∈ MinionAlert.id <$> alerts)) as [Hin|Hnin].
    + rewrite decide_True; [done | apply elem_of_cons; by right].
    + destruct (decide (MinionAlert.id alert = k)) as [<-|Hne].
      * rewrite decide_True; [done | apply elem_of_cons; by left].
      * rewrite decide_False; [done|].
        intros [Heq|Hin]%elem_of_cons; [by subst | done].
Qed.

Lemma deleteAlerts_others alerts : forall db,
  CONFIGS (deleteAlerts alerts db) = CONFIGS db
  /\ STATES (deleteAlerts alerts db) = STATES db
  /\ LOGS (deleteAlerts alerts db) = LOGS db.
Proof.
  unfold deleteAlerts.
  induction alerts as [|alert alerts IH]; intros db; simpl; [done|].
  destruct (IH (deleteAlert (MinionAlert.id alert) db)) as (-> & -> & ->). done.
Qed.

(** All of the minion's alerts go. *)
Lemma clearAlertsByMinion_complete minionId db :
  keyed MinionAlert.id (ALERTS db) ->
  getAlertsByMinion minionId (clearAlertsByMinion minionId db) = [].
Proof.
  intros Hkeyed. apply elem_of_nil_inv. intros alert.
  unfold getAlertsByMinion at 1, getAllAlerts, clearAlertsByMinion.
  rewrite list_elem_of_filter, elem_of_getAll.
  intros (Hm & k & Hk). rewrite deleteAlerts_ALERTS in Hk.
  case_decide as Hin; [done|]. apply Hin.
  apply list_elem_of_fmap. exists alert. split; [symmetry; by apply Hkeyed|].
  unfold getAlertsByMinion, getAllAlerts.
  rewrite list_elem_of_filter, elem_of_getAll. eauto.
Qed.

(** ** The cascade *)

Lemma deleteAllMinionData_config minionId db :
  getConfig minionId (deleteAllMinionData minionId db) = None.
Proof.
  unfold deleteAllMinionData, getConfig, clearLogsByMinion, clearAlertsByMinion.
  destruct (deleteLogs_others
              (getLogsByMinion minionId (Z.to_nat 10000)
                 (deleteAlerts
                    (getAlertsByMinion minionId
                       (deleteState minionId (deleteConfig minionId db)))
                    (deleteState minionId (deleteConfig minionId db))))
              (deleteAlerts
                 (getAlertsByMinion minionId
                    (deleteState minionId (deleteConfig minionId db)))
                 (deleteState minionId (deleteConfig minionId db))))
    as (-> & _).
  destruct (deleteAlerts_others
              (getAlertsByMinion minionId
                 (deleteState minionId (deleteConfig minionId db)))
              (deleteState minionId (deleteConfig minionId db)))
    as (-> & _).
  simpl. apply lookup_delete_eq.
Qed.

Lemma deleteAllMinionData_state minionId db :
  getState minionId (deleteAllMinionData minionId db) = None.
Proof.
  unfold deleteAllMinionData, getState, clearLogsByMinion, clearAlertsByMinion.
  destruct (deleteLogs_others
              (getLogsByMinion minionId (Z.to_nat 10000)
                 (deleteAlerts
                    (getAlertsByMinion minionId
                       (deleteState minionId (deleteConfig minionId db)))
                    (deleteState minionId (deleteConfig minionId db))))
              (deleteAlerts
                 (getAlertsByMinion minionId
                    (deleteState minionId (deleteConfig minionId db)))
                 (deleteState minionId (deleteConfig minionId db))))
    as (_ & -> & _).
  destruct (deleteAlerts_others
              (getAlertsByMinion minionId
                 (deleteState minionId (deleteConfig minionId db)))
              (deleteState minionId (deleteConfig minionId db)))
    as (_ & -> & _).
  simpl. apply lookup_delete_eq.
Qed.

Lemma deleteAllMinionData_alerts minionId db :
  keyed MinionAlert.id (ALERTS db) ->
  getAlertsByMinion minionId (deleteAllMinionData minionId db) = [].
Proof.
  intros Hkeyed. unfold deleteAllMinionData.
  set (db1 := deleteState minionId (deleteConfig minionId db)).
  assert (Hk1 : keyed MinionAlert.id (ALERTS db1)) by exact Hkeyed.
  pose proof (clearAlertsByMinion_complete minionId db1 Hk1) as Hdone.
  unfold getAlertsByMinion, getAllAlerts in *. unfold clearLogsByMinion.
  by destruct (deleteLogs_others
                 (getLogsByMinion minionId (Z.to_nat 10000)
                    (clearAlertsByMinion minionId db1))
                 (clearAlertsByMinion minionId db1))
    as (_ & _ & ->).
Qed.

Lemma logsOfMinion_ext minionId db db' :
  LOGS db = LOGS db' -> logsOfMinion minionId db = logsOfMinion minionId db'.
Proof. unfold logsOfMinion. by intros ->. Qed.

Lemma LOGS_before_clearLogs minionId db :
  LOGS (clearAlertsByMinion minionId (deleteState minionId (deleteConfig minionId db)))
  = LOGS db.
Proof.
  unfold clearAlertsByMinion.
  by destruct (deleteAlerts_others
                 (getAlertsByMinion minionId
                    (deleteState minionId (deleteConfig minionId db)))
                 (deleteState minionId (deleteConfig minionId db)))
    as (_ & _ & ->).
Qed.

Lemma deleteAllMinionData_logs_small minionId db :
  keyed MinionLogEntry.id (LOGS db) ->
  (length (logsOfMinion minionId db) <= Z.to_nat 10000)%nat ->
  logsOfMinion minionId (deleteAllMinionData minionId db) = [].
Proof.
  intros Hkeyed Hlen. unfold deleteAllMinionData.
  pose proof (LOGS_before_clearLogs minionId db) as Heq.
  apply clearLogsByMinion_small.
  - by rewrite Heq.
  - by rewrite (logsOfMinion_ext _ _ db Heq).
Qed.

Lemma deleteAllMinionData_logs_excess minionId db :
  keyed MinionLogEntry.id (LOGS db) ->
  (Z.to_nat 10000 < length (logsOfMinion minionId db))%nat ->
  exists entry,
    entry ∈ logsOfMinion minionId (deleteAllMinionData minionId db)
    /\ entry ∈ logsOfMinion minionId db.
Proof.
  intros Hkeyed Hlen. unfold deleteAllMinionData.
  pose proof (LOGS_before_clearLogs minionId db) as Heq.
  rewrite <- (logsOfMinion_ext minionId _ db Heq).
  apply clearLogsByMinion_excess.
  - by rewrite Heq.
  - by rewrite (logsOfMinion_ext _ _ db Heq).
Qed.

End StorageFacts.

(* ===================================================================== *)
(** * Properties of the engine                                            *)
(* ===================================================================== *)

Module MinionEngineFacts.
Import MinionEngine.

Lemma refreshed_status now s :
  MinionState.status (refreshed now s) = MinionState.status s.
Proof. unfold refreshed. by destruct (uptime_base s). Qed.

Lemma refreshed_errorsCount now s :
  MinionState.errorsCount (refreshed now s) = MinionState.errorsCount s.
Proof. unfold refreshed. by destruct (uptime_base s). Qed.

Lemma refreshed_nextPollAt now s :
  MinionState.nextPollAt (refreshed now s) = MinionState.nextPollAt s.
Proof. unfold refreshed. by destruct (uptime_base s). Qed.

Lemma refreshed_lastPollAt now s :
  MinionState.lastPollAt (refreshed now s) = MinionState.lastPollAt s.
Proof. unfold refreshed. by destruct (uptime_base s). Qed.

Lemma refreshed_lastError now s :
  MinionState.lastError (refreshed now s) = MinionState.lastError s.
Proof. unfold refreshed. by destruct (uptime_base s). Qed.

Lemma updateState_some id updates now e current :
  states e !! id = Some current ->
  updateState id updates now e
  = set_states (<[id := refreshed now (MinionState.spread current updates)]> (states e)) e.
Proof. intros H. unfold updateState. by rewrite H. Qed.

Lemma updateState_none id updates now e :
  states e !! id = None -> updateState id updates now e = e.
Proof. intros H. unfold updateState. by rewrite H. Qed.

Lemma updateState_states id updates now e current :
  states e !! id = Some current ->
  states (updateState id updates now e) !! id
  = Some (refreshed now (MinionState.spread current updates)).
Proof.
  intros H. rewrite (updateState_some _ _ _ _ _ H). simpl.
  apply lookup_insert_eq.
Qed.

Lemma updateState_timers id updates now e :
  timers (updateState id updates now e) = timers e.
Proof. unfold updateState. by destruct (states e !! id). Qed.

Lemma updateState_configs id updates now e :
  configs (updateState id updates now e) = configs e.
Proof. unfold updateState. by destruct (states e !! id). Qed.

Lemma updateState_rateLimiter id updates now e :
  rateLimiter (updateState id updates now e) = rateLimiter e.
Proof. unfold updateState. by destruct (states e !! id). Qed.

Lemma updateState_db id updates now e :
  db (updateState id updates now e) = db e.
Proof. unfold updateState. by destruct (states e !! id). Qed.

Lemma persistState_states id e : states (persistState id e) = states e.
Proof. unfold persistState. by destruct (states e !! id). Qed.

Lemma persistState_timers id e : timers (persistState id e) = timers e.
Proof. unfold persistState. by destruct (states e !! id). Qed.

Lemma persistState_configs id e : configs (persistState id e) = configs e.
Proof. unfold persistState. by destruct (states e !! id). Qed.

Lemma persistState_rateLimiter id e : rateLimiter (persistState id e) = rateLimiter e.
Proof. unfold persistState. by destruct (states e !! id). Qed.

Lemma clearTimer_timers id e : timers (clearTimer id e) !! id = None.
Proof.
  unfold clearTimer. destruct (timers e !! id) eqn:H; [|exact H].
  simpl. apply lookup_delete_eq.
Qed.

Lemma clearTimer_states id e : states (clearTimer id e) = states e.
Proof. unfold clearTimer. by destruct (timers e !! id). Qed.

Lemma clearTimer_configs id e : configs (clearTimer id e) = configs e.
Proof. unfold clearTimer. by destruct (timers e !! id). Qed.

Lemma clearTimer_rateLimiter id e : rateLimiter (clearTimer id e) = rateLimiter e.
Proof. unfold clearTimer. by destruct (timers e !! id). Qed.

Lemma log_states minionId level message now logId e :
  states (log minionId level message now logId e) = states e.
Proof. reflexivity. Qed.

Lemma notifyListeners_states e : states (notifyListeners e) = states e.
Proof. reflexivity. Qed.

(** ** [pauseMinion] *)

Lemma pauseMinion_states id now logId e current :
  states e !! id = Some current ->
  states (pauseMinion id now logId e) !! id
  = Some (refreshed now (MinionState.spread current (just_status paused))).
Proof.
  intros H. unfold pauseMinion. cbv zeta.
  rewrite notifyListeners_states, log_states, persistState_states.
  apply updateState_states. by rewrite clearTimer_states.
Qed.

Lemma pauseMinion_timers id now logId e :
  timers (pauseMinion id now logId e) !! id = None.
Proof.
  unfold pauseMinion.
  change (timers (persistState id
            (updateState id (just_status paused) now (clearTimer id e))) !! id = None).
  rewrite persistState_timers, updateState_timers. apply clearTimer_timers.
Qed.

Lemma pauseMinion_rateLimiter id now logId e :
  rateLimiter (pauseMinion id now logId e) = rateLimiter e.
Proof.
  unfold pauseMinion.
  change (rateLimiter (persistState id
            (updateState id (just_status paused) now (clearTimer id e)))
          = rateLimiter e).
  by rewrite persistState_rateLimiter, updateState_rateLimiter, clearTimer_rateLimiter.
Qed.

(** ** [schedulePoll] *)

Lemma schedulePoll_armed id now rnd e config state :
  configs e !! id = Some config ->
  states e !! id = Some state ->
  MinionState.status state = running ->
  let interval := Qmax (MinionConfig.pollIntervalMs config) 30000 in
  let jitter := Float64.mul rnd 5000 in
  let e' := schedulePoll id now rnd e in
  timers e' !! id = Some {| armedAt := now; delay := Float64.add interval jitter |}
  /\ states e' !! id
     = Some (refreshed now
               (MinionState.spread state
                  (MinionState.with_nextPollAt
                     (Float64.add (Float64.add (inject_Z now) interval) jitter)
                     MinionState.nothing)))
  /\ rateLimiter e' = rateLimiter e.
Proof.
  intros Hc Hs Hrun. cbv zeta. unfold schedulePoll. rewrite Hc, Hs.
  rewrite decide_True by exact Hrun. cbv zeta.
  rewrite updateState_timers, updateState_rateLimiter.
  split; [apply lookup_insert_eq|]. split; [|reflexivity].
  by apply updateState_states.
Qed.

Lemma schedulePoll_status id now rnd e :
  statusOf id (schedulePoll id now rnd e) = statusOf id e.
Proof.
  unfold schedulePoll, statusOf.
  destruct (configs e !! id) as [config|]; [|done].
  destruct (states e !! id) as [state|] eqn:Hs; [|by rewrite Hs].
  case_decide; [|by rewrite Hs].
  rewrite (updateState_states _ _ _ _ state) by done. simpl.
  by rewrite refreshed_status.
Qed.

Lemma schedulePoll_errorsCount id now rnd e :
  errorsCountOf id (schedulePoll id now rnd e) = errorsCountOf id e.
Proof.
  unfold schedulePoll, errorsCountOf.
  destruct (configs e !! id) as [config|]; [|done].
  destruct (states e !! id) as [state|] eqn:Hs; [|by rewrite Hs].
  case_decide; [|by rewrite Hs].
  rewrite (updateState_states _ _ _ _ state) by done. simpl.
  by rewrite refreshed_errorsCount.
Qed.

Lemma schedulePoll_rateLimiter id now rnd e :
  rateLimiter (schedulePoll id now rnd e) = rateLimiter e.
Proof.
  unfold schedulePoll.
  destruct (configs e !! id) as [config|]; [|done].
  destruct (states e !! id) as [state|]; [|done].
  case_decide; [|done]. by rewrite updateState_rateLimiter.
Qed.

(** The jitter of a draw that is a double in [[0, 1)]: the product rounds,
    and stays below [5000]. *)
Lemma jitter_bounds rnd :
  (0 <= rnd)%Q -> (rnd < 1)%Q -> Float64.representable rnd ->
  (0 <= Float64.mul rnd 5000)%Q /\ (Float64.mul rnd 5000 < 5000)%Q.
Proof.
  intros H0 H1 Hd. unfold Float64.mul. split.
  - apply Float64Facts.round_nonneg. lra.
  - pose proof (Float64Facts.representable_below_one rnd Hd H0 H1) as Hle.
    assert (Hm : (Float64.round (rnd * 5000)
                  <= Float64.round ((1 - Float64.pow2 (-53)) * 5000))%Q).
    { apply Float64Facts.round_mono. lra. }
    assert (Hc : (Float64.round ((1 - Float64.pow2 (-53)) * 5000) < 5000)%Q)
      by reflexivity.
    lra.
Qed.

(** [Math.max] of two doubles is one of them. *)
Lemma interval_representable p :
  Float64.representable p -> Float64.representable (Qmax p 30000).
Proof.
  unfold Float64.representable. intros Hp.
  destruct (Q.max_spec p 30000) as [[_ E]|[_ E]].
  - rewrite (Float64Facts.round_comp _ _ E), E. reflexivity.
  - rewrite (Float64Facts.round_comp _ _ E), E. exact Hp.
Qed.

(** C5, amended. For a running minion, [schedulePoll] arms a timer whose
    delay is [max(pollIntervalMs, 30000) + jitter] as a double, where
    [jitter = rnd * 5000] (a double in [[0, 5000)]) for the [Math.random()]
    draw [rnd]; the delay is at least [max(pollIntervalMs, 30000)] and at
    most the double nearest to [max(pollIntervalMs, 30000) + 5000].
    [nextPollAt] is [(now + max(pollIntervalMs, 30000)) + jitter], each sum
    rounded to a double: it is within [2^(k-52)] ms of [now] plus the
    armed delay whenever [now + max(pollIntervalMs, 30000) + 5000 <= 2^k],
    and need not be equal to it. *)
Theorem schedulePoll_delay id now rnd e config state k :
  configs e !! id = Some config ->
  states e !! id = Some state ->
  MinionState.status state = running ->
  (0 <= rnd)%Q -> (rnd < 1)%Q -> Float64.representable rnd ->
  Float64.representable (MinionConfig.pollIntervalMs config) ->
  0 <= now -> 0 <= k ->
  (inject_Z now + Qmax (MinionConfig.pollIntervalMs config) 30000 + 5000
   <= Float64.pow2 k)%Q ->
  let interval := Qmax (MinionConfig.pollIntervalMs config) 30000 in
  let jitter := Float64.mul rnd 5000 in
  let e' := schedulePoll id now rnd e in
  exists timer state',
    timers e' !! id = Some timer
    /\ states e' !! id = Some state'
    /\ armedAt timer = now
    /\ delay timer = Float64.add interval jitter
    /\ MinionState.nextPollAt state'
       = Float64.add (Float64.add (inject_Z now) interval) jitter
    /\ (0 <= jitter)%Q /\ (jitter < 5000)%Q
    /\ (interval <= delay timer)%Q
    /\ (delay timer <= Float64.round (interval + 5000))%Q
    /\ (- Float64.pow2 (k - 52)
        <= MinionState.nextPollAt state' - (inject_Z now + delay timer)
        <= Float64.pow2 (k - 52))%Q.
Proof.
  intros Hc Hs Hrun H0 H1 Hd Hp Hnow Hk Hrange. cbv zeta.
  destruct (schedulePoll_armed id now rnd e config state Hc Hs Hrun)
    as (Ht & Hst & _).
  destruct (jitter_bounds rnd H0 H1 Hd) as [Hj0 Hj5].
  pose proof (interval_representable _ Hp) as HI.
  unfold Float64.representable in HI.
  assert (H30 : (30000 <= Qmax (MinionConfig.pollIntervalMs config) 30000)%Q)
    by apply Q.le_max_r.
  assert (HN : (0 <= inject_Z now)%Q)
    by (change 0%Q with (inject_Z 0); by rewrite <- Zle_Qle).
  set (I := Qmax (MinionConfig.pollIntervalMs config) 30000) in *.
  set (j := Float64.mul rnd 5000) in *.
  set (N := inject_Z now) in *.
  eexists _, _. split; [exact Ht|]. split; [exact Hst|].
  split; [reflexivity|]. split; [reflexivity|].
  split; [by rewrite refreshed_nextPollAt|].
  split; [exact Hj0|]. split; [exact Hj5|].
  rewrite refreshed_nextPollAt. cbn [delay MinionState.spread MinionState.nextPollAt].
  unfold Float64.add.
  split; [|split].
  - assert (Hm : (Float64.round I <= Float64.round (I + j))%Q)
      by (apply Float64Facts.round_mono; lra).
    lra.
  - apply Float64Facts.round_mono. lra.
  - pose proof (Float64Facts.pow2_pos (k - 54)) as Hpos.
    assert (E53 : (Float64.pow2 (k - 53) == 2 * Float64.pow2 (k - 54))%Q).
    { replace (k - 53) with (1 + (k - 54)) by lia.
      by rewrite Float64Facts.pow2_add. }
    assert (E52 : (Float64.pow2 (k - 52) == 4 * Float64.pow2 (k - 54))%Q).
    { replace (k - 52) with (2 + (k - 54)) by lia.
      by rewrite Float64Facts.pow2_add. }
    assert (Ek : (Float64.pow2 k == Float64.pow2 54 * Float64.pow2 (k - 54))%Q).
    { rewrite <- Float64Facts.pow2_add. by replace (54 + (k - 54)) with k by lia. }
    assert (E54 : (Float64.pow2 54 == 18014398509481984)%Q) by reflexivity.
    assert (Ek1 : (Float64.pow2 (k + 1) == 2 * Float64.pow2 k)%Q).
    { replace (k + 1) with (1 + k) by lia. by rewrite Float64Facts.pow2_add. }
    pose proof (Float64Facts.round_err (N + I) k) as He1.
    pose proof (Float64Facts.round_nonneg (N + I)) as Hr1.
    pose proof (Float64Facts.round_err (Float64.round (N + I) + j) (k + 1)) as He2.
    pose proof (Float64Facts.round_err (I + j) k) as He3.
    replace (k + 1 - 54) with (k - 53) in He2 by lia.
    set (r1 := Float64.round (N + I)) in *.
    set (r2 := Float64.round (r1 + j)) in *.
    set (d := Float64.round (I + j)) in *.
    set (P := Float64.pow2 (k - 54)) in *.
    set (P53 := Float64.pow2 (k - 53)) in *.
    set (P52 := Float64.pow2 (k - 52)) in *.
    set (Pk := Float64.pow2 k) in *.
    set (Pk1 := Float64.pow2 (k + 1)) in *.
    assert (H1' : (- P <= r1 - (N + I) <= P)%Q) by (apply He1; [lra|lra|lia]).
    assert (H3' : (- P <= d - (I + j) <= P)%Q) by (apply He3; [lra|lra|lia]).
    assert (H2' : (- P53 <= r2 - (r1 + j) <= P53)%Q).
    { apply He2; [|nra|lia]. assert (0 <= r1)%Q by (apply Hr1; lra). lra. }
    change (default (MinionState.nextPollAt state)
              (MinionState.nextPollAt'
                 (MinionState.with_nextPollAt r2 MinionState.nothing)))
      with r2.
    lra.
Qed.

Lemma schedulePoll_delay_witness :
  let e := Scenario.started in
  let now := Scenario.T0 + 61000 in
  let interval := Qmax (MinionConfig.pollIntervalMs Scenario.watcher) 30000 in
  let jitter := Float64.mul (1 # 2) 5000 in
  let e' := schedulePoll "minion-1" now (1 # 2) e in
  (configs e !! "minion-1" = Some Scenario.watcher
   /\ states e !! "minion-1" = Some Scenario.running_state
   /\ MinionState.status Scenario.running_state = running
   /\ (0 <= 1 # 2)%Q /\ (1 # 2 < 1)%Q /\ Float64.representable (1 # 2)
   /\ Float64.representable (MinionConfig.pollIntervalMs Scenario.watcher)
   /\ 0 <= now /\ 0 <= 41
   /\ (inject_Z now + interval + 5000 <= Float64.pow2 41)%Q)
  /\ exists timer state',
    timers e' !! "minion-1" = Some timer
    /\ states e' !! "minion-1" = Some state'
    /\ armedAt timer = now
    /\ delay timer = Float64.add interval jitter
    /\ MinionState.nextPollAt state'
       = Float64.add (Float64.add (inject_Z now) interval) jitter
    /\ (0 <= jitter)%Q /\ (jitter < 5000)%Q
    /\ (interval <= delay timer)%Q
    /\ (delay timer <= Float64.round (interval + 5000))%Q
    /\ (- Float64.pow2 (41 - 52)
        <= MinionState.nextPollAt state' - (inject_Z now + delay timer)
        <= Float64.pow2 (41 - 52))%Q.
Proof.
  cbv zeta.
  assert (Hc : configs Scenario.started !! "minion-1" = Some Scenario.watcher)
    by (vm_compute; reflexivity).
  assert (Hs : states Scenario.started !! "minion-1" = Some Scenario.running_state)
    by (vm_compute; reflexivity).
  assert (Hr : MinionState.status Scenario.running_state = running)
    by (vm_compute; reflexivity).
  assert (H0 : (0 <= 1 # 2)%Q) by discriminate.
  assert (H1 : (1 # 2 < 1)%Q) by reflexivity.
  assert (Hd : Float64.representable (1 # 2)) by reflexivity.
  assert (Hp : Float64.representable (MinionConfig.pollIntervalMs Scenario.watcher))
    by reflexivity.
  assert (Hnow : 0 <= Scenario.T0 + 61000) by discriminate.
  assert (Hk : 0 <= 41) by discriminate.
  assert (Hrange : (inject_Z (Scenario.T0 + 61000)
                    + Qmax (MinionConfig.pollIntervalMs Scenario.watcher) 30000
                    + 5000 <= Float64.pow2 41)%Q) by discriminate.
  split; [by repeat apply conj|].
  exact (schedulePoll_delay "minion-1" (Scenario.T0 + 61000) (1 # 2)
           Scenario.started Scenario.watcher Scenario.running_state 41
           Hc Hs Hr H0 H1 Hd Hp Hnow Hk Hrange).
Defined.

(** C5 as stated fails: re-armed at [now = 1700000061000] with the draw
    [0.123456789] and [pollIntervalMs = 60000], the timer's delay is the
    double [60617.283945]; [nextPollAt - now] is [60617.283935546875].
    With the draw [0.4096000732421874], [nextPollAt] is not even the
    double that [now + delay] evaluates to: the one is [now +
    62048.000244140625], the other [now + 62048.00048828125]. *)
Lemma nextPollAt_is_not_now_plus_delay :
  let now := Scenario.T0 + 61000 in
  (exists timer state',
     timers Scenario.rearmed !! "minion-1" = Some timer
     /\ states Scenario.rearmed !! "minion-1" = Some state'
     /\ armedAt timer = now
     /\ (delay timer == 2082794016928967 # 34359738368)%Q
     /\ (MinionState.nextPollAt state' - inject_Z now == 248288395 # 4096)%Q
     /\ ~ (MinionState.nextPollAt state' == inject_Z now + delay timer)%Q)
  /\ (Float64.representable Scenario.draw'
      /\ exists timer state',
           timers Scenario.rearmed' !! "minion-1" = Some timer
           /\ states Scenario.rearmed' !! "minion-1" = Some state'
           /\ (MinionState.nextPollAt state' - inject_Z now == 254148609 # 4096)%Q
           /\ (Float64.add (inject_Z now) (delay timer) - inject_Z now
               == 127074305 # 2048)%Q
           /\ ~ (MinionState.nextPollAt state'
                 == Float64.add (inject_Z now) (delay timer))%Q).
Proof.
  cbv zeta. split.
  - eexists _, _.
    split; [vm_compute; reflexivity|]. split; [vm_compute; reflexivity|].
    split; [reflexivity|]. split; [vm_compute; reflexivity|].
    split; [vm_compute; reflexivity|].
    vm_compute. discriminate.
  - split; [vm_compute; reflexivity|]. eexists _, _.
    split; [vm_compute; reflexivity|]. split; [vm_compute; reflexivity|].
    split; [vm_compute; reflexivity|]. split; [vm_compute; reflexivity|].
    vm_compute. discriminate.
Qed.

(** ** [executePoll]: the failure path *)

Lemma executePoll_failed_states id state err now ids e current :
  states e !! id = Some current ->
  exists recorded,
    states (executePoll_failed id state err now ids e) !! id = Some recorded
    /\ MinionState.errorsCount recorded = MinionState.errorsCount state + 1
    /\ MinionState.status recorded = MinionState.status current
    /\ MinionState.lastError recorded = Some (errorMsg err)
    /\ MinionState.lastPollAt recorded = now.
Proof.
  intros H. unfold executePoll_failed. cbv zeta. rewrite log_states.
  eexists. split.
  - apply updateState_states. exact H.
  - rewrite refreshed_errorsCount, refreshed_status, refreshed_lastPollAt,
      refreshed_lastError.
    repeat apply conj; reflexivity.
Qed.

Lemma log_configs minionId level message now logId e :
  configs (log minionId level message now logId e) = configs e.
Proof. reflexivity. Qed.

Lemma log_rateLimiter minionId level message now logId e :
  rateLimiter (log minionId level message now logId e) = rateLimiter e.
Proof. reflexivity. Qed.

Lemma executePoll_failed_configs id state err now ids e :
  configs (executePoll_failed id state err now ids e) = configs e.
Proof.
  unfold executePoll_failed. cbv zeta.
  by rewrite log_configs, updateState_configs.
Qed.

Lemma executePoll_failed_rateLimiter id state err now ids e :
  rateLimiter (executePoll_failed id state err now ids e) = rateLimiter e.
Proof.
  unfold executePoll_failed. cbv zeta.
  by rewrite log_rateLimiter, updateState_rateLimiter.
Qed.

Lemma executePoll_catch_unfold id state err now ids rnd e current :
  states e !! id = Some current ->
  executePoll_catch id state err now ids rnd e
  = let e1 := executePoll_failed id state err now ids e in
    if Z.geb (MinionState.errorsCount state + 1) 10
    then pauseMinion id now (pausedLogId ids)
           (log id level_error "Too many errors, pausing minion" now
              (tooManyLogId ids) e1)
    else executePoll_reschedule id now rnd e1.
Proof.
  intros H.
  destruct (executePoll_failed_states id state err now ids e current H)
    as (recorded & Hrec & Hcount & _).
  unfold executePoll_catch. cbv zeta.
  by rewrite Hrec, Hcount.
Qed.

Lemma executePoll_reschedule_status id now rnd e :
  statusOf id (executePoll_reschedule id now rnd e) = statusOf id e.
Proof.
  unfold executePoll_reschedule. cbv zeta.
  change (statusOf id (notifyListeners ?x)) with (statusOf id x).
  destruct (states e !! id) as [cs|]; [|done].
  case_decide; [|done]. apply schedulePoll_status.
Qed.

Lemma executePoll_reschedule_errorsCount id now rnd e :
  errorsCountOf id (executePoll_reschedule id now rnd e) = errorsCountOf id e.
Proof.
  unfold executePoll_reschedule. cbv zeta.
  change (errorsCountOf id (notifyListeners ?x)) with (errorsCountOf id x).
  destruct (states e !! id) as [cs|]; [|done].
  case_decide; [|done]. apply schedulePoll_errorsCount.
Qed.

Lemma executePoll_reschedule_rateLimiter id now rnd e :
  rateLimiter (executePoll_reschedule id now rnd e) = rateLimiter e.
Proof.
  unfold executePoll_reschedule. cbv zeta.
  change (rateLimiter (notifyListeners ?x)) with (rateLimiter x).
  destruct (states e !! id) as [cs|]; [|done].
  case_decide; [|done]. apply schedulePoll_rateLimiter.
Qed.

Lemma executePoll_reschedule_armed id now rnd e config cs :
  configs e !! id = Some config ->
  states e !! id = Some cs ->
  MinionState.status cs = running ->
  timers (executePoll_reschedule id now rnd e) !! id
  = Some {| armedAt := now;
            delay := Float64.add
                       (Qmax (MinionConfig.pollIntervalMs config) 30000)
                       (Float64.mul rnd 5000) |}.
Proof.
  intros Hc Hs Hrun. unfold executePoll_reschedule. cbv zeta.
  change (timers (notifyListeners ?x)) with (timers x).
  rewrite Hs, decide_True by done.
  by destruct (schedulePoll_armed id now rnd e config cs Hc Hs Hrun) as (-> & _).
Qed.

Lemma executePoll_begin_not_running id now logId e :
  statusOf id e <> Some running -> executePoll_begin id now logId e = None.
Proof.
  unfold statusOf, executePoll_begin. intros H.
  destruct (configs e !! id) as [config|]; [|done]. simpl.
  destruct (states e !! id) as [state|]; [|done]. simpl in *.
  case_decide; [|done]. congruence.
Qed.

(** What the [catch] block and the rescheduling do at and below the
    threshold, for any caught value. *)
Lemma executePoll_catch_spec id state err now ids rnd e current :
  states e !! id = Some current ->
  let e' := executePoll_catch id state err now ids rnd e in
  errorsCountOf id e' = Some (MinionState.errorsCount state + 1)
  /\ rateLimiter e' = rateLimiter e
  /\ (10 <= MinionState.errorsCount state + 1 ->
      statusOf id e' = Some paused
      /\ timers e' !! id = None
      /\ forall now' logId, executePoll_begin id now' logId e' = None)
  /\ (MinionState.errorsCount state + 1 < 10 ->
      statusOf id e' = Some (MinionState.status current)
      /\ forall config,
           configs e !! id = Some config ->
           MinionState.status current = running ->
           timers e' !! id
           = Some {| armedAt := now;
                     delay := Float64.add
                               (Qmax (MinionConfig.pollIntervalMs config) 30000)
                               (Float64.mul rnd 5000) |}).
Proof.
  intros H e'. subst e'.
  rewrite (executePoll_catch_unfold _ _ _ _ _ _ _ _ H). cbv zeta.
  destruct (executePoll_failed_states id state err now ids e current H)
    as (recorded & Hrec & Hcount & Hstatus & _).
  destruct (Z.geb_spec (MinionState.errorsCount state + 1) 10) as [Hge|Hlt].
  - assert (Hp : states (pauseMinion id now (pausedLogId ids)
                   (log id level_error "Too many errors, pausing minion" now
                      (tooManyLogId ids) (executePoll_failed id state err now ids e)))
                 !! id
                 = Some (refreshed now (MinionState.spread recorded (just_status paused)))).
    { apply pauseMinion_states. by rewrite log_states. }
    assert (Hst : statusOf id (pauseMinion id now (pausedLogId ids)
                   (log id level_error "Too many errors, pausing minion" now
                      (tooManyLogId ids) (executePoll_failed id state err now ids e)))
                  = Some paused).
    { unfold statusOf. rewrite Hp. simpl. by rewrite refreshed_status. }
    split; [|split; [|split; [|lia]]].
    + unfold errorsCountOf. rewrite Hp. simpl.
      rewrite refreshed_errorsCount. simpl. by rewrite Hcount.
    + by rewrite pauseMinion_rateLimiter, log_rateLimiter,
        executePoll_failed_rateLimiter.
    + intros _. split; [exact Hst|]. split; [apply pauseMinion_timers|].
      intros now' logId. apply executePoll_begin_not_running.
      rewrite Hst. discriminate.
  - split; [|split; [|split; [lia|]]].
    + rewrite executePoll_reschedule_errorsCount.
      unfold errorsCountOf. rewrite Hrec. simpl. by rewrite Hcount.
    + by rewrite executePoll_reschedule_rateLimiter, executePoll_failed_rateLimiter.
    + intros _. split.
      * rewrite executePoll_reschedule_status.
        unfold statusOf. rewrite Hrec. simpl. by rewrite Hstatus.
      * intros config Hc Hrun.
        apply (executePoll_reschedule_armed id now rnd _ config recorded).
        -- by rewrite executePoll_failed_configs.
        -- exact Hrec.
        -- by rewrite Hstatus.
Qed.

(** A settled poll that failed runs the [catch] block on the engine whose
    limiter has been settled. *)
Lemma executePoll_settle_failed id state outcome err now ids rnd e :
  thrownOf outcome = Some err ->
  executePoll_settle id state outcome now ids rnd e
  = executePoll_catch id state err now ids rnd
      (set_rateLimiter (settle_rateLimiter now outcome (rateLimiter e)) e).
Proof.
  intros H. destruct outcome as [su|err'|]; simpl in H; [done| |];
    injection H as <-; reflexivity.
Qed.

(** ** The failure threshold *)

(** C1 as stated fails: ten consecutive failed polls of a freshly started
    minion leave it ['paused'], not in ['error'] (nine leave it running);
    [resumeMinion], not only [startMinion], arms a timer again; and nine
    failures, one success and one more failure pause it too. *)
Lemma ten_failures_pause_not_error :
  let nine := Scenario.polls (replicate 9 (Rejected Scenario.networkError))
                Scenario.started in
  let ten := Scenario.polls (replicate 10 (Rejected Scenario.networkError))
               Scenario.started in
  let mixed := Scenario.polls
                 (replicate 9 (Rejected Scenario.networkError)
                    ++ [Fulfilled MinionState.nothing; Rejected Scenario.networkError])
                 Scenario.started in
  statusOf "minion-1" nine = Some running
  /\ statusOf "minion-1" ten = Some paused
  /\ statusOf "minion-1" ten <> Some error
  /\ timers ten !! "minion-1" = None
  /\ is_Some (timers (resumeMinion "minion-1" (Scenario.T0 + 700000) "log-resume"
                        0 ten) !! "minion-1")
  /\ statusOf "minion-1" mixed = Some paused.
Proof.
  cbv zeta.
  repeat apply conj;
    vm_compute; first [reflexivity | discriminate | eexists; reflexivity].
Qed.

(** C1, amended. When a failed poll (the strategy threw, or the limiter
    rejected the call) brings the error counter (the snapshot's
    [errorsCount] plus one) to 10 or more, the minion is paused: its status
    becomes ['paused'], its timer is cleared and [executePoll] does nothing
    for it until it is resumed or started again.  A failed poll that leaves
    the counter below 10 does not change the status, and re-arms the next
    poll when the minion is running. *)
Theorem executePoll_failure_threshold id state outcome err now ids rnd e current :
  thrownOf outcome = Some err ->
  states e !! id = Some current ->
  let e' := executePoll_settle id state outcome now ids rnd e in
  (10 <= MinionState.errorsCount state + 1 ->
      statusOf id e' = Some paused
      /\ timers e' !! id = None
      /\ forall now' logId, executePoll_begin id now' logId e' = None)
  /\ (MinionState.errorsCount state + 1 < 10 ->
      statusOf id e' = Some (MinionState.status current)
      /\ forall config,
           configs e !! id = Some config ->
           MinionState.status current = running ->
           timers e' !! id
           = Some {| armedAt := now;
                     delay := Float64.add
                               (Qmax (MinionConfig.pollIntervalMs config) 30000)
                               (Float64.mul rnd 5000) |}).
Proof.
  intros Hthrown H e'. subst e'.
  rewrite (executePoll_settle_failed _ _ _ _ _ _ _ _ Hthrown).
  by destruct (executePoll_catch_spec id state err now ids rnd
                 (set_rateLimiter (settle_rateLimiter now outcome (rateLimiter e)) e)
                 current H)
    as (_ & _ & Hhi & Hlo).
Qed.

Lemma executePoll_failure_threshold_witness :
  let id := "minion-1" in
  let state := Scenario.running_state in
  let outcome := Rejected Scenario.networkError in
  let e' := executePoll_settle id state outcome
              (Scenario.T0 + 61000) (Scenario.logIds 1) (1 # 2) Scenario.started in
  (thrownOf outcome = Some Scenario.networkError
   /\ states Scenario.started !! id = Some state)
  /\ (10 <= MinionState.errorsCount state + 1 ->
      statusOf id e' = Some paused
      /\ timers e' !! id = None
      /\ forall now' logId, executePoll_begin id now' logId e' = None)
  /\ (MinionState.errorsCount state + 1 < 10 ->
      statusOf id e' = Some (MinionState.status state)
      /\ forall config,
           configs Scenario.started !! id = Some config ->
           MinionState.status state = running ->
           timers e' !! id
           = Some {| armedAt := Scenario.T0 + 61000;
                     delay := Float64.add
                               (Qmax (MinionConfig.pollIntervalMs config) 30000)
                               (Float64.mul (1 # 2) 5000) |}).
Proof.
  cbv zeta. split; [split; [reflexivity | vm_compute; reflexivity]|].
  apply (executePoll_failure_threshold "minion-1"
           Scenario.running_state (Rejected Scenario.networkError)
           Scenario.networkError
           (Scenario.T0 + 61000) (Scenario.logIds 1) (1 # 2) Scenario.started
           Scenario.running_state).
  - reflexivity.
  - vm_compute. reflexivity.
Defined.

(** ** Rate-limit signals *)

Lemma release_keeps_wait_state l :
  RateLimiter.floodWaitUntil (RateLimiter.release l).1 = RateLimiter.floodWaitUntil l
  /\ RateLimiter.currentBackoff (RateLimiter.release l).1 = RateLimiter.currentBackoff l.
Proof. unfold RateLimiter.release. simpl. by destruct (RateLimiter.queue l). Qed.

(** C2 as stated fails: one poll that fails with a rate-limit error
    raises [errorsCount] from 0 to 1, and ten of them pause the minion. *)
Lemma floodwait_failure_is_counted :
  let one := Scenario.polls [Rejected Scenario.floodWaitError] Scenario.started in
  let ten := Scenario.polls (replicate 10 (Rejected Scenario.floodWaitError))
               Scenario.started in
  errorsCountOf "minion-1" Scenario.started = Some 0
  /\ errorsCountOf "minion-1" one = Some 1
  /\ errorsCountOf "minion-1" one <> errorsCountOf "minion-1" Scenario.started
  /\ statusOf "minion-1" ten = Some paused.
Proof.
  cbv zeta. repeat apply conj; vm_compute; first [reflexivity | discriminate].
Qed.

(** C2, amended. A poll that fails with a rate-limit error (one carrying
    [seconds]) reconfigures the limiter: [floodWaitUntil] becomes [now +
    (seconds + 5) * 1000] and [currentBackoff] becomes [min(currentBackoff
    * backoffMultiplier + (seconds + 5) * 1000, maxBackoffMs)].  The error
    is then handled by the engine like any other: [errorsCount] becomes the
    snapshot's count plus one; below 10 the next poll of a running minion
    is armed on the normal schedule, and at 10 the minion is paused. *)
Theorem executePoll_rate_limit_signal id state err secs now ids rnd e current :
  states e !! id = Some current ->
  seconds err = Some secs ->
  let e' := executePoll_settle id state (Rejected err) now ids rnd e in
  let l := rateLimiter e in
  RateLimiter.floodWaitUntil (rateLimiter e')
    = (inject_Z now + RateLimiter.floodWaitMs secs)%Q
  /\ RateLimiter.currentBackoff (rateLimiter e')
     = Qmin (RateLimiter.currentBackoff l
               * RateLimiter.backoffMultiplier (RateLimiter.config l)
             + RateLimiter.floodWaitMs secs)
            (RateLimiter.maxBackoffMs (RateLimiter.config l))
  /\ errorsCountOf id e' = Some (MinionState.errorsCount state + 1)
  /\ (MinionState.errorsCount state + 1 < 10 ->
      statusOf id e' = Some (MinionState.status current)
      /\ forall config,
           configs e !! id = Some config ->
           MinionState.status current = running ->
           timers e' !! id
           = Some {| armedAt := now;
                     delay := Float64.add
                               (Qmax (MinionConfig.pollIntervalMs config) 30000)
                               (Float64.mul rnd 5000) |})
  /\ (10 <= MinionState.errorsCount state + 1 -> statusOf id e' = Some paused).
Proof.
  intros H Hsecs. cbv zeta.
  rewrite (executePoll_settle_failed _ _ (Rejected err) err) by reflexivity.
  destruct (executePoll_catch_spec id state err now ids rnd
              (set_rateLimiter
                 (settle_rateLimiter now (Rejected err) (rateLimiter e)) e)
              current H)
    as (Hcount & Hl & Hhi & Hlo).
  assert (Hset : rateLimiter
                   (set_rateLimiter
                      (settle_rateLimiter now (Rejected err) (rateLimiter e)) e)
                 = (RateLimiter.release
                      (RateLimiter.reportFloodWait now secs (rateLimiter e))).1).
  { simpl. unfold RateLimiter.execute_settle. by rewrite Hsecs. }
  destruct (release_keeps_wait_state
              (RateLimiter.reportFloodWait now secs (rateLimiter e)))
    as (Hf & Hb).
  split; [by rewrite Hl, Hset, Hf|]. split; [by rewrite Hl, Hset, Hb|].
  split; [exact Hcount|].
  split; [exact Hlo|]. intros Hge. by destruct (Hhi Hge).
Qed.

Lemma executePoll_rate_limit_signal_witness :
  let id := "minion-1" in
  let state := Scenario.running_state in
  let now := Scenario.T0 + 61000 in
  let e := Scenario.started in
  let e' := executePoll_settle id state (Rejected Scenario.floodWaitError)
              now (Scenario.logIds 1) (1 # 2) e in
  let l := rateLimiter e in
  (states e !! id = Some state
   /\ seconds Scenario.floodWaitError = Some 30%Q)
  /\ RateLimiter.floodWaitUntil (rateLimiter e')
     = (inject_Z now + RateLimiter.floodWaitMs 30)%Q
  /\ RateLimiter.currentBackoff (rateLimiter e')
     = Qmin (RateLimiter.currentBackoff l
               * RateLimiter.backoffMultiplier (RateLimiter.config l)
             + RateLimiter.floodWaitMs 30)
            (RateLimiter.maxBackoffMs (RateLimiter.config l))
  /\ errorsCountOf id e' = Some (MinionState.errorsCount state + 1)
  /\ (MinionState.errorsCount state + 1 < 10 ->
      statusOf id e' = Some (MinionState.status state)
      /\ forall config,
           configs e !! id = Some config ->
           MinionState.status state = running ->
           timers e' !! id
           = Some {| armedAt := now;
                     delay := Float64.add
                               (Qmax (MinionConfig.pollIntervalMs config) 30000)
                               (Float64.mul (1 # 2) 5000) |})
  /\ (10 <= MinionState.errorsCount state + 1 -> statusOf id e' = Some paused).
Proof.
  cbv zeta. split; [split; [vm_compute; reflexivity | reflexivity]|].
  apply (executePoll_rate_limit_signal "minion-1"
           Scenario.running_state Scenario.floodWaitError 30
           (Scenario.T0 + 61000) (Scenario.logIds 1) (1 # 2) Scenario.started
           Scenario.running_state).
  - vm_compute. reflexivity.
  - reflexivity.
Defined.

(** ** [executePoll]: the success path *)

Lemma executePoll_success_errorsCount id state stateUpdates now ids rnd e current :
  states e !! id = Some current ->
  errorsCountOf id (executePoll_settle id state (Fulfilled stateUpdates) now ids rnd e)
  = Some (MinionState.errorsCount state).
Proof.
  intros H. unfold executePoll_settle, executePoll_succeeded. cbv zeta.
  rewrite executePoll_reschedule_errorsCount.
  unfold errorsCountOf. rewrite persistState_states.
  erewrite updateState_states by exact H. simpl.
  by rewrite refreshed_errorsCount.
Qed.

(** On success the returned keys other than [errorsCount] and [lastPollAt]
    do reach the stored state; [messagesScanned] is one of them. *)
Lemma executePoll_success_merges id state stateUpdates now e current :
  states e !! id = Some current ->
  exists merged,
    states (executePoll_succeeded id state stateUpdates now e) !! id = Some merged
    /\ MinionState.lastPollAt merged = now
    /\ MinionState.errorsCount merged = MinionState.errorsCount state
    /\ MinionState.messagesScanned merged
       = default (MinionState.messagesScanned current)
           (MinionState.messagesScanned' stateUpdates)
    /\ MinionState.lastMessageIds merged
       = default (MinionState.lastMessageIds current)
           (MinionState.lastMessageIds' stateUpdates).
Proof.
  intros H. unfold executePoll_succeeded. cbv zeta.
  rewrite persistState_states. eexists. split.
  - apply updateState_states. exact H.
  - unfold refreshed. destruct (uptime_base _); simpl;
      destruct (MinionState.messagesScanned' stateUpdates),
               (MinionState.lastMessageIds' stateUpdates);
      repeat apply conj; reflexivity.
Qed.

(** C7. A minion has failed three polls; its fourth poll succeeds and the
    strategy returns [{ errorsCount: 0 }].  The stored [errorsCount] is
    still 3: the snapshot's value is spread after the strategy's, so the
    strategy cannot override it.  ([lastPollAt] is set to the time of the
    poll.) *)
Theorem success_ignores_returned_errorsCount :
  let failed := Scenario.polls (replicate 3 (Rejected Scenario.networkError))
                  Scenario.started in
  let stateUpdates := MinionState.with_errorsCount 0 MinionState.nothing in
  let e' := Scenario.poll (Fulfilled stateUpdates) 4 failed in
  errorsCountOf "minion-1" failed = Some 3
  /\ MinionState.errorsCount' stateUpdates = Some 0
  /\ errorsCountOf "minion-1" e' = Some 3
  /\ MinionState.lastPollAt <$> states e' !! "minion-1"
     = Some (Scenario.T0 + 61000 * 4).
Proof. cbv zeta. repeat apply conj; vm_compute; reflexivity. Qed.

(** ** Deletion *)

Lemma persistState_db_ALERTS id e :
  Storage.ALERTS (db (persistState id e)) = Storage.ALERTS (db e).
Proof. unfold persistState. by destruct (states e !! id). Qed.

Lemma persistState_db_LOGS id e :
  Storage.LOGS (db (persistState id e)) = Storage.LOGS (db e).
Proof. unfold persistState. by destruct (states e !! id). Qed.

Lemma clearTimer_db id e : db (clearTimer id e) = db e.
Proof. unfold clearTimer. by destruct (timers e !! id). Qed.

Lemma stopMinion_db_ALERTS id now logId e :
  Storage.ALERTS (db (stopMinion id now logId e)) = Storage.ALERTS (db e).
Proof.
  unfold stopMinion. cbv zeta.
  change (Storage.ALERTS (db (persistState id
            (updateState id (just_status stopped) now (clearTimer id e))))
          = Storage.ALERTS (db e)).
  by rewrite persistState_db_ALERTS, updateState_db, clearTimer_db.
Qed.

Lemma stopMinion_db_LOGS id now logId e :
  exists entry,
    MinionLogEntry.id entry = logId
    /\ MinionLogEntry.minionId entry = id
    /\ Storage.LOGS (db (stopMinion id now logId e))
       = <[logId := entry]> (Storage.LOGS (db e)).
Proof.
  set (entry := {| MinionLogEntry.id := logId;
                   MinionLogEntry.minionId := id;
                   MinionLogEntry.level := level_info;
                   MinionLogEntry.message := "Minion stopped";
                   MinionLogEntry.timestamp := now;
                   MinionLogEntry.data := None |}).
  exists entry. split; [reflexivity|]. split; [reflexivity|].
  unfold stopMinion. cbv zeta.
  change (<[logId := entry]> (Storage.LOGS (db (persistState id
            (updateState id (just_status stopped) now (clearTimer id e)))))
          = <[logId := entry]> (Storage.LOGS (db e))).
  by rewrite persistState_db_LOGS, updateState_db, clearTimer_db.
Qed.

(** The cascade of [deleteMinion], for any engine whose alert and log
    stores hold each record under its id: config and state are gone from
    memory and from the database, and so are the alerts; the logs are gone
    when, with the line 'Minion stopped' written by the implicit stop, the
    minion has at most 10000 of them, and otherwise some are left. *)
Lemma deleteMinion_cascade id now logId e :
  Storage.keyed MinionAlert.id (Storage.ALERTS (db e)) ->
  Storage.keyed MinionLogEntry.id (Storage.LOGS (db e)) ->
  let stopped := stopMinion id now logId e in
  let e' := deleteMinion id now logId e in
  configs e' !! id = None
  /\ states e' !! id = None
  /\ Storage.getConfig id (db e') = None
  /\ Storage.getState id (db e') = None
  /\ Storage.getAlertsByMinion id (db e') = []
  /\ ((length (Storage.logsOfMinion id (db stopped)) <= Z.to_nat 10000)%nat ->
      Storage.logsOfMinion id (db e') = [])
  /\ ((Z.to_nat 10000 < length (Storage.logsOfMinion id (db stopped)))%nat ->
      Storage.logsOfMinion id (db e') <> []).
Proof.
  intros Halerts Hlogs stopped e'.
  assert (Hdb : db e' = Storage.deleteAllMinionData id (db stopped)) by reflexivity.
  assert (Hka : Storage.keyed MinionAlert.id (Storage.ALERTS (db stopped))).
  { subst stopped. by rewrite stopMinion_db_ALERTS. }
  assert (Hkl : Storage.keyed MinionLogEntry.id (Storage.LOGS (db stopped))).
  { subst stopped.
    destruct (stopMinion_db_LOGS id now logId e) as (entry & <- & _ & ->).
    by apply StorageFacts.keyed_insert. }
  rewrite Hdb.
  split; [apply lookup_delete_eq|]. split; [apply lookup_delete_eq|].
  split; [apply StorageFacts.deleteAllMinionData_config|].
  split; [apply StorageFacts.deleteAllMinionData_state|].
  split; [by apply StorageFacts.deleteAllMinionData_alerts|].
  split.
  - intros Hlen. by apply StorageFacts.deleteAllMinionData_logs_small.
  - intros Hlen Hnil.
    destruct (StorageFacts.deleteAllMinionData_logs_excess id (db stopped) Hkl Hlen)
      as (entry & Hin & _).
    rewrite Hnil in Hin. by apply elem_of_nil in Hin.
Qed.

(** ** The engine [Scenario.busy n] *)

Lemma append_inj (prefix a b : string) : prefix +:+ a = prefix +:+ b -> a = b.
Proof.
  induction prefix as [|c prefix IH]; simpl; [done|].
  intros H. apply IH. by injection H.
Qed.

Lemma pollingLog_id_inj i j :
  MinionLogEntry.id (Scenario.pollingLog i) = MinionLogEntry.id (Scenario.pollingLog j) ->
  i = j.
Proof.
  unfold Scenario.pollingLog. cbn [MinionLogEntry.id].
  intros H%append_inj. by apply (inj pretty).
Qed.

Lemma pollingLog_id_not_start i :
  MinionLogEntry.id (Scenario.pollingLog i) <> "log-start".
Proof. unfold Scenario.pollingLog. cbn [MinionLogEntry.id String.append]. discriminate. Qed.

Lemma pollingLog_id_not_stopped i :
  MinionLogEntry.id (Scenario.pollingLog i) <> "log-stopped".
Proof. unfold Scenario.pollingLog. cbn [MinionLogEntry.id String.append]. discriminate. Qed.

Section Polled.

(** A database [base] without debug lines, to which the debug lines of the
    polls numbered [ns] are written. *)
Variable base : Storage.DB.
Hypothesis base_fresh :
  forall i, Storage.LOGS base !! MinionLogEntry.id (Scenario.pollingLog i) = None.

Abbreviation polled ns := (foldr Storage.saveLog base (Scenario.pollingLog <$> ns)).

Lemma polled_fresh ns i :
  i ∉ ns ->
  Storage.LOGS (polled ns) !! MinionLogEntry.id (Scenario.pollingLog i) = None.
Proof.
  induction ns as [|n ns IH]; intros Hnin; [apply base_fresh|].
  rewrite fmap_cons. cbn [foldr].
  change (Storage.LOGS (Storage.saveLog ?x ?d))
    with (<[MinionLogEntry.id x := x]> (Storage.LOGS d)).
  rewrite lookup_insert_ne.
  - apply IH. intros Hin. apply Hnin. apply elem_of_cons. by right.
  - intros Heq%pollingLog_id_inj. apply Hnin. apply elem_of_cons. by left.
Qed.

Lemma polled_other ns k :
  (forall i, MinionLogEntry.id (Scenario.pollingLog i) <> k) ->
  Storage.LOGS (polled ns) !! k = Storage.LOGS base !! k.
Proof.
  intros Hk. induction ns as [|n ns IH]; [done|].
  rewrite fmap_cons. cbn [foldr].
  change (Storage.LOGS (Storage.saveLog ?x ?d))
    with (<[MinionLogEntry.id x := x]> (Storage.LOGS d)).
  by rewrite lookup_insert_ne.
Qed.

Lemma polled_length ns :
  NoDup ns ->
  length (Storage.logsOfMinion "minion-1" (polled ns))
  = (length ns + length (Storage.logsOfMinion "minion-1" base))%nat.
Proof.
  induction 1 as [|n ns Hnin Hdup IH]; [done|].
  rewrite fmap_cons. cbn [foldr length].
  rewrite StorageFacts.logsOfMinion_saveLog_fresh; [by rewrite IH| |done].
  by apply polled_fresh.
Qed.

Lemma polled_keyed ns :
  Storage.keyed MinionLogEntry.id (Storage.LOGS base) ->
  Storage.keyed MinionLogEntry.id (Storage.LOGS (polled ns)).
Proof.
  intros Hbase. induction ns as [|n ns IH]; [done|].
  rewrite fmap_cons. cbn [foldr].
  change (Storage.LOGS (Storage.saveLog ?x ?d))
    with (<[MinionLogEntry.id x := x]> (Storage.LOGS d)).
  by apply StorageFacts.keyed_insert.
Qed.

Lemma polled_ALERTS ns : Storage.ALERTS (polled ns) = Storage.ALERTS base.
Proof. induction ns as [|n ns IH]; [done|]. rewrite fmap_cons. cbn [foldr]. exact IH. Qed.

End Polled.

(** The database of [Scenario.busy 0]: the line of the start and one
    alert. *)
Lemma busy_base_LOGS :
  Storage.LOGS (Storage.saveAlert (Scenario.alert "alert-a") (db Scenario.started))
  = <["log-start" :=
        {| MinionLogEntry.id := "log-start";
           MinionLogEntry.minionId := "minion-1";
           MinionLogEntry.level := level_info;
           MinionLogEntry.message :=
             "Minion " +:+ dquote +:+ "watcher" +:+ dquote +:+ " started";
           MinionLogEntry.timestamp := Scenario.T0;
           MinionLogEntry.data := None |}]> ∅.
Proof. vm_compute. reflexivity. Qed.

Lemma busy_base_ALERTS :
  Storage.ALERTS (Storage.saveAlert (Scenario.alert "alert-a") (db Scenario.started))
  = <["alert-a" := Scenario.alert "alert-a"]> ∅.
Proof. vm_compute. reflexivity. Qed.

Lemma keyed_empty {A} (key : A -> string) : Storage.keyed key ∅.
Proof. intros k v Hk. by rewrite lookup_empty in Hk. Qed.

(** [deleteMinion] on [Scenario.busy n], for every [n]: the minion has
    [n + 1] log entries; config, state and the alert are removed; the logs
    are all removed when [n < 9999] and not otherwise. *)
Lemma busy_deleteMinion n now :
  let e := Scenario.busy n in
  let e' := deleteMinion "minion-1" now "log-stopped" e in
  length (Storage.logsOfMinion "minion-1" (db e)) = S n
  /\ configs e' !! "minion-1" = None
  /\ states e' !! "minion-1" = None
  /\ Storage.getConfig "minion-1" (db e') = None
  /\ Storage.getState "minion-1" (db e') = None
  /\ Storage.getAlertsByMinion "minion-1" (db e') = []
  /\ ((n < Z.to_nat 9999)%nat -> Storage.logsOfMinion "minion-1" (db e') = [])
  /\ ((Z.to_nat 9999 <= n)%nat -> Storage.logsOfMinion "minion-1" (db e') <> []).
Proof.
  intros e e'.
  set (base := Storage.saveAlert (Scenario.alert "alert-a") (db Scenario.started)).
  assert (Hdb : db e = foldr Storage.saveLog base (Scenario.pollingLog <$> seq 1 n))
    by reflexivity.
  assert (Hfresh : forall i,
             Storage.LOGS base !! MinionLogEntry.id (Scenario.pollingLog i) = None).
  { intros i. subst base. rewrite busy_base_LOGS.
    rewrite lookup_insert_ne by (symmetry; apply pollingLog_id_not_start).
    apply lookup_empty. }
  assert (Hbase1 : length (Storage.logsOfMinion "minion-1" base) = 1%nat)
    by (vm_compute; reflexivity).
  assert (Hcount : length (Storage.logsOfMinion "minion-1" (db e)) = S n).
  { rewrite Hdb, (polled_length base Hfresh) by apply NoDup_seq.
    rewrite length_seq, Hbase1. lia. }
  assert (Hkl : Storage.keyed MinionLogEntry.id (Storage.LOGS (db e))).
  { rewrite Hdb. apply polled_keyed. subst base. rewrite busy_base_LOGS.
    apply (StorageFacts.keyed_insert MinionLogEntry.id ∅
             {| MinionLogEntry.id := "log-start" |}).
    apply keyed_empty. }
  assert (Hka : Storage.keyed MinionAlert.id (Storage.ALERTS (db e))).
  { rewrite Hdb, polled_ALERTS. subst base. rewrite busy_base_ALERTS.
    apply (StorageFacts.keyed_insert MinionAlert.id ∅ (Scenario.alert "alert-a")).
    apply keyed_empty. }
  assert (Hstop : length (Storage.logsOfMinion "minion-1"
                            (db (stopMinion "minion-1" now "log-stopped" e)))
                  = S (S n)).
  { destruct (stopMinion_db_LOGS "minion-1" now "log-stopped" e)
      as (entry & Hid & Hminion & Hlogs).
    rewrite (StorageFacts.logsOfMinion_ext _ _ (Storage.saveLog entry (db e)))
      by (rewrite Hlogs, <- Hid; reflexivity).
    rewrite StorageFacts.logsOfMinion_saveLog_fresh; [by rewrite Hcount| |].
    - rewrite Hid, Hdb.
      rewrite (polled_other base) by apply pollingLog_id_not_stopped.
      subst base. rewrite busy_base_LOGS.
      rewrite lookup_insert_ne by discriminate. apply lookup_empty.
    - exact Hminion. }
  destruct (deleteMinion_cascade "minion-1" now "log-stopped" e Hka Hkl)
    as (H1 & H2 & H3 & H4 & H5 & Hsmall & Hexcess).
  split; [exact Hcount|].
  split; [exact H1|]. split; [exact H2|]. split; [exact H3|]. split; [exact H4|].
  split; [exact H5|]. split.
  - intros Hn. apply Hsmall. rewrite Hstop. lia.
  - intros Hn. apply Hexcess. rewrite Hstop. lia.
Qed.

(** C9. A minion has 10000 log entries (the line of its start and the
    debug lines of 9999 polls) and one alert.  [deleteMinion] removes its
    config and state, in memory and in the database, and its alert; of its
    logs, which now include the line 'Minion stopped', it deletes the
    10000 newest: a lookup of the minion's logs still returns an entry. *)
Theorem deleteMinion_leaves_oldest_log :
  let e := Scenario.busy (Z.to_nat 9999) in
  let e' := deleteMinion "minion-1" (Scenario.T0 + 61000 * 10000) "log-stopped" e in
  length (Storage.logsOfMinion "minion-1" (db e)) = Z.to_nat 10000
  /\ configs e' !! "minion-1" = None
  /\ states e' !! "minion-1" = None
  /\ Storage.getConfig "minion-1" (db e') = None
  /\ Storage.getState "minion-1" (db e') = None
  /\ Storage.getAlertsByMinion "minion-1" (db e') = []
  /\ Storage.logsOfMinion "minion-1" (db e') <> []
  /\ Storage.getLogsByMinion "minion-1" 100 (db e') <> [].
Proof.
  cbv zeta.
  destruct (busy_deleteMinion (Z.to_nat 9999) (Scenario.T0 + 61000 * 10000))
    as (Hcount & H1 & H2 & H3 & H4 & H5 & _ & Hleft).
  split; [rewrite Hcount; lia|].
  split; [exact H1|]. split; [exact H2|]. split; [exact H3|]. split; [exact H4|].
  split; [exact H5|].
  assert (Hne := Hleft (Nat.le_refl _)).
  split; [exact Hne|].
  intros Hnil. apply Hne.
  apply (StorageFacts.getLogsByMinion_nil "minion-1" 100); [|exact Hnil].
  apply Nat.lt_0_succ.
Qed.

End MinionEngineFacts.

(* ===================================================================== *)
(** * Properties of the alert service                                     *)
(* ===================================================================== *)

Module AlertServiceFacts.
Import AlertService.

Lemma saveAlert_twice a db : Storage.saveAlert a (Storage.saveAlert a db) = Storage.saveAlert a db.
Proof. unfold Storage.saveAlert, Storage.set_ALERTS. simpl. by rewrite insert_insert_eq. Qed.

Lemma ALERTS_saveAlert a db :
  Storage.ALERTS (Storage.saveAlert a db) = <[MinionAlert.id a := a]> (Storage.ALERTS db).
Proof. reflexivity. Qed.

(** The database half of [markRead] is idempotent. *)
Lemma markAlertRead_idempotent id db :
  Storage.markAlertRead id (Storage.markAlertRead id db) = Storage.markAlertRead id db.
Proof.
  unfold Storage.markAlertRead, Storage.getAlert.
  destruct (Storage.ALERTS db !! id) as [a|] eqn:Ha; [|by rewrite Ha].
  rewrite ALERTS_saveAlert.
  change (MinionAlert.id (MinionAlert.set_read true a)) with (MinionAlert.id a).
  destruct (decide (MinionAlert.id a = id)) as [<-|Hne].
  - rewrite lookup_insert_eq. apply saveAlert_twice.
  - rewrite lookup_insert_ne, Ha by done. apply saveAlert_twice.
Qed.

(** [markDismissed] is idempotent. *)
Lemma markDismissed_idempotent id w :
  markDismissed id (markDismissed id w) = markDismissed id w.
Proof.
  destruct w as [s db]. unfold markDismissed. f_equal.
  unfold Storage.markAlertDismissed, Storage.getAlert.
  destruct (Storage.ALERTS db !! id) as [a|] eqn:Ha; [|by rewrite Ha].
  rewrite ALERTS_saveAlert.
  change (MinionAlert.id (MinionAlert.set_dismissed true a)) with (MinionAlert.id a).
  destruct (decide (MinionAlert.id a = id)) as [<-|Hne].
  - rewrite lookup_insert_eq. apply saveAlert_twice.
  - rewrite lookup_insert_ne, Ha by done. apply saveAlert_twice.
Qed.

(** ** [markAllRead] *)

Lemma markAll_noop alerts : forall db,
  (forall a, a ∈ alerts -> MinionAlert.read a = true) ->
  foldl Storage.markOne db alerts = db.
Proof.
  induction alerts as [|a alerts IH]; intros db Hread; [done|].
  cbn [foldl]. unfold Storage.markOne at 2.
  rewrite (Hread a) by (apply elem_of_cons; by left).
  apply IH. intros a' Hin. apply Hread. apply elem_of_cons. by right.
Qed.

(** After the pass, a key under which some unread alert of the list is
    filed holds a read alert; other keys are untouched. *)
Lemma markAll_lookup alerts : forall db k,
  (Exists (fun a => MinionAlert.id a = k /\ MinionAlert.read a = false) alerts ->
   exists v, Storage.ALERTS (foldl Storage.markOne db alerts) !! k = Some v
             /\ MinionAlert.read v = true)
  /\ (~ Exists (fun a => MinionAlert.id a = k /\ MinionAlert.read a = false) alerts ->
      Storage.ALERTS (foldl Storage.markOne db alerts) !! k = Storage.ALERTS db !! k).
Proof.
  induction alerts as [|a alerts IH]; intros db k.
  - split; [by intros ?%Exists_nil | done].
  - cbn [foldl].
    destruct (IH (Storage.markOne db a) k) as [IHyes IHno].
    destruct (decide (Exists (fun a => MinionAlert.id a = k
                                       /\ MinionAlert.read a = false) alerts))
      as [Hex|Hnex].
    + split; [intros _; by apply IHyes|].
      intros Hno. exfalso. apply Hno. by apply Exists_cons_tl.
    + rewrite (IHno Hnex). split.
      * intros [[Hid Hunread]|Hex]%Exists_cons; [|done].
        unfold Storage.markOne at 1. rewrite Hunread. rewrite ALERTS_saveAlert.
        change (MinionAlert.id (MinionAlert.set_read true a)) with (MinionAlert.id a).
        rewrite Hid, lookup_insert_eq. by eexists.
      * intros Hno. unfold Storage.markOne at 1.
        destruct (MinionAlert.read a) eqn:Hr; [done|].
        rewrite ALERTS_saveAlert.
        change (MinionAlert.id (MinionAlert.set_read true a)) with (MinionAlert.id a).
        apply lookup_insert_ne. intros Hid. apply Hno. apply Exists_cons_hd. done.
Qed.

Lemma markAllAlertsRead_all_read db a :
  Storage.keyed MinionAlert.id (Storage.ALERTS db) ->
  a ∈ Storage.getAllAlerts (Storage.markAllAlertsRead db) ->
  MinionAlert.read a = true.
Proof.
  intros Hkeyed (k & Hk)%StorageFacts.elem_of_getAll.
  unfold Storage.markAllAlertsRead in Hk.
  destruct (markAll_lookup (Storage.getAllAlerts db) db k) as [Hyes Hno].
  destruct (decide (Exists (fun a => MinionAlert.id a = k
                                     /\ MinionAlert.read a = false)
                      (Storage.getAllAlerts db))) as [Hex|Hnex].
  - destruct (Hyes Hex) as (v & Hv & Hread). congruence.
  - rewrite (Hno Hnex) in Hk.
    destruct (MinionAlert.read a) eqn:Hr; [done|].
    exfalso. apply Hnex. apply Exists_exists. exists a. split.
    + apply StorageFacts.elem_of_getAll. eauto.
    + split; [by apply Hkeyed | done].
Qed.

(** [markAllRead] is idempotent on the stored flags and on the counter. *)
Lemma markAllRead_idempotent w :
  Storage.keyed MinionAlert.id (Storage.ALERTS w.2) ->
  (markAllRead (markAllRead w)).2 = (markAllRead w).2
  /\ getUnreadCount (markAllRead (markAllRead w)) = getUnreadCount (markAllRead w).
Proof.
  destruct w as [s db]. simpl. intros Hkeyed. split; [|done].
  unfold Storage.markAllAlertsRead at 1.
  apply markAll_noop. intros a Hin.
  by apply (markAllAlertsRead_all_read db).
Qed.

(** Every mutation of the counter hands the listeners the counter
    itself. *)
Lemma markRead_notifies_count id w :
  last (countNotified (markRead id w).1) = Some (getUnreadCount (markRead id w)).
Proof. destruct w as [s db]. simpl. by rewrite last_snoc. Qed.

Lemma markAllRead_notifies_count w :
  last (countNotified (markAllRead w).1) = Some (getUnreadCount (markAllRead w)).
Proof. destruct w as [s db]. simpl. by rewrite last_snoc. Qed.

(** C8. Two unread alerts are pushed; [markRead] is applied twice to the
    first.  The stored flags are the same after the second call, but the
    unread count is not: it goes 2, 1, 0 while the second alert is still
    unread, and the listeners are told 1 and then 0. *)
Theorem markRead_twice_changes_unreadCount :
  let w0 := pushAlert (Scenario.alert "alert-b")
              (pushAlert (Scenario.alert "alert-a") (new, Storage.empty)) in
  let w1 := markRead "alert-a" w0 in
  let w2 := markRead "alert-a" w1 in
  getUnreadCount w0 = 2
  /\ getUnreadCount w1 = 1
  /\ getUnreadCount w2 = 0
  /\ getUnreadCount w2 <> getUnreadCount w1
  /\ flags "alert-a" w1 = Some (true, false)
  /\ flags "alert-a" w2 = Some (true, false)
  /\ flags "alert-b" w2 = Some (false, false)
  /\ countNotified w2.1 = [1; 2; 1; 0].
Proof. cbv zeta. repeat apply conj; vm_compute; first [reflexivity | discriminate]. Qed.

End AlertServiceFacts.

(* ===================================================================== *)
(** * Properties of the keyword monitor                                   *)
(* ===================================================================== *)

Module KeywordMonitorFacts.
Import KeywordMonitor.

Section Poll.
Variable fetchChatMessages : string -> nat -> option Z -> list BridgeMessage.t.
Variable toLowerCase : string -> string.
Variable matchAll : string -> string -> option (list string).
Variable truncate : string -> nat -> string.
Variable generateAlertId : nat -> string.
Variable stringify : list string -> list Utils.RegexMatch -> BridgeMessage.t -> string.
Variable now : Z.
Variable config : MinionConfig.t.
Variable typeConfig : KeywordMonitorConfig.t.
Variable state : MinionState.t.

Abbreviation scan :=
  (scanMessage toLowerCase matchAll truncate generateAlertId stringify now config
     typeConfig).
Abbreviation chat_step :=
  (pollChat fetchChatMessages toLowerCase matchAll truncate generateAlertId stringify
     now config
     typeConfig state).
Abbreviation triggers := (KeywordMonitor.triggers toLowerCase matchAll typeConfig).
Abbreviation newMessagesOf := (KeywordMonitor.newMessagesOf fetchChatMessages state).

Lemma alertsOf_app cs1 cs2 : alertsOf (cs1 ++ cs2) = alertsOf cs1 ++ alertsOf cs2.
Proof. apply omap_app. Qed.

(** *** One message *)

Lemma scan_cursor chatId acc m :
  updatedLastMessageIds (scan chatId acc m) = updatedLastMessageIds acc.
Proof.
  unfold scanMessage. case_decide; [done|].
  by destruct (_ || _).
Qed.

Lemma scan_keeps chatId acc m a :
  a ∈ alertsOf (calls acc) -> a ∈ alertsOf (calls (scan chatId acc m)).
Proof.
  intros Hin. unfold scanMessage. case_decide; [done|].
  destruct (_ || _); [|done]. simpl.
  rewrite alertsOf_app. apply elem_of_app. by left.
Qed.

Lemma scan_sound chatId acc m a :
  a ∈ alertsOf (calls (scan chatId acc m)) ->
  a ∈ alertsOf (calls acc) \/ about chatId m a.
Proof.
  unfold scanMessage. case_decide; [by left|].
  destruct (_ || _); [|by left]. simpl.
  rewrite alertsOf_app. intros [Hin|Hin]%elem_of_app; [by left|right].
  destruct (KeywordMonitorConfig.autoArchive typeConfig); simpl in Hin;
    apply list_elem_of_singleton in Hin; subst a; by repeat split.
Qed.

Lemma length_pos_bool {A} (l : list A) : l <> [] -> (0 <? length l)%nat = true.
Proof. destruct l; [done|]. by intros _. Qed.

Lemma scan_complete chatId acc m :
  triggers m -> exists a, a ∈ alertsOf (calls (scan chatId acc m)) /\ about chatId m a.
Proof.
  intros [Htext Hmatch]. unfold scanMessage.
  rewrite decide_False by exact Htext.
  assert (Hb : (0 <? length (Utils.matchesKeywords toLowerCase (BridgeMessage.text m)
                               (KeywordMonitorConfig.keywords typeConfig)))%nat
               || (0 <? length (Utils.matchesRegexPatterns matchAll
                                  (BridgeMessage.text m)
                                  (KeywordMonitorConfig.regexPatterns typeConfig)))%nat
               = true).
  { apply orb_true_iff. destruct Hmatch as [H|H]; [left|right];
      by apply length_pos_bool. }
  rewrite Hb. simpl. eexists. split.
  - rewrite alertsOf_app. apply elem_of_app. right.
    simpl. apply elem_of_cons. left. reflexivity.
  - by repeat split.
Qed.

(** *** The messages of one chat *)

Lemma scans_cursor chatId ms : forall acc,
  updatedLastMessageIds (foldl (scan chatId) acc ms) = updatedLastMessageIds acc.
Proof.
  induction ms as [|m ms IH]; intros acc; simpl; [done|].
  by rewrite IH, scan_cursor.
Qed.

Lemma scans_keep chatId ms : forall acc a,
  a ∈ alertsOf (calls acc) -> a ∈ alertsOf (calls (foldl (scan chatId) acc ms)).
Proof.
  induction ms as [|m ms IH]; intros acc a H; simpl; [done|].
  apply IH. by apply scan_keeps.
Qed.

Lemma scans_sound chatId ms : forall acc a,
  a ∈ alertsOf (calls (foldl (scan chatId) acc ms)) ->
  a ∈ alertsOf (calls acc) \/ exists m, m ∈ ms /\ about chatId m a.
Proof.
  induction ms as [|m ms IH]; intros acc a H; simpl in H; [by left|].
  destruct (IH _ _ H) as [Ha|(m' & Hin & Hab)].
  - destruct (scan_sound _ _ _ _ Ha) as [?|?]; [by left|].
    right. exists m. split; [apply elem_of_cons; by left | done].
  - right. exists m'. split; [apply elem_of_cons; by right | done].
Qed.

Lemma scans_complete chatId ms : forall acc m,
  m ∈ ms -> triggers m ->
  exists a, a ∈ alertsOf (calls (foldl (scan chatId) acc ms)) /\ about chatId m a.
Proof.
  induction ms as [|m0 ms IH]; intros acc m Hin Htr; [by apply elem_of_nil in Hin|].
  simpl. apply elem_of_cons in Hin as [->|Hin].
  - destruct (scan_complete chatId acc m0 Htr) as (a & Ha & Hab).
    exists a. split; [by apply scans_keep | done].
  - by apply IH.
Qed.

(** *** [Math.max] of the ids *)

Lemma maxId_ge first rest m :
  m ∈ first :: rest -> BridgeMessage.id m <= maxId first rest.
Proof.
  unfold maxId. intros [->|Hin]%elem_of_cons.
  - induction rest as [|r rest IH]; [simpl; lia|].
    rewrite fmap_cons. cbn [foldr]. lia.
  - induction rest as [|r rest IH]; [by apply elem_of_nil in Hin|].
    rewrite fmap_cons. cbn [foldr].
    apply elem_of_cons in Hin as [->|Hin]; [lia|].
    specialize (IH Hin). lia.
Qed.

Lemma maxId_attained first rest :
  exists m, m ∈ first :: rest /\ BridgeMessage.id m = maxId first rest.
Proof.
  unfold maxId. induction rest as [|r rest (m & Hin & Hm)].
  - exists first. split; [apply elem_of_cons; by left | done].
  - rewrite fmap_cons. cbn [foldr].
    destruct (Z.max_spec (BridgeMessage.id r)
                (foldr Z.max (BridgeMessage.id first) (BridgeMessage.id <$> rest)))
      as [[_ ->]|[_ ->]].
    + exists m. split; [|done].
      apply elem_of_cons in Hin as [->|Hin]; apply elem_of_cons; [by left|right].
      apply elem_of_cons. by right.
    + exists r. split; [|done]. apply elem_of_cons. right. apply elem_of_cons. by left.
Qed.

(** *** One chat *)

Lemma pollChat_unfold acc chatId :
  chat_step acc chatId
  = match newMessagesOf chatId with
    | [] => acc
    | first :: rest =>
        foldl (scan chatId)
          {| totalScanned := totalScanned acc
                             + Z.of_nat (length (newMessagesOf chatId));
             updatedLastMessageIds :=
               <[chatId := maxId first rest]> (updatedLastMessageIds acc);
             calls := calls acc |}
          (newMessagesOf chatId)
    end.
Proof.
  unfold pollChat, newMessagesOf. cbv zeta.
  destruct (0 <? default 0 (MinionState.lastMessageIds state !! chatId)).
  - destruct (fetchChatMessages _ _ _) as [|m ms] eqn:Hf; [done|].
    reflexivity.
  - destruct (fetchChatMessages _ _ _) as [|m ms] eqn:Hf; [done|].
    reflexivity.
Qed.

Lemma pollChat_keeps acc chatId a :
  a ∈ alertsOf (calls acc) -> a ∈ alertsOf (calls (chat_step acc chatId)).
Proof.
  intros H. rewrite pollChat_unfold.
  destruct (newMessagesOf chatId) as [|first rest]; [done|].
  by apply scans_keep.
Qed.

Lemma pollChat_sound acc chatId a :
  a ∈ alertsOf (calls (chat_step acc chatId)) ->
  a ∈ alertsOf (calls acc)
  \/ exists m, m ∈ newMessagesOf chatId /\ about chatId m a.
Proof.
  rewrite pollChat_unfold.
  destruct (newMessagesOf chatId) as [|first rest] eqn:Hn; [by left|].
  intros H. by apply scans_sound in H.
Qed.

Lemma pollChat_complete acc chatId m :
  m ∈ newMessagesOf chatId -> triggers m ->
  exists a, a ∈ alertsOf (calls (chat_step acc chatId)) /\ about chatId m a.
Proof.
  intros Hin Htr. rewrite pollChat_unfold.
  destruct (newMessagesOf chatId) as [|first rest] eqn:Hn;
    [by apply elem_of_nil in Hin|].
  by apply scans_complete.
Qed.

Lemma pollChat_cursor_other acc chatId other :
  chatId <> other ->
  updatedLastMessageIds (chat_step acc chatId) !! other
  = updatedLastMessageIds acc !! other.
Proof.
  intros Hne. rewrite pollChat_unfold.
  destruct (newMessagesOf chatId) as [|first rest]; [done|].
  rewrite scans_cursor. simpl. by apply lookup_insert_ne.
Qed.

Lemma pollChat_cursor_same acc chatId first rest :
  newMessagesOf chatId = first :: rest ->
  updatedLastMessageIds (chat_step acc chatId) !! chatId = Some (maxId first rest).
Proof.
  intros Hn. rewrite pollChat_unfold, Hn.
  rewrite scans_cursor. simpl. apply lookup_insert_eq.
Qed.

(** *** All target chats *)

Lemma polls_keep targets : forall acc a,
  a ∈ alertsOf (calls acc) -> a ∈ alertsOf (calls (foldl chat_step acc targets)).
Proof.
  induction targets as [|c targets IH]; intros acc a H; simpl; [done|].
  apply IH. by apply pollChat_keeps.
Qed.

Lemma polls_sound targets : forall acc a,
  a ∈ alertsOf (calls (foldl chat_step acc targets)) ->
  a ∈ alertsOf (calls acc)
  \/ exists c m, c ∈ targets /\ m ∈ newMessagesOf c /\ about c m a.
Proof.
  induction targets as [|c targets IH]; intros acc a H; simpl in H; [by left|].
  destruct (IH _ _ H) as [Ha|(c' & m & Hc & Hm & Hab)].
  - destruct (pollChat_sound _ _ _ Ha) as [?|(m & Hm & Hab)]; [by left|].
    right. exists c, m. split; [apply elem_of_cons; by left | done].
  - right. exists c', m. split; [apply elem_of_cons; by right | done].
Qed.

Lemma polls_complete targets : forall acc c m,
  c ∈ targets -> m ∈ newMessagesOf c -> triggers m ->
  exists a, a ∈ alertsOf (calls (foldl chat_step acc targets)) /\ about c m a.
Proof.
  induction targets as [|c0 targets IH]; intros acc c m Hc Hm Htr;
    [by apply elem_of_nil in Hc|].
  simpl. apply elem_of_cons in Hc as [->|Hc].
  - destruct (pollChat_complete acc c0 m Hm Htr) as (a & Ha & Hab).
    exists a. split; [by apply polls_keep | done].
  - by apply IH.
Qed.

Lemma polls_cursor targets c first rest : forall acc,
  newMessagesOf c = first :: rest ->
  c ∈ targets \/ updatedLastMessageIds acc !! c = Some (maxId first rest) ->
  updatedLastMessageIds (foldl chat_step acc targets) !! c
  = Some (maxId first rest).
Proof.
  intros acc Hn. revert acc.
  induction targets as [|c0 targets IH]; intros acc [Hc|Hacc]; simpl.
  - by apply elem_of_nil in Hc.
  - done.
  - apply elem_of_cons in Hc as [<-|Hc].
    + apply IH. right. by apply pollChat_cursor_same.
    + apply IH. by left.
  - apply IH. right. destruct (decide (c0 = c)) as [->|Hne].
    + by apply pollChat_cursor_same.
    + by rewrite pollChat_cursor_other.
Qed.

End Poll.

(** ** First poll and later polls *)




End KeywordMonitorFacts.

(* ===================================================================== *)
(** * More on the rate limiter: delay, backoff, queue and spacing *)
(* ===================================================================== *)

Module LimiterInvariants.
Import RateLimiter.
Import RateLimiterFacts.

Lemma Qltb_true a b : Qltb a b = true <-> (a < b)%Q.
Proof.
  unfold Qltb. rewrite negb_true_iff, <- not_true_iff_false, Qle_bool_iff.
  split; [apply Qnot_le_lt | apply Qlt_not_le].
Qed.

Lemma Qltb_false a b : Qltb a b = false <-> (b <= a)%Q.
Proof.
  unfold Qltb. rewrite negb_false_iff, Qle_bool_iff. reflexivity.
Qed.

(** ** The delay of [getJitteredDelay] *)

(** X1. For a draw [0 <= rnd < 1] and [minDelayMs <= maxDelayMs], the
    delay [getJitteredDelay()] returns is at least [min(minDelayMs +
    currentBackoff, maxBackoffMs)], at most [maxBackoffMs] and at most
    [maxDelayMs + currentBackoff]; once [minDelayMs + currentBackoff]
    reaches [maxBackoffMs] it is [maxBackoffMs] whatever the draw: the
    jitter is cut off by the cap. *)
Theorem getJitteredDelay_bounds l rnd :
  (0 <= rnd)%Q -> (rnd < 1)%Q ->
  (minDelayMs (config l) <= maxDelayMs (config l))%Q ->
  (Qmin (minDelayMs (config l) + currentBackoff l) (maxBackoffMs (config l))
     <= getJitteredDelay l rnd)%Q
  /\ (getJitteredDelay l rnd <= maxBackoffMs (config l))%Q
  /\ (getJitteredDelay l rnd
        <= maxDelayMs (config l) + currentBackoff l)%Q
  /\ ((maxBackoffMs (config l) <= minDelayMs (config l) + currentBackoff l)%Q ->
      (getJitteredDelay l rnd == maxBackoffMs (config l))%Q).
Proof.
  intros H0 H1 Hd. unfold getJitteredDelay. cbv zeta.
  set (a := minDelayMs (config l)) in *. set (b := maxDelayMs (config l)) in *.
  set (cb := currentBackoff l). set (cap := maxBackoffMs (config l)).
  assert (Hj : (0 <= rnd * (b - a))%Q) by nra.
  assert (Hj' : (rnd * (b - a) <= b - a)%Q) by nra.
  repeat apply conj.
  - apply Q.min_le_compat_r. lra.
  - apply Q.le_min_r.
  - eapply Qle_trans; [apply Q.le_min_l|]. lra.
  - intros Hcap. apply Q.min_r. lra.
Qed.


Lemma getJitteredDelay_bounds_witness :
  let l := reportError (new DEFAULT_CONFIG) in
  ((0 <= 1 # 2)%Q /\ (1 # 2 < 1)%Q
   /\ (minDelayMs (config l) <= maxDelayMs (config l))%Q)
  /\ (Qmin (minDelayMs (config l) + currentBackoff l) (maxBackoffMs (config l))
        <= getJitteredDelay l (1 # 2))%Q
  /\ (getJitteredDelay l (1 # 2) <= maxBackoffMs (config l))%Q
  /\ (getJitteredDelay l (1 # 2) <= maxDelayMs (config l) + currentBackoff l)%Q
  /\ ((maxBackoffMs (config l) <= minDelayMs (config l) + currentBackoff l)%Q ->
      (getJitteredDelay l (1 # 2) == maxBackoffMs (config l))%Q).
Proof.
  cbv zeta.
  assert (H0 : (0 <= 1 # 2)%Q) by discriminate.
  assert (H1 : (1 # 2 < 1)%Q) by reflexivity.
  assert (Hd : (minDelayMs (config (reportError (new DEFAULT_CONFIG)))
                <= maxDelayMs (config (reportError (new DEFAULT_CONFIG))))%Q)
    by discriminate.
  split; [by repeat apply conj|].
  exact (getJitteredDelay_bounds (reportError (new DEFAULT_CONFIG)) (1 # 2) H0 H1 Hd).
Defined.

(** ** Backoff *)

Lemma acquire_spacing_backoff now rnd l :
  currentBackoff (acquire_spacing now rnd l).1 = currentBackoff l
  /\ config (acquire_spacing now rnd l).1 = config l.
Proof. unfold acquire_spacing. destruct (Qltb _ _); done. Qed.

Lemma acquire_concurrency_backoff me now rnd l :
  currentBackoff (acquire_concurrency me now rnd l).1 = currentBackoff l
  /\ config (acquire_concurrency me now rnd l).1 = config l.
Proof.
  unfold acquire_concurrency.
  destruct (_ >=? _); [done | apply acquire_spacing_backoff].
Qed.

Lemma acquire_backoff me now rnd l :
  currentBackoff (acquire me now rnd l).1 = currentBackoff l
  /\ config (acquire me now rnd l).1 = config l.
Proof.
  unfold acquire.
  destruct (Qgtb _ _); [done | apply acquire_concurrency_backoff].
Qed.

Lemma acquire_resume_backoff me now rnd pc l l' pc' :
  acquire_resume me now rnd pc l = Some (l', pc') ->
  currentBackoff l' = currentBackoff l /\ config l' = config l.
Proof.
  intros Hr. destruct pc; simpl in Hr; try discriminate.
  - destruct (timer_due _ _ _); [|discriminate].
    pose proof (acquire_concurrency_backoff me now rnd l) as Hn.
    inversion Hr as [Heq]. by rewrite Heq in Hn.
  - pose proof (acquire_spacing_backoff now rnd l) as Hn.
    inversion Hr as [Heq]. by rewrite Heq in Hn.
  - destruct (timer_due _ _ _); [|discriminate].
    by inversion Hr.
Qed.

Lemma release_backoff l :
  currentBackoff (release l).1 = currentBackoff l
  /\ config (release l).1 = config l.
Proof. unfold release. simpl. destruct (queue l); done. Qed.

Lemma reportSuccess_within l :
  (0 <= currentBackoff l <= maxBackoffMs (config l))%Q ->
  (0 <= currentBackoff (reportSuccess l) <= maxBackoffMs (config l))%Q.
Proof.
  intros [H0 H1]. simpl. split; [apply Q.le_max_l|].
  apply Q.max_lub; lra.
Qed.

Lemma reportError_within l :
  sane (config l) ->
  (0 <= currentBackoff (reportError l) <= maxBackoffMs (config l))%Q.
Proof.
  intros (Hmin & Hmult & Hcap). simpl. split; [|apply Q.le_min_r].
  apply Q.min_glb; [|exact Hcap].
  assert (Hm : (minDelayMs (config l)
                  <= Qmax (currentBackoff l) (minDelayMs (config l)))%Q)
    by apply Q.le_max_r.
  nra.
Qed.

Lemma reportFloodWait_within now secs l :
  sane (config l) -> (-5 <= secs)%Q -> (0 <= currentBackoff l)%Q ->
  (0 <= currentBackoff (reportFloodWait now secs l) <= maxBackoffMs (config l))%Q.
Proof.
  intros (Hmin & Hmult & Hcap) Hsecs H0.
  rewrite reportFloodWait_backoff. split; [|apply Q.le_min_r].
  apply Q.min_glb; [|exact Hcap].
  unfold floodWaitMs. nra.
Qed.

Lemma step_backoff ev s s' :
  sane (config (lim s)) -> waits_from_provider ev ->
  step ev s = Some s' ->
  (0 <= currentBackoff (lim s) <= maxBackoffMs (config (lim s)))%Q ->
  config (lim s') = config (lim s)
  /\ (0 <= currentBackoff (lim s') <= maxBackoffMs (config (lim s)))%Q.
Proof.
  intros Hsane Hev Hs H. destruct ev; simpl in Hs.
  - destruct (_ <=? _); [|discriminate]. by injection Hs as <-.
  - pose proof (acquire_backoff (length (calls s)) (clock s) rnd (lim s)) as [Hb Hc].
    destruct (acquire _ _ _ _) as [l pc]. injection Hs as <-. simpl in *.
    by rewrite Hb, Hc.
  - destruct (calls s !! who) as [pc|]; [|discriminate]. simpl in Hs.
    destruct (acquire_resume _ _ _ _ _) as [[l pc']|] eqn:Hr; [|discriminate].
    simpl in Hs. injection Hs as <-. simpl.
    apply acquire_resume_backoff in Hr as [Hb Hc]. by rewrite Hb, Hc.
  - pose proof (release_backoff (lim s)) as [Hb Hc].
    destruct (release (lim s)) as [l woken]. injection Hs as <-. simpl in *.
    by rewrite Hb, Hc.
  - injection Hs as <-. simpl lim. split; [done|]. by apply reportSuccess_within.
  - injection Hs as <-. simpl lim. split; [done|]. by apply reportError_within.
  - injection Hs as <-. simpl lim. split; [done|].
    apply reportFloodWait_within; [done|exact Hev|apply H].
  - injection Hs as <-. simpl. split; [done|].
    destruct Hsane as (_ & _ & Hcap). split; [discriminate|exact Hcap].
Qed.

Lemma run_backoff evs : forall s s',
  sane (config (lim s)) -> Forall waits_from_provider evs ->
  run evs s = Some s' ->
  (0 <= currentBackoff (lim s) <= maxBackoffMs (config (lim s)))%Q ->
  config (lim s') = config (lim s)
  /\ (0 <= currentBackoff (lim s') <= maxBackoffMs (config (lim s)))%Q.
Proof.
  induction evs as [|ev evs IH]; intros s s' Hsane Hevs Hr H; simpl in Hr.
  - by injection Hr as <-.
  - destruct (step ev s) as [s1|] eqn:Hs; [|discriminate]. simpl in Hr.
    apply Forall_cons in Hevs as [Hev Hevs].
    destruct (step_backoff ev s s1 Hsane Hev Hs H) as [Hc Hb].
    rewrite <- Hc in Hb.
    destruct (IH s1 s') as [Hc' Hb']; try done.
    { by rewrite Hc. }
    rewrite Hc in Hc', Hb'. done.
Qed.

(** X2. On a limiter whose configured delays and multiplier are not
    negative, whatever calls are made and however they interleave (the
    waits reported being at least [-5] s), [currentBackoff] stays within
    [0, maxBackoffMs] and the configuration is never changed. *)
Theorem currentBackoff_within_cap cfg now0 evs s :
  sane cfg -> Forall waits_from_provider evs ->
  run evs (boot cfg now0) = Some s ->
  config (lim s) = cfg
  /\ (0 <= currentBackoff (lim s) <= maxBackoffMs cfg)%Q.
Proof.
  intros Hsane Hevs Hr.
  apply (run_backoff evs (boot cfg now0) s Hsane Hevs Hr).
  destruct Hsane as (_ & _ & Hcap). simpl. split; [discriminate|exact Hcap].
Qed.

Lemma currentBackoff_within_cap_witness :
  let evs := [EvAcquire 0; EvReportError; EvReportFloodWait 300;
              EvReportFloodWait 300; EvReportSuccess; EvRelease] in
  sane DEFAULT_CONFIG /\ Forall waits_from_provider evs
  /\ exists s, run evs (boot DEFAULT_CONFIG 1700000000000) = Some s
       /\ config (lim s) = DEFAULT_CONFIG
       /\ (0 <= currentBackoff (lim s) <= maxBackoffMs DEFAULT_CONFIG)%Q.
Proof.
  cbv zeta.
  assert (Hsane : sane DEFAULT_CONFIG) by (repeat apply conj; discriminate).
  assert (Hevs : Forall waits_from_provider
                   [EvAcquire 0; EvReportError; EvReportFloodWait 300;
                    EvReportFloodWait 300; EvReportSuccess; EvRelease]).
  { repeat constructor; discriminate. }
  split; [exact Hsane|]. split; [exact Hevs|].
  eexists. split; [vm_compute; reflexivity|].
  apply (currentBackoff_within_cap DEFAULT_CONFIG 1700000000000 _ _ Hsane Hevs).
  vm_compute. reflexivity.
Defined.


Lemma successes_backoff n : forall l,
  (0 <= currentBackoff l)%Q ->
  (currentBackoff (successes n l)
   == Qmax 0 (currentBackoff l - 500 * inject_Z (Z.of_nat n)))%Q.
Proof.
  induction n as [|n IH]; intros l H0.
  - change (successes 0 l) with l. change (Z.of_nat 0) with 0%Z.
    assert (E : (500 * inject_Z 0 == 0)%Q) by reflexivity.
    rewrite Q.max_r; lra.
  - unfold successes in *. rewrite Nat.iter_succ. simpl currentBackoff.
    rewrite (IH l H0). rewrite Nat2Z.inj_succ, <- Z.add_1_r, inject_Z_plus.
    change (inject_Z 1) with 1%Q.
    set (c := currentBackoff l) in *. set (k := inject_Z (Z.of_nat n)).
    destruct (Qlt_le_dec (c - 500 * k) 0) as [Hlt|Hge].
    + rewrite (Q.max_l 0 (c - 500 * k)) by lra.
      rewrite (Q.max_l 0 (0 - 500)) by lra.
      rewrite Q.max_l by lra. reflexivity.
    + rewrite (Q.max_r 0 (c - 500 * k)) by lra.
      apply Q.max_compat; [reflexivity|]. ring.
Qed.

(** X3. [n] successive [reportSuccess()] calls lower a non-negative
    backoff [b] to [max(0, b - 500 n)]: each success takes 500 ms off, the
    backoff is back to [0] once [500 n >= b], and successes never touch
    the flood-wait deadline. *)
Theorem reportSuccess_clears_backoff n l :
  (0 <= currentBackoff l)%Q ->
  (currentBackoff (successes n l)
   == Qmax 0 (currentBackoff l - 500 * inject_Z (Z.of_nat n)))%Q
  /\ ((currentBackoff l <= 500 * inject_Z (Z.of_nat n))%Q ->
      (currentBackoff (successes n l) == 0)%Q)
  /\ floodWaitUntil (successes n l) = floodWaitUntil l.
Proof.
  intros H0. pose proof (successes_backoff n l H0) as Hb.
  repeat apply conj; [exact Hb| |].
  - intros Hle. rewrite Hb. apply Q.max_l. lra.
  - clear. induction n as [|n IH]; [done|].
    unfold successes in *. rewrite Nat.iter_succ. exact IH.
Qed.


Lemma reportSuccess_clears_backoff_witness :
  let l := reportError (reportError (new DEFAULT_CONFIG)) in
  (0 <= currentBackoff l)%Q
  /\ (currentBackoff (successes 16 l)
      == Qmax 0 (currentBackoff l - 500 * inject_Z (Z.of_nat 16)))%Q
  /\ ((currentBackoff l <= 500 * inject_Z (Z.of_nat 16))%Q ->
      (currentBackoff (successes 16 l) == 0)%Q)
  /\ floodWaitUntil (successes 16 l) = floodWaitUntil l.
Proof.
  cbv zeta.
  assert (H0 : (0 <= currentBackoff (reportError (reportError (new DEFAULT_CONFIG))))%Q)
    by (vm_compute; discriminate).
  split; [exact H0|].
  exact (reportSuccess_clears_backoff 16 _ H0).
Defined.

(** X4. With [minDelayMs > 0] and [backoffMultiplier > 1],
    [reportError()] never leaves the backoff above [maxBackoffMs], raises
    it strictly while it is below [maxBackoffMs], and makes it at least
    [minDelayMs * backoffMultiplier] when that is within the cap. *)
Theorem reportError_escalates l :
  (0 < minDelayMs (config l))%Q ->
  (1 < backoffMultiplier (config l))%Q ->
  (0 <= currentBackoff l)%Q ->
  (currentBackoff (reportError l) <= maxBackoffMs (config l))%Q
  /\ ((currentBackoff l < maxBackoffMs (config l))%Q ->
      (currentBackoff l < currentBackoff (reportError l))%Q)
  /\ ((minDelayMs (config l) * backoffMultiplier (config l)
         <= maxBackoffMs (config l))%Q ->
      (minDelayMs (config l) * backoffMultiplier (config l)
         <= currentBackoff (reportError l))%Q).
Proof.
  intros Hmin Hmult H0. simpl.
  set (cb := currentBackoff l) in *. set (m := backoffMultiplier (config l)) in *.
  set (d := minDelayMs (config l)) in *. set (cap := maxBackoffMs (config l)).
  assert (Hl : (cb <= Qmax cb d)%Q) by apply Q.le_max_l.
  assert (Hr : (d <= Qmax cb d)%Q) by apply Q.le_max_r.
  repeat apply conj.
  - apply Q.le_min_r.
  - intros Hlt. apply Q.min_glb_lt; [|exact Hlt]. nra.
  - intros Hcap. apply Q.min_glb; [|exact Hcap]. nra.
Qed.

Lemma reportError_escalates_witness :
  let l := new DEFAULT_CONFIG in
  ((0 < minDelayMs (config l))%Q
   /\ (1 < backoffMultiplier (config l))%Q
   /\ (0 <= currentBackoff l)%Q)
  /\ (currentBackoff (reportError l) <= maxBackoffMs (config l))%Q
  /\ ((currentBackoff l < maxBackoffMs (config l))%Q ->
      (currentBackoff l < currentBackoff (reportError l))%Q)
  /\ ((minDelayMs (config l) * backoffMultiplier (config l)
         <= maxBackoffMs (config l))%Q ->
      (minDelayMs (config l) * backoffMultiplier (config l)
         <= currentBackoff (reportError l))%Q).
Proof.
  cbv zeta.
  assert (H1 : (0 < minDelayMs (config (new DEFAULT_CONFIG)))%Q) by reflexivity.
  assert (H2 : (1 < backoffMultiplier (config (new DEFAULT_CONFIG)))%Q) by reflexivity.
  assert (H3 : (0 <= currentBackoff (new DEFAULT_CONFIG))%Q) by discriminate.
  split; [by repeat apply conj|].
  exact (reportError_escalates (new DEFAULT_CONFIG) H1 H2 H3).
Defined.

(** ** The queue *)

Lemma mark_lookup f who cs i :
  mark f who cs !! i = if decide (i = who) then f <$> cs !! i else cs !! i.
Proof.
  unfold mark. destruct (cs !! who) as [pc|] eqn:Hw.
  - destruct (decide (i = who)) as [Hi|Hi].
    + subst i. rewrite Hw. simpl. apply list_lookup_insert_eq.
      by eapply lookup_lt_Some.
    + by apply list_lookup_insert_ne.
  - destruct (decide (i = who)) as [Hi|Hi]; [|done]. subst i. by rewrite Hw.
Qed.

Lemma marks_lookup f q : forall cs i,
  (forall pc, f (f pc) = f pc) ->
  foldr (mark f) cs q !! i = if decide (i ∈ q) then f <$> cs !! i else cs !! i.
Proof.
  induction q as [|who q IH]; intros cs i Hf; simpl.
  - destruct (decide (i ∈ [])) as [Hi|Hi]; [by inversion Hi | done].
  - rewrite mark_lookup, IH by done.
    destruct (decide (i = who)) as [->|Hne].
    + destruct (decide (who ∈ who :: q)) as [_|Hn]; [|exfalso; apply Hn; left].
      destruct (decide (who ∈ q)); [|done].
      destruct (cs !! who); simpl; [by rewrite Hf | done].
    + destruct (decide (i ∈ q)) as [Hin|Hnin].
      * destruct (decide (i ∈ who :: q)) as [_|Hn]; [done|].
        exfalso; apply Hn; by right.
      * destruct (decide (i ∈ who :: q)) as [Hn|_]; [|done].
        apply elem_of_cons in Hn. tauto.
Qed.

Lemma queue_agrees_boot cfg now0 : queue_agrees (boot cfg now0).
Proof.
  split; simpl; [constructor|].
  intros who. split; [intros Hi; inversion Hi | done].
Qed.

Lemma queue_agrees_lt s who :
  queue_agrees s -> who ∈ queue (lim s) -> (who < length (calls s))%nat.
Proof. intros [_ H] Hin. apply H in Hin. by eapply lookup_lt_Some. Qed.

(** Replacing the continuation point of a call that does not wait in the
    queue by one that is not [Queued]. *)
Lemma queue_agrees_move s l who pc pc' :
  queue_agrees s -> calls s !! who = Some pc -> pc <> Queued -> pc' <> Queued ->
  queue l = queue (lim s) ->
  queue_agrees {| clock := clock s; lim := l; calls := <[who := pc']> (calls s) |}.
Proof.
  intros [Hnd H] Hw Hpc Hpc' Hq. split; simpl; rewrite Hq; [done|].
  intros i. rewrite H. destruct (decide (i = who)) as [->|Hne].
  - rewrite list_lookup_insert_eq by (by eapply lookup_lt_Some). rewrite Hw.
    split; intros [=]; congruence.
  - by rewrite list_lookup_insert_ne.
Qed.

(** A call that joins the queue. *)
Lemma queue_agrees_enqueue s who pc :
  queue_agrees s -> calls s !! who = Some pc -> pc <> Queued ->
  queue_agrees {| clock := clock s;
                  lim := set_queue (queue (lim s) ++ [who]) (lim s);
                  calls := <[who := Queued]> (calls s) |}.
Proof.
  intros [Hnd H] Hw Hpc. split; simpl.
  - apply NoDup_app. split; [done|]. split; [|apply NoDup_singleton].
    intros i Hi ->%list_elem_of_singleton. apply H in Hi. congruence.
  - intros i. rewrite elem_of_app, list_elem_of_singleton, H.
    destruct (decide (i = who)) as [->|Hne].
    + rewrite list_lookup_insert_eq by (by eapply lookup_lt_Some). tauto.
    + rewrite list_lookup_insert_ne by done. tauto.
Qed.

Lemma acquire_spacing_queue now rnd l :
  queue (acquire_spacing now rnd l).1 = queue l
  /\ (acquire_spacing now rnd l).2 <> Queued.
Proof. unfold acquire_spacing. destruct (Qltb _ _); done. Qed.

Lemma step_queue_agrees ev s s' :
  step ev s = Some s' -> queue_agrees s -> queue_agrees s'.
Proof.
  intros Hs Hinv. destruct ev; simpl in Hs.
  - destruct (_ <=? _); [|discriminate]. by injection Hs as <-.
  - (* a new call *)
    assert (Hext : forall l pc, pc <> Queued -> queue l = queue (lim s) ->
              queue_agrees {| clock := clock s; lim := l; calls := calls s ++ [pc] |}).
    { intros l pc Hpc Hq. destruct Hinv as [Hnd H]. split; simpl; rewrite Hq; [done|].
      intros i. rewrite H. split.
      - intros Hi. rewrite lookup_app_l; [done|]. by eapply lookup_lt_Some.
      - intros Hi. destruct (decide (i < length (calls s))%nat) as [Hlt|Hge].
        + by rewrite lookup_app_l in Hi.
        + rewrite lookup_app_r in Hi by lia.
          destruct (i - length (calls s))%nat; simpl in Hi; [congruence|done]. }
    unfold acquire in Hs. destruct (Qgtb _ _).
    { injection Hs as <-. by apply Hext. }
    unfold acquire_concurrency in Hs. destruct (_ >=? _).
    + injection Hs as <-. destruct Hinv as [Hnd H]. split; simpl.
      * apply NoDup_app. split; [done|]. split; [|apply NoDup_singleton].
        intros i Hi ->%list_elem_of_singleton. apply H in Hi.
        apply lookup_lt_Some in Hi. lia.
      * intros i. rewrite elem_of_app, list_elem_of_singleton, H. split.
        -- intros [Hi| ->].
           ++ rewrite lookup_app_l; [done|]. by eapply lookup_lt_Some.
           ++ by rewrite lookup_app_r, Nat.sub_diag.
        -- intros Hi. destruct (decide (i < length (calls s))%nat) as [Hlt|Hge].
           ++ left. by rewrite lookup_app_l in Hi.
           ++ right. apply lookup_lt_Some in Hi. rewrite length_app in Hi.
              simpl in Hi. lia.
    + pose proof (acquire_spacing_queue (clock s) rnd (lim s)) as [Hq Hpc].
      destruct (acquire_spacing _ _ _) as [l pc]. injection Hs as <-.
      by apply Hext.
  - (* a continuation *)
    destruct (calls s !! who) as [pc|] eqn:Hw; [|discriminate]. simpl in Hs.
    destruct pc; simpl in Hs; try discriminate.
    + destruct (timer_due _ _ _); [|discriminate]. simpl in Hs.
      unfold acquire_concurrency in Hs. destruct (_ >=? _).
      * injection Hs as <-. by eapply queue_agrees_enqueue.
      * pose proof (acquire_spacing_queue (clock s) rnd (lim s)) as [Hq Hpc].
        destruct (acquire_spacing _ _ _) as [l pc]. injection Hs as <-.
        by eapply queue_agrees_move.
    + pose proof (acquire_spacing_queue (clock s) rnd (lim s)) as [Hq Hpc].
      destruct (acquire_spacing _ _ _) as [l pc]. injection Hs as <-.
      by eapply queue_agrees_move.
    + destruct (timer_due _ _ _); [|discriminate]. simpl in Hs.
      injection Hs as <-. by eapply queue_agrees_move.
  - (* release *)
    unfold release in Hs. simpl in Hs.
    destruct (queue (lim s)) as [|next rest] eqn:Hq.
    + injection Hs as <-. destruct Hinv as [Hnd H]. split; simpl; by rewrite Hq in *.
    + injection Hs as <-. destruct Hinv as [Hnd H]. rewrite Hq in *.
      apply NoDup_cons in Hnd as [Hnext Hnd]. split; simpl; [done|].
      intros i. rewrite mark_lookup. destruct (decide (i = next)) as [->|Hne].
      * assert (Hn : calls s !! next = Some Queued) by (apply H; left).
        rewrite Hn. simpl. split; [done | discriminate].
      * rewrite <- H, elem_of_cons. tauto.
  - injection Hs as <-. exact Hinv.
  - injection Hs as <-. exact Hinv.
  - injection Hs as <-. exact Hinv.
  - (* reset *)
    injection Hs as <-. destruct Hinv as [Hnd H]. split; simpl; [constructor|].
    intros i. rewrite marks_lookup by done. split; [intros Hi; inversion Hi|].
    destruct (decide (i ∈ queue (lim s))) as [Hi|Hi].
    + destruct (calls s !! i); simpl; discriminate.
    + intros Hq. by apply H in Hq.
Qed.

Lemma run_queue_agrees evs : forall s s',
  run evs s = Some s' -> queue_agrees s -> queue_agrees s'.
Proof.
  induction evs as [|ev evs IH]; intros s s' Hr H; simpl in Hr.
  - by injection Hr as <-.
  - destruct (step ev s) as [s1|] eqn:Hs; [|discriminate]. simpl in Hr.
    eapply IH; [exact Hr|]. eapply step_queue_agrees; eauto.
Qed.


Lemma elem_of_waiting s who :
  who ∈ waiting s <-> calls s !! who = Some Queued.
Proof.
  unfold waiting. rewrite list_elem_of_In, List.filter_In, <- list_elem_of_In.
  rewrite elem_of_seq. unfold is_queued_at. split.
  - intros [_ Hq]. destruct (calls s !! who) as [[]|]; done.
  - intros Hq. split; [|by rewrite Hq].
    apply lookup_lt_Some in Hq. lia.
Qed.

Lemma NoDup_waiting s : NoDup (waiting s).
Proof.
  unfold waiting. apply NoDup_ListNoDup, List.NoDup_filter, NoDup_ListNoDup, NoDup_seq.
Qed.

(** X5. In every run of the limiter, the queue names, once each, exactly
    the calls suspended at the concurrency check (no waiter is lost or
    duplicated by [release()], [reset()] or later calls), and the
    [queueLength] that [getStatus()] reports is their number. *)
Theorem queue_names_the_waiting_calls cfg now0 evs s :
  run evs (boot cfg now0) = Some s ->
  NoDup (queue (lim s))
  /\ (forall who, who ∈ queue (lim s) <-> calls s !! who = Some Queued)
  /\ queue (lim s) ≡ₚ waiting s
  /\ queueLength (getStatus (clock s) (lim s)) = length (waiting s).
Proof.
  intros Hr.
  destruct (run_queue_agrees evs _ s Hr (queue_agrees_boot cfg now0)) as [Hnd H].
  assert (Hp : queue (lim s) ≡ₚ waiting s).
  { apply NoDup_Permutation; [done | apply NoDup_waiting |].
    intros who. by rewrite H, elem_of_waiting. }
  repeat apply conj; [done | done | done |].
  simpl. by rewrite Hp.
Qed.

Lemma queue_names_the_waiting_calls_witness :
  let evs := [EvAcquire 0; EvAcquire 0; EvAcquire 0; EvRelease] in
  exists s,
    run evs (boot DEFAULT_CONFIG 1700000000000) = Some s
    /\ NoDup (queue (lim s))
    /\ (forall who, who ∈ queue (lim s) <-> calls s !! who = Some Queued)
    /\ queue (lim s) ≡ₚ waiting s
    /\ queueLength (getStatus (clock s) (lim s)) = length (waiting s).
Proof.
  cbv zeta. eexists. split; [vm_compute; reflexivity|].
  apply (queue_names_the_waiting_calls DEFAULT_CONFIG 1700000000000
           [EvAcquire 0; EvAcquire 0; EvAcquire 0; EvRelease]).
  vm_compute. reflexivity.
Defined.



Lemma step_config ev s s' :
  step ev s = Some s' -> config (lim s') = config (lim s).
Proof.
  intros Hs. destruct ev; simpl in Hs.
  - destruct (_ <=? _); [|discriminate]. by injection Hs as <-.
  - pose proof (acquire_backoff (length (calls s)) (clock s) rnd (lim s)) as [_ Hc].
    destruct (acquire _ _ _ _) as [l pc]. by injection Hs as <-.
  - destruct (calls s !! who) as [pc|]; [|discriminate]. simpl in Hs.
    destruct (acquire_resume _ _ _ _ _) as [[l pc']|] eqn:Hr; [|discriminate].
    simpl in Hs. injection Hs as <-. simpl.
    by apply acquire_resume_backoff in Hr as [_ Hc].
  - pose proof (release_backoff (lim s)) as [_ Hc].
    destruct (release (lim s)) as [l woken]. by injection Hs as <-.
  - by injection Hs as <-.
  - by injection Hs as <-.
  - by injection Hs as <-.
  - by injection Hs as <-.
Qed.

Lemma run_config evs : forall s s',
  run evs s = Some s' -> config (lim s') = config (lim s).
Proof.
  induction evs as [|ev evs IH]; intros s s' Hr; simpl in Hr.
  - by injection Hr as <-.
  - destruct (step ev s) as [s1|] eqn:Hs; [|discriminate]. simpl in Hr.
    rewrite (IH _ _ Hr). by eapply step_config.
Qed.

(** X7. In every run, [reset()] rejects every queued caller (none of
    them can be resumed afterwards), leaves every other call where it is
    (callers asleep in the flood wait or the spacing delay are not
    cancelled), and zeroes [currentBackoff], [activeCount] and
    [floodWaitUntil]; [lastCallTime] and the configuration are kept. *)
Theorem reset_rejects_every_waiter cfg now0 evs s :
  run evs (boot cfg now0) = Some s ->
  exists s', step EvReset s = Some s'
    /\ (forall who, calls s !! who = Some Queued ->
          calls s' !! who = Some QueueRejected
          /\ forall rnd, step (EvResume who rnd) s' = None)
    /\ (forall who pc, calls s !! who = Some pc -> pc <> Queued ->
          calls s' !! who = Some pc)
    /\ waiting s' = []
    /\ lim s' = {| config := cfg; lastCallTime := lastCallTime (lim s);
                   currentBackoff := 0; activeCount := 0; queue := [];
                   floodWaitUntil := 0 |}.
Proof.
  intros Hr.
  destruct (run_queue_agrees evs _ s Hr (queue_agrees_boot cfg now0)) as [Hnd H].
  eexists. split; [reflexivity|]. simpl.
  assert (Hl : forall who,
    foldr (mark (fun _ => QueueRejected)) (calls s) (queue (lim s)) !! who
    = if decide (who ∈ queue (lim s))
      then (fun _ => QueueRejected) <$> calls s !! who else calls s !! who).
  { intros who. by apply marks_lookup. }
  repeat apply conj.
  - intros who Hw. rewrite Hl.
    destruct (decide (who ∈ queue (lim s))) as [_|Hn]; [|by apply H in Hw].
    rewrite Hw. split; [done|]. intros rnd. unfold step. cbn [calls lim clock].
    reflexivity.
  - intros who pc Hw Hpc. rewrite Hl.
    destruct (decide (who ∈ queue (lim s))) as [Hin|_]; [|done].
    apply H in Hin. congruence.
  - apply elem_of_nil_inv. intros who Hw. apply elem_of_waiting in Hw.
    simpl in Hw. rewrite Hl in Hw.
    destruct (decide (who ∈ queue (lim s))) as [Hin|Hn].
    + by destruct (calls s !! who).
    + by apply H in Hw.
  - pose proof (run_config _ _ _ Hr) as Hc. simpl in Hc. by rewrite <- Hc.
Qed.

Lemma reset_rejects_every_waiter_witness :
  let evs := [EvAcquire 0; EvAcquire 0; EvReportFloodWait 30] in
  exists s,
    run evs (boot DEFAULT_CONFIG 1700000000000) = Some s
    /\ exists s', step EvReset s = Some s'
    /\ (forall who, calls s !! who = Some Queued ->
          calls s' !! who = Some QueueRejected
          /\ forall rnd, step (EvResume who rnd) s' = None)
    /\ (forall who pc, calls s !! who = Some pc -> pc <> Queued ->
          calls s' !! who = Some pc)
    /\ waiting s' = []
    /\ lim s' = {| config := DEFAULT_CONFIG; lastCallTime := lastCallTime (lim s);
                   currentBackoff := 0; activeCount := 0; queue := [];
                   floodWaitUntil := 0 |}.
Proof.
  cbv zeta. eexists. split; [vm_compute; reflexivity|].
  apply (reset_rejects_every_waiter DEFAULT_CONFIG 1700000000000
           [EvAcquire 0; EvAcquire 0; EvReportFloodWait 30]).
  vm_compute. reflexivity.
Defined.

(** ** Spacing *)

(** X8. At the spacing check, a call made [elapsed] ms after
    [lastCallTime] is admitted at once when [requiredDelay <= elapsed];
    otherwise it sleeps for [requiredDelay - elapsed] ms, the limiter being
    left as it is, and its continuation cannot run before [lastCallTime +
    requiredDelay] (as [lastCallTime] was when the call checked), at which
    point it increments [activeCount] and stamps [lastCallTime]. *)
Theorem acquire_spacing_admission now rnd l :
  let required := getJitteredDelay l rnd in
  let elapsed := inject_Z (now - lastCallTime l) in
  ((required <= elapsed)%Q ->
     acquire_spacing now rnd l
     = (set_lastCallTime now (set_activeCount (activeCount l + 1) l), Acquired))
  /\ ((elapsed < required)%Q ->
      exists ms,
        acquire_spacing now rnd l = (l, SpacingSleep now ms)
        /\ (0 < ms)%Q
        /\ (inject_Z now + ms == inject_Z (lastCallTime l) + required)%Q
        /\ forall me t l' pc',
             acquire_resume me t rnd (SpacingSleep now ms) l = Some (l', pc') ->
             (inject_Z (lastCallTime l) + required <= inject_Z t)%Q
             /\ pc' = Acquired /\ lastCallTime l' = t
             /\ activeCount l' = activeCount l + 1).
Proof.
  cbv zeta. unfold acquire_spacing. split.
  - intros Hle. apply Qltb_false in Hle. by rewrite Hle.
  - intros Hlt. pose proof Hlt as Hb. apply Qltb_true in Hb. rewrite Hb.
    eexists. split; [reflexivity|]. split; [lra|].
    assert (He : (inject_Z now + (getJitteredDelay l rnd - inject_Z (now - lastCallTime l))
                  == inject_Z (lastCallTime l) + getJitteredDelay l rnd)%Q).
    { unfold Z.sub. rewrite inject_Z_plus, inject_Z_opp. ring. }
    split; [exact He|].
    intros me t l' pc' Hres. simpl in Hres.
    destruct (timer_due _ _ _) eqn:Hdue; [|discriminate].
    apply timer_due_spec in Hdue. injection Hres as <- <-.
    split; [|done]. rewrite He in Hdue. exact Hdue.
Qed.

Lemma acquire_spacing_admission_witness :
  let l := (acquire_finish 1700000000000 (new DEFAULT_CONFIG)).1 in
  let now := 1700000000100 in
  let required := getJitteredDelay l (1 # 2) in
  let elapsed := inject_Z (now - lastCallTime l) in
  (elapsed < required)%Q
  /\ ((required <= elapsed)%Q ->
     acquire_spacing now (1 # 2) l
     = (set_lastCallTime now (set_activeCount (activeCount l + 1) l), Acquired))
  /\ ((elapsed < required)%Q ->
      exists ms,
        acquire_spacing now (1 # 2) l = (l, SpacingSleep now ms)
        /\ (0 < ms)%Q
        /\ (inject_Z now + ms == inject_Z (lastCallTime l) + required)%Q
        /\ forall me t l' pc',
             acquire_resume me t (1 # 2) (SpacingSleep now ms) l = Some (l', pc') ->
             (inject_Z (lastCallTime l) + required <= inject_Z t)%Q
             /\ pc' = Acquired /\ lastCallTime l' = t
             /\ activeCount l' = activeCount l + 1).
Proof.
  cbv zeta. split; [reflexivity|].
  exact (acquire_spacing_admission 1700000000100 (1 # 2)
           (acquire_finish 1700000000000 (new DEFAULT_CONFIG)).1).
Defined.

End LimiterInvariants.

(* ===================================================================== *)
(** * More on the storage: queries, pruning and the reach of the cascade *)
(* ===================================================================== *)

Module StorageQueries.
Import Storage.
Import StorageFacts.

(** ** Sorted, bounded queries *)

Lemma newer_alert_trans : Transitive newer_alert.
Proof. intros a b c. unfold newer_alert. lia. Qed.
Lemma newer_alert_total : Total newer_alert.
Proof. intros a b. unfold newer_alert. lia. Qed.
Lemma newer_log_trans : Transitive newer_log.
Proof. intros a b c. unfold newer_log. lia. Qed.
Lemma newer_log_total : Total newer_log.
Proof. intros a b. unfold newer_log. lia. Qed.

Lemma slice0_merge_sort {A} (R : relation A) `{!forall x y, Decision (R x y)}
    (limit : nat) (l : list A) :
  Transitive R -> Total R ->
  let r := slice0 limit (merge_sort R l) in
  length r = (limit `min` length l)%nat
  /\ StronglySorted R r
  /\ (forall a, a ∈ r -> a ∈ l)
  /\ (forall a b, a ∈ r -> b ∈ l -> b ∉ r -> R a b)
  /\ ((length l <= limit)%nat -> r ≡ₚ l).
Proof.
  intros Htrans Htotal r. subst r. unfold slice0.
  pose proof (merge_sort_Permutation R l) as Hperm.
  pose proof (StronglySorted_merge_sort R l) as Hsorted.
  set (s := merge_sort R l) in *.
  repeat apply conj.
  - by rewrite length_take, Hperm.
  - rewrite <- (take_drop limit s) in Hsorted.
    by apply StronglySorted_app_1_l in Hsorted.
  - intros a Ha. rewrite <- Hperm. apply elem_of_take in Ha as (i & Hi & _).
    by eapply list_elem_of_lookup_2.
  - intros a b Ha Hb Hnb. rewrite <- Hperm, <- (take_drop limit s) in Hb.
    apply elem_of_app in Hb as [Hb|Hb]; [done|].
    rewrite <- (take_drop limit s) in Hsorted.
    by eapply StronglySorted_app_1_elem_of.
  - intros Hle. rewrite take_ge; [done|]. by rewrite Hperm.
Qed.

(** X9. [getRecentAlerts(limit)], [getLogsByMinion(minionId, limit)] and
    [getAllLogs(limit)] return [min(limit, n)] of the [n] stored records
    they select (all alerts, the log lines of the minion, all log lines),
    newest first, and every record they leave out is at most as recent as
    every record they return. *)
Theorem recent_queries_newest_first minionId limit db :
  let alerts := getRecentAlerts limit db in
  let logs := getLogsByMinion minionId limit db in
  let allLogs := getAllLogs limit db in
  (length alerts = (limit `min` length (getAllAlerts db))%nat
   /\ StronglySorted newer_alert alerts
   /\ (forall a, a ∈ alerts -> exists k, ALERTS db !! k = Some a)
   /\ (forall a b, a ∈ alerts -> b ∈ getAllAlerts db -> b ∉ alerts ->
         MinionAlert.timestamp b <= MinionAlert.timestamp a))
  /\ (length logs = (limit `min` length (logsOfMinion minionId db))%nat
      /\ StronglySorted newer_log logs
      /\ (forall e, e ∈ logs ->
            MinionLogEntry.minionId e = minionId
            /\ exists k, LOGS db !! k = Some e)
      /\ (forall e e', e ∈ logs -> e' ∈ logsOfMinion minionId db -> e' ∉ logs ->
            MinionLogEntry.timestamp e' <= MinionLogEntry.timestamp e)
      /\ ((length (logsOfMinion minionId db) <= limit)%nat ->
          forall k e, LOGS db !! k = Some e ->
                      MinionLogEntry.minionId e = minionId -> e ∈ logs))
  /\ (length allLogs = (limit `min` length (getAll (LOGS db)))%nat
      /\ StronglySorted newer_log allLogs
      /\ (forall e, e ∈ allLogs -> exists k, LOGS db !! k = Some e)
      /\ (forall e e', e ∈ allLogs -> e' ∈ getAll (LOGS db) -> e' ∉ allLogs ->
            MinionLogEntry.timestamp e' <= MinionLogEntry.timestamp e)).
Proof.
  cbv zeta. unfold getRecentAlerts, getLogsByMinion, getAllLogs.
  destruct (slice0_merge_sort newer_alert limit (getAllAlerts db)
              newer_alert_trans newer_alert_total) as (A1 & A2 & A3 & A4 & _).
  destruct (slice0_merge_sort newer_log limit (logsOfMinion minionId db)
              newer_log_trans newer_log_total) as (L1 & L2 & L3 & L4 & L5).
  destruct (slice0_merge_sort newer_log limit (getAll (LOGS db))
              newer_log_trans newer_log_total) as (G1 & G2 & G3 & G4 & _).
  split; [|split].
  - repeat apply conj; try done.
    intros a Ha. apply elem_of_getAll. by apply A3.
  - repeat apply conj; try done.
    + intros e He. apply L3 in He. by apply elem_of_logsOfMinion in He.
    + intros Hle k e Hk Hm. rewrite (L5 Hle). apply elem_of_logsOfMinion. eauto.
  - repeat apply conj; try done.
    intros e He. apply elem_of_getAll. by apply G3.
Qed.

(** ** Pruning *)

Lemma map_to_list_selected {A} (P : string * A -> Prop) `{!forall x, Decision (P x)}
    (m m' : gmap string A) :
  (forall k v, m' !! k = Some v <-> m !! k = Some v /\ P (k, v)) ->
  map_to_list m' ≡ₚ filter P (map_to_list m).
Proof.
  intros Hsel. apply NoDup_Permutation.
  - apply NoDup_map_to_list.
  - apply NoDup_filter, NoDup_map_to_list.
  - intros [k v]. rewrite list_elem_of_filter, !elem_of_map_to_list, Hsel. tauto.
Qed.

Lemma length_filter_fmap {A B} (f : A -> B) (Q : B -> Prop)
    `{!forall x, Decision (Q x)} (l : list A) :
  length (filter Q (f <$> l)) = length (filter (fun x => Q (f x)) l).
Proof.
  induction l as [|x l IH]; [done|]. rewrite fmap_cons.
  destruct (decide (Q (f x))) as [Hq|Hq].
  - rewrite !filter_cons_True by done. simpl. by rewrite IH.
  - by rewrite !filter_cons_False by done.
Qed.

Lemma length_filter_complement {A} (P : A -> Prop) `{!forall x, Decision (P x)}
    (l : list A) :
  (length (filter P l) + length (filter (fun x => ~ P x) l) = length l)%nat.
Proof. by rewrite <- length_app, filter_app_complement. Qed.

Lemma LOGS_pruneOldLogs now maxAgeMs db k e :
  keyed MinionLogEntry.id (LOGS db) ->
  LOGS (pruneOldLogs now maxAgeMs db).1 !! k = Some e
  <-> LOGS db !! k = Some e /\ ~ MinionLogEntry.timestamp e < now - maxAgeMs.
Proof.
  intros Hkeyed. unfold pruneOldLogs. cbn [fst]. rewrite deleteLogs_LOGS.
  destruct (decide _) as [Hin|Hnin].
  - split; [done|]. intros [Hk Hts]. exfalso.
    apply list_elem_of_fmap in Hin as (e' & -> & Hin).
    apply list_elem_of_filter in Hin as [Hold Hin].
    apply elem_of_getAll in Hin as (k' & Hk').
    rewrite (Hkeyed _ _ Hk') in Hk.
    assert (e = e') by congruence. by subst.
  - split; [|tauto]. intros Hk. split; [done|]. intros Hold. apply Hnin.
    apply list_elem_of_fmap. exists e. split; [by rewrite (Hkeyed _ _ Hk)|].
    apply list_elem_of_filter. split; [done|]. apply elem_of_getAll. eauto.
Qed.

(** X10. On a log store in which every line sits under its own id,
    [pruneOldLogs(maxAgeMs)] called at [now] removes exactly the lines
    older than [now - maxAgeMs] (a line stamped at the cutoff stays),
    returns their number, and leaves the other stores alone. *)
Theorem pruneOldLogs_cutoff now maxAgeMs db :
  keyed MinionLogEntry.id (LOGS db) ->
  let db' := (pruneOldLogs now maxAgeMs db).1 in
  (forall k e, LOGS db' !! k = Some e
     <-> LOGS db !! k = Some e /\ now - maxAgeMs <= MinionLogEntry.timestamp e)
  /\ ((pruneOldLogs now maxAgeMs db).2 + length (getAll (LOGS db'))
      = length (getAll (LOGS db)))%nat
  /\ CONFIGS db' = CONFIGS db /\ STATES db' = STATES db /\ ALERTS db' = ALERTS db.
Proof.
  intros Hkeyed db'. subst db'. split; [|split].
  - intros k e. rewrite LOGS_pruneOldLogs by done. split; intros [? ?]; split; (done || lia).
  - pose proof (map_to_list_selected
                  (fun kv => ~ MinionLogEntry.timestamp kv.2 < now - maxAgeMs)
                  (LOGS db) (LOGS (pruneOldLogs now maxAgeMs db).1)) as Hperm.
    unfold getAll at 1. rewrite length_fmap, Hperm
      by (intros k v; by apply LOGS_pruneOldLogs).
    unfold pruneOldLogs. cbn [snd]. unfold getAll.
    rewrite length_filter_fmap, length_fmap.
    apply (length_filter_complement
             (fun kv : string * MinionLogEntry.t =>
                MinionLogEntry.timestamp kv.2 < now - maxAgeMs)).
  - unfold pruneOldLogs. cbn [fst]. apply deleteLogs_others.
Qed.

(** ** The cascade spares the other minions *)

Lemma ALERTS_clearAlertsByMinion minionId db k a :
  keyed MinionAlert.id (ALERTS db) ->
  ALERTS (clearAlertsByMinion minionId db) !! k = Some a
  <-> ALERTS db !! k = Some a /\ MinionAlert.minionId a <> minionId.
Proof.
  intros Hkeyed. unfold clearAlertsByMinion. rewrite deleteAlerts_ALERTS.
  destruct (decide _) as [Hin|Hnin].
  - split; [done|]. intros [Hk Hm]. exfalso.
    apply list_elem_of_fmap in Hin as (a' & -> & Hin).
    apply list_elem_of_filter in Hin as [Hmine Hin].
    apply elem_of_getAll in Hin as (k' & Hk').
    rewrite (Hkeyed _ _ Hk') in Hk.
    assert (a = a') by congruence. by subst.
  - split; [|tauto]. intros Hk. split; [done|]. intros Hmine. apply Hnin.
    apply list_elem_of_fmap. exists a. split; [by rewrite (Hkeyed _ _ Hk)|].
    apply list_elem_of_filter. split; [done|]. apply elem_of_getAll. eauto.
Qed.

Lemma LOGS_clearLogsByMinion_other minionId db k e :
  keyed MinionLogEntry.id (LOGS db) ->
  MinionLogEntry.minionId e <> minionId ->
  LOGS (clearLogsByMinion minionId db) !! k = Some e <-> LOGS db !! k = Some e.
Proof.
  intros Hkeyed Hother. unfold clearLogsByMinion. rewrite deleteLogs_LOGS.
  destruct (decide _) as [Hin|Hnin]; [|done].
  split; [done|]. intros Hk. exfalso.
  apply list_elem_of_fmap in Hin as (e' & -> & Hin).
  unfold getLogsByMinion, slice0 in Hin.
  apply elem_of_take in Hin as (i & Hi & _).
  apply list_elem_of_lookup_2 in Hi. rewrite merge_sort_Permutation in Hi.
  apply elem_of_logsOfMinion in Hi as [Hmine (k' & Hk')].
  rewrite (Hkeyed _ _ Hk') in Hk.
  assert (e = e') by congruence. by subst.
Qed.

(** X11. [deleteAllMinionData(minionId)] removes nothing that belongs to
    another minion: the config and state of every other id, every alert
    and every log line whose [minionId] differs are still stored
    afterwards, and nothing is added to the alert and log stores. *)
Theorem deleteAllMinionData_spares_others minionId db :
  keyed MinionAlert.id (ALERTS db) ->
  keyed MinionLogEntry.id (LOGS db) ->
  let db' := deleteAllMinionData minionId db in
  (forall other, other <> minionId ->
     getConfig other db' = getConfig other db
     /\ getState other db' = getState other db)
  /\ (forall k a, MinionAlert.minionId a <> minionId ->
        ALERTS db' !! k = Some a <-> ALERTS db !! k = Some a)
  /\ (forall k e, MinionLogEntry.minionId e <> minionId ->
        LOGS db' !! k = Some e <-> LOGS db !! k = Some e)
  /\ (forall k a, ALERTS db' !! k = Some a -> ALERTS db !! k = Some a)
  /\ (forall k e, LOGS db' !! k = Some e -> LOGS db !! k = Some e).
Proof.
  intros Hka Hkl db'. subst db'. unfold deleteAllMinionData.
  set (db1 := deleteState minionId (deleteConfig minionId db)).
  set (db2 := clearAlertsByMinion minionId db1).
  assert (Hc2 : CONFIGS db2 = CONFIGS db1 /\ STATES db2 = STATES db1
                /\ LOGS db2 = LOGS db1) by apply deleteAlerts_others.
  destruct Hc2 as (Hc2 & Hs2 & Hl2).
  assert (Hc3 : CONFIGS (clearLogsByMinion minionId db2) = CONFIGS db2
                /\ STATES (clearLogsByMinion minionId db2) = STATES db2
                /\ ALERTS (clearLogsByMinion minionId db2) = ALERTS db2)
    by apply deleteLogs_others.
  destruct Hc3 as (Hc3 & Hs3 & Ha3).
  assert (Hkl2 : keyed MinionLogEntry.id (LOGS db2)) by (by rewrite Hl2).
  assert (Hka1 : keyed MinionAlert.id (ALERTS db1)) by exact Hka.
  repeat apply conj.
  - intros other Hne. unfold getConfig, getState. rewrite Hc3, Hc2, Hs3, Hs2.
    simpl. by rewrite !lookup_delete_ne.
  - intros k a Hother. rewrite Ha3. unfold db2.
    rewrite ALERTS_clearAlertsByMinion by done. simpl. tauto.
  - intros k e Hother. rewrite LOGS_clearLogsByMinion_other by done. by rewrite Hl2.
  - intros k a. rewrite Ha3. unfold db2. rewrite ALERTS_clearAlertsByMinion by done.
    simpl. tauto.
  - intros k e. unfold clearLogsByMinion. rewrite deleteLogs_LOGS.
    destruct (decide _); [done|]. by rewrite Hl2.
Qed.

Lemma archive_keyed :
  keyed MinionAlert.id (ALERTS Scenario.archive)
  /\ keyed MinionLogEntry.id (LOGS Scenario.archive).
Proof.
  split.
  - apply (keyed_insert MinionAlert.id ∅ (Scenario.alert "alert-a")).
    intros k v Hk. by rewrite lookup_empty in Hk.
  - apply (keyed_insert MinionLogEntry.id _ (Scenario.otherLog "log-other" _)).
    apply (keyed_insert MinionLogEntry.id _ (Scenario.pollingLog 2)).
    apply (keyed_insert MinionLogEntry.id ∅ (Scenario.pollingLog 1)).
    intros k v Hk. by rewrite lookup_empty in Hk.
Qed.

Lemma pruneOldLogs_cutoff_witness :
  let db := Scenario.archive in
  let now := Scenario.T0 + 122000 in
  let maxAgeMs := 100000 in
  let db' := (pruneOldLogs now maxAgeMs db).1 in
  keyed MinionLogEntry.id (LOGS db)
  /\ (forall k e, LOGS db' !! k = Some e
        <-> LOGS db !! k = Some e /\ now - maxAgeMs <= MinionLogEntry.timestamp e)
  /\ ((pruneOldLogs now maxAgeMs db).2 + length (getAll (LOGS db'))
      = length (getAll (LOGS db)))%nat
  /\ CONFIGS db' = CONFIGS db /\ STATES db' = STATES db /\ ALERTS db' = ALERTS db.
Proof.
  cbv zeta. split; [exact (proj2 archive_keyed)|].
  exact (pruneOldLogs_cutoff (Scenario.T0 + 122000) 100000 Scenario.archive
           (proj2 archive_keyed)).
Defined.

Lemma deleteAllMinionData_spares_others_witness :
  let db := Scenario.archive in
  let db' := deleteAllMinionData "minion-1" db in
  (keyed MinionAlert.id (ALERTS db) /\ keyed MinionLogEntry.id (LOGS db))
  /\ (forall other, other <> "minion-1" ->
        getConfig other db' = getConfig other db
        /\ getState other db' = getState other db)
  /\ (forall k a, MinionAlert.minionId a <> "minion-1" ->
        ALERTS db' !! k = Some a <-> ALERTS db !! k = Some a)
  /\ (forall k e, MinionLogEntry.minionId e <> "minion-1" ->
        LOGS db' !! k = Some e <-> LOGS db !! k = Some e)
  /\ (forall k a, ALERTS db' !! k = Some a -> ALERTS db !! k = Some a)
  /\ (forall k e, LOGS db' !! k = Some e -> LOGS db !! k = Some e).
Proof.
  cbv zeta. split; [exact archive_keyed|].
  exact (deleteAllMinionData_spares_others "minion-1" Scenario.archive
           (proj1 archive_keyed) (proj2 archive_keyed)).
Defined.

End StorageQueries.

(* ===================================================================== *)
(** * More on the alert service: the unread counter *)
(* ===================================================================== *)

Module AlertCounter.
Import AlertService.

Lemma set_read_true_id a : MinionAlert.read a = true -> MinionAlert.set_read true a = a.
Proof. destruct a. simpl. by intros ->. Qed.

(** ** Counting the records of a store *)

Lemma getAll_insert_fresh {A} (m : gmap string A) k v :
  m !! k = None -> Storage.getAll (<[k := v]> m) ≡ₚ v :: Storage.getAll m.
Proof.
  intros Hk. unfold Storage.getAll. by rewrite map_to_list_insert.
Qed.

Lemma getAll_insert_stored {A} (m : gmap string A) k v0 v :
  m !! k = Some v0 ->
  Storage.getAll (<[k := v]> m) ≡ₚ v :: Storage.getAll (delete k m)
  /\ Storage.getAll m ≡ₚ v0 :: Storage.getAll (delete k m).
Proof.
  intros Hk. unfold Storage.getAll. split.
  - rewrite <- insert_delete_eq. rewrite map_to_list_insert; [done|].
    apply lookup_delete_eq.
  - by rewrite <- (map_to_list_delete m k v0 Hk).
Qed.

Lemma unread_cons a (l : list MinionAlert.t) :
  Z.of_nat (length (filter (fun a => MinionAlert.read a = false) (a :: l)))
  = Z.of_nat (length (filter (fun a => MinionAlert.read a = false) l))
    + (if MinionAlert.read a then 0 else 1).
Proof.
  destruct (MinionAlert.read a) eqn:Hr.
  - rewrite filter_cons_False by congruence. lia.
  - rewrite filter_cons_True by done. simpl length. lia.
Qed.

Lemma unreadIn_saveAlert_fresh a db :
  Storage.getAlert (MinionAlert.id a) db = None ->
  unreadIn (Storage.saveAlert a db)
  = unreadIn db + (if MinionAlert.read a then 0 else 1).
Proof.
  intros Hk. unfold unreadIn, Storage.getAllAlerts. simpl.
  rewrite getAll_insert_fresh by done. apply unread_cons.
Qed.

Lemma unreadIn_saveAlert_stored a0 a db :
  Storage.getAlert (MinionAlert.id a) db = Some a0 ->
  unreadIn (Storage.saveAlert a db) + (if MinionAlert.read a0 then 0 else 1)
  = unreadIn db + (if MinionAlert.read a then 0 else 1).
Proof.
  intros Hk. unfold unreadIn, Storage.getAllAlerts. simpl.
  destruct (getAll_insert_stored (Storage.ALERTS db) _ a0 a Hk) as [-> ->].
  rewrite !unread_cons. lia.
Qed.

Lemma unreadIn_nonneg db : 0 <= unreadIn db.
Proof. unfold unreadIn. lia. Qed.


(** ** [markAllAlertsRead] *)

Lemma markOne_lookup db a k :
  Storage.ALERTS db !! MinionAlert.id a = Some a ->
  Storage.ALERTS (Storage.markOne db a) !! k
  = if decide (k = MinionAlert.id a) then Some (MinionAlert.set_read true a)
    else Storage.ALERTS db !! k.
Proof.
  intros Ha. unfold Storage.markOne.
  destruct (MinionAlert.read a) eqn:Hr.
  - destruct (decide (k = MinionAlert.id a)) as [->|]; [|done].
    by rewrite set_read_true_id.
  - simpl. destruct (decide (k = MinionAlert.id a)) as [->|Hne].
    + by rewrite lookup_insert_eq.
    + by rewrite lookup_insert_ne.
Qed.

Lemma markAll_spec alerts : forall db k,
  NoDup (MinionAlert.id <$> alerts) ->
  (forall a, a ∈ alerts -> Storage.ALERTS db !! MinionAlert.id a = Some a) ->
  Storage.ALERTS (foldl Storage.markOne db alerts) !! k
  = if decide (k ∈ MinionAlert.id <$> alerts)
    then MinionAlert.set_read true <$> Storage.ALERTS db !! k
    else Storage.ALERTS db !! k.
Proof.
  induction alerts as [|a alerts IH]; intros db k Hnd Hin.
  - simpl. destruct (decide (k ∈ [])) as [Hk|_]; [by inversion Hk | done].
  - cbn [foldl]. rewrite fmap_cons in *. apply NoDup_cons in Hnd as [Hna Hnd].
    assert (Ha : Storage.ALERTS db !! MinionAlert.id a = Some a)
      by (apply Hin; left).
    rewrite IH; [|done|].
    2:{ intros b Hb. rewrite markOne_lookup by done.
        destruct (decide (MinionAlert.id b = MinionAlert.id a)) as [Heq|_].
        - exfalso. apply Hna. rewrite <- Heq. by apply list_elem_of_fmap_2.
        - apply Hin. by right. }
    rewrite markOne_lookup by done.
    destruct (decide (k = MinionAlert.id a)) as [->|Hne].
    + destruct (decide (MinionAlert.id a ∈ MinionAlert.id <$> alerts)); [done|].
      destruct (decide (_ ∈ _ :: _)) as [_|Hn]; [|exfalso; apply Hn; left].
      by rewrite Ha.
    + destruct (decide (k ∈ MinionAlert.id <$> alerts)) as [Hk|Hk].
      * destruct (decide (_ ∈ _ :: _)) as [_|Hn]; [done|].
        exfalso; apply Hn; by right.
      * destruct (decide (_ ∈ _ :: _)) as [Hn|_]; [|done].
        apply elem_of_cons in Hn. tauto.
Qed.

Lemma ALERTS_markAllAlertsRead db :
  Storage.keyed MinionAlert.id (Storage.ALERTS db) ->
  Storage.ALERTS (Storage.markAllAlertsRead db)
  = MinionAlert.set_read true <$> Storage.ALERTS db.
Proof.
  intros Hkeyed. apply map_eq. intros k. rewrite lookup_fmap.
  unfold Storage.markAllAlertsRead. rewrite markAll_spec.
  - destruct (decide _) as [_|Hn]; [done|].
    destruct (Storage.ALERTS db !! k) as [a|] eqn:Hk; [|done].
    exfalso. apply Hn. apply list_elem_of_fmap. exists a.
    split; [by rewrite (Hkeyed _ _ Hk)|].
    apply StorageFacts.elem_of_getAll. eauto.
  - by apply StorageFacts.getAll_ids_NoDup.
  - intros a (k' & Hk')%StorageFacts.elem_of_getAll.
    by rewrite (Hkeyed _ _ Hk').
Qed.

Lemma markAllAlertsRead_others db :
  Storage.CONFIGS (Storage.markAllAlertsRead db) = Storage.CONFIGS db
  /\ Storage.STATES (Storage.markAllAlertsRead db) = Storage.STATES db
  /\ Storage.LOGS (Storage.markAllAlertsRead db) = Storage.LOGS db.
Proof.
  unfold Storage.markAllAlertsRead. generalize (Storage.getAllAlerts db).
  intros alerts. revert db. induction alerts as [|a alerts IH]; intros db; [done|].
  cbn [foldl]. destruct (IH (Storage.markOne db a)) as (-> & -> & ->).
  unfold Storage.markOne. by destruct (MinionAlert.read a).
Qed.

Lemma keyed_fmap_set_read (m : gmap string MinionAlert.t) :
  Storage.keyed MinionAlert.id m ->
  Storage.keyed MinionAlert.id (MinionAlert.set_read true <$> m).
Proof.
  intros Hkeyed k v. rewrite lookup_fmap.
  destruct (m !! k) as [a|] eqn:Hk; [|done]. simpl. intros [= <-].
  simpl. by apply Hkeyed.
Qed.

Lemma unreadIn_all_read db :
  (forall k a, Storage.ALERTS db !! k = Some a -> MinionAlert.read a = true) ->
  unreadIn db = 0.
Proof.
  intros Hread. unfold unreadIn.
  rewrite (elem_of_nil_inv (filter _ _)); [done|].
  intros a [Hu (k & Hk)%StorageFacts.elem_of_getAll]%list_elem_of_filter.
  rewrite (Hread _ _ Hk) in Hu. done.
Qed.

(** X12. On an alert store in which every alert sits under its own id,
    [markAllRead()] sets the [read] flag of every stored alert and changes
    nothing else in the store (the same ids, the same [dismissed] flags),
    so that no stored alert is unread; the counter becomes [0] and the
    count listeners are told [0]. *)
Theorem markAllRead_reads_everything w :
  Storage.keyed MinionAlert.id (Storage.ALERTS w.2) ->
  let w' := markAllRead w in
  Storage.ALERTS w'.2 = MinionAlert.set_read true <$> Storage.ALERTS w.2
  /\ (forall k, flags k w' = (fun '(_, d) => (true, d)) <$> flags k w)
  /\ unreadIn w'.2 = 0
  /\ getUnreadCount w' = 0
  /\ countNotified w'.1 = countNotified w.1 ++ [0]
  /\ alertNotified w'.1 = alertNotified w.1.
Proof.
  destruct w as [s db]. simpl. intros Hkeyed.
  pose proof (ALERTS_markAllAlertsRead db Hkeyed) as Heq.
  repeat apply conj; try done.
  - intros k. unfold flags, Storage.getAlert. simpl. rewrite Heq, lookup_fmap.
    by destruct (Storage.ALERTS db !! k).
  - apply unreadIn_all_read. intros k a. rewrite Heq, lookup_fmap.
    destruct (Storage.ALERTS db !! k); [|done]. by intros [= <-].
Qed.


(** ** The unread counter *)

Lemma perform_keyed w op :
  Storage.keyed MinionAlert.id (Storage.ALERTS w.2) ->
  Storage.keyed MinionAlert.id (Storage.ALERTS (perform w op).2).
Proof.
  destruct w as [s db]. intros Hkeyed. destruct op as [a|id|id|]; simpl in *.
  - by apply StorageFacts.keyed_insert.
  - unfold Storage.markAlertRead, Storage.getAlert.
    destruct (Storage.ALERTS db !! id) as [a|] eqn:Ha; [|done]. simpl.
    by apply (StorageFacts.keyed_insert MinionAlert.id _ (MinionAlert.set_read true a)).
  - unfold Storage.markAlertDismissed, Storage.getAlert.
    destruct (Storage.ALERTS db !! id) as [a|] eqn:Ha; [|done]. simpl.
    by apply (StorageFacts.keyed_insert MinionAlert.id _
                (MinionAlert.set_dismissed true a)).
  - rewrite ALERTS_markAllAlertsRead by done. by apply keyed_fmap_set_read.
Qed.

Lemma perform_exact w op :
  Storage.keyed MinionAlert.id (Storage.ALERTS w.2) ->
  getUnreadCount w = unreadIn w.2 ->
  careful w op = true ->
  getUnreadCount (perform w op) = unreadIn (perform w op).2.
Proof.
  destruct w as [s db]. unfold getUnreadCount. cbn [fst snd].
  intros Hkeyed Hcount Hcareful. destruct op as [a|id|id|]; simpl in *.
  - destruct (Storage.getAlert (MinionAlert.id a) db) eqn:Hk; [done|].
    rewrite unreadIn_saveAlert_fresh by done.
    destruct (MinionAlert.read a); simpl; lia.
  - unfold Storage.markAlertRead.
    destruct (Storage.getAlert id db) as [a|] eqn:Ha; [|done].
    apply negb_true_iff in Hcareful.
    assert (Hid : MinionAlert.id (MinionAlert.set_read true a) = id)
      by (simpl; by apply Hkeyed).
    pose proof (unreadIn_saveAlert_stored a (MinionAlert.set_read true a) db) as Hs.
    rewrite Hid in Hs. specialize (Hs Ha). rewrite Hcareful in Hs. simpl in Hs.
    pose proof (unreadIn_nonneg (Storage.saveAlert (MinionAlert.set_read true a) db)).
    lia.
  - unfold Storage.markAlertDismissed.
    destruct (Storage.getAlert id db) as [a|] eqn:Ha; [|done].
    assert (Hid : MinionAlert.id (MinionAlert.set_dismissed true a) = id)
      by (simpl; by apply Hkeyed).
    pose proof (unreadIn_saveAlert_stored a (MinionAlert.set_dismissed true a) db) as Hs.
    rewrite Hid in Hs. specialize (Hs Ha). simpl in Hs. lia.
  - symmetry. apply unreadIn_all_read. intros k a.
    rewrite ALERTS_markAllAlertsRead, lookup_fmap by done.
    destruct (Storage.ALERTS db !! k); [|done]. by intros [= <-].
Qed.

(** X13. The unread counter equals the number of unread alerts in the
    store after any sequence of [pushAlert], [markRead], [markDismissed]
    and [markAllRead] calls that starts where it does, provided every
    pushed alert has an id that is not stored yet and every [markRead]
    names a stored alert that is unread. *)
Theorem unreadCount_exact_when_careful ops : forall w,
  Storage.keyed MinionAlert.id (Storage.ALERTS w.2) ->
  getUnreadCount w = unreadIn w.2 ->
  allCareful ops w = true ->
  getUnreadCount (performAll ops w) = unreadIn (performAll ops w).2
  /\ Storage.keyed MinionAlert.id (Storage.ALERTS (performAll ops w).2).
Proof.
  induction ops as [|op ops IH]; intros w Hkeyed Hcount Hcareful; [done|].
  simpl in Hcareful. apply andb_true_iff in Hcareful as [Hop Hrest].
  unfold performAll. cbn [foldl]. apply IH.
  - by apply perform_keyed.
  - by apply perform_exact.
  - exact Hrest.
Qed.

Lemma keyed_empty_alerts : Storage.keyed MinionAlert.id (Storage.ALERTS Storage.empty).
Proof. intros k v Hk. simpl in Hk. by rewrite lookup_empty in Hk. Qed.

Lemma unreadCount_exact_when_careful_witness :
  let w := (new, Storage.empty) in
  let ops := [OpPushAlert (Scenario.alert "alert-a");
              OpPushAlert (Scenario.alert "alert-b");
              OpMarkDismissed "alert-b"; OpMarkRead "alert-a";
              OpPushAlert (Scenario.alert "alert-c"); OpMarkAllRead;
              OpPushAlert (Scenario.alert "alert-d")] in
  Storage.keyed MinionAlert.id (Storage.ALERTS w.2)
  /\ getUnreadCount w = unreadIn w.2
  /\ allCareful ops w = true
  /\ getUnreadCount (performAll ops w) = unreadIn (performAll ops w).2
  /\ Storage.keyed MinionAlert.id (Storage.ALERTS (performAll ops w).2).
Proof.
  cbv zeta.
  assert (H2 : getUnreadCount (new, Storage.empty) = unreadIn (new, Storage.empty).2)
    by (vm_compute; reflexivity).
  split; [exact keyed_empty_alerts|]. split; [exact H2|].
  split; [vm_compute; reflexivity|].
  apply (unreadCount_exact_when_careful _ (new, Storage.empty) keyed_empty_alerts H2).
  vm_compute. reflexivity.
Defined.

(** X14. [markDismissed(alertId)] sets the [dismissed] flag of that alert
    and nothing else: the service (counter, notifications) is untouched,
    the number of unread alerts and every [read] flag are unchanged, an
    unknown id changes nothing, and a second call changes nothing. *)
Theorem markDismissed_leaves_unread alertId w :
  Storage.keyed MinionAlert.id (Storage.ALERTS w.2) ->
  let w' := markDismissed alertId w in
  w'.1 = w.1
  /\ unreadIn w'.2 = unreadIn w.2
  /\ (forall k, flags k w'
        = if decide (k = alertId) then (fun '(r, _) => (r, true)) <$> flags k w
          else flags k w)
  /\ (Storage.getAlert alertId w.2 = None -> w' = w)
  /\ markDismissed alertId w' = w'.
Proof.
  destruct w as [s db]. simpl. intros Hkeyed.
  unfold Storage.markAlertDismissed.
  destruct (Storage.getAlert alertId db) as [a|] eqn:Ha.
  - assert (Hid : MinionAlert.id (MinionAlert.set_dismissed true a) = alertId)
      by (simpl; by apply Hkeyed).
    repeat apply conj; try done.
    + pose proof (unreadIn_saveAlert_stored a (MinionAlert.set_dismissed true a) db) as Hs.
      rewrite Hid in Hs. specialize (Hs Ha). simpl in Hs. lia.
    + intros k. unfold flags, Storage.getAlert in *. simpl in *. rewrite Hid.
      destruct (decide (k = alertId)) as [->|Hne].
      * by rewrite lookup_insert_eq, Ha.
      * by rewrite lookup_insert_ne.
    + unfold markDismissed. f_equal. unfold Storage.markAlertDismissed, Storage.getAlert.
      simpl. simpl in Hid. rewrite Hid, lookup_insert_eq.
      unfold Storage.saveAlert, Storage.set_ALERTS. simpl. rewrite Hid.
      by rewrite insert_insert_eq.
  - repeat apply conj; try done.
    + intros k. destruct (decide (k = alertId)) as [->|]; [|done].
      unfold flags. simpl. by rewrite Ha.
    + unfold markDismissed, Storage.markAlertDismissed. by rewrite Ha.
Qed.

Lemma markDismissed_leaves_unread_witness :
  let w := pushAlert (Scenario.alert "alert-a") (new, Storage.empty) in
  let w' := markDismissed "alert-a" w in
  Storage.keyed MinionAlert.id (Storage.ALERTS w.2)
  /\ w'.1 = w.1
  /\ unreadIn w'.2 = unreadIn w.2
  /\ (forall k, flags k w'
        = if decide (k = "alert-a") then (fun '(r, _) => (r, true)) <$> flags k w
          else flags k w)
  /\ (Storage.getAlert "alert-a" w.2 = None -> w' = w)
  /\ markDismissed "alert-a" w' = w'.
Proof.
  cbv zeta.
  assert (Hk : Storage.keyed MinionAlert.id
                 (Storage.ALERTS (pushAlert (Scenario.alert "alert-a")
                                    (new, Storage.empty)).2)).
  { apply (perform_keyed (new, Storage.empty) (OpPushAlert (Scenario.alert "alert-a"))).
    exact keyed_empty_alerts. }
  split; [exact Hk|].
  exact (markDismissed_leaves_unread "alert-a" _ Hk).
Defined.

Lemma markAllRead_reads_everything_witness :
  let w := pushAlert (Scenario.alert "alert-b")
             (pushAlert (Scenario.alert "alert-a") (new, Storage.empty)) in
  let w' := markAllRead w in
  Storage.keyed MinionAlert.id (Storage.ALERTS w.2)
  /\ Storage.ALERTS w'.2 = MinionAlert.set_read true <$> Storage.ALERTS w.2
  /\ (forall k, flags k w' = (fun '(_, d) => (true, d)) <$> flags k w)
  /\ unreadIn w'.2 = 0
  /\ getUnreadCount w' = 0
  /\ countNotified w'.1 = countNotified w.1 ++ [0]
  /\ alertNotified w'.1 = alertNotified w.1.
Proof.
  cbv zeta.
  assert (Hk : Storage.keyed MinionAlert.id
                 (Storage.ALERTS (pushAlert (Scenario.alert "alert-b")
                    (pushAlert (Scenario.alert "alert-a") (new, Storage.empty))).2)).
  { apply (perform_keyed _ (OpPushAlert (Scenario.alert "alert-b"))).
    apply (perform_keyed (new, Storage.empty) (OpPushAlert (Scenario.alert "alert-a"))).
    exact keyed_empty_alerts. }
  split; [exact Hk|].
  exact (markAllRead_reads_everything _ Hk).
Defined.

End AlertCounter.

(* ===================================================================== *)
(** * The lifecycle of a minion and of the engine *)
(* ===================================================================== *)

Module Lifecycle.
Import MinionEngine.
Import MinionEngineFacts.

(** What a lifecycle call keeps of a state: the cursors and the counters. *)
Lemma refreshed_kept now s :
  MinionState.lastMessageIds (refreshed now s) = MinionState.lastMessageIds s
  /\ MinionState.lastKnownMembers (refreshed now s) = MinionState.lastKnownMembers s
  /\ MinionState.messagesScanned (refreshed now s) = MinionState.messagesScanned s
  /\ MinionState.alertsTriggered (refreshed now s) = MinionState.alertsTriggered s
  /\ MinionState.errorsCount (refreshed now s) = MinionState.errorsCount s
  /\ MinionState.startedAt (refreshed now s) = MinionState.startedAt s
  /\ MinionState.id (refreshed now s) = MinionState.id s.
Proof. unfold refreshed. by destruct (uptime_base s). Qed.


Lemma progress_refreshed now s : progress (refreshed now s) = progress s.
Proof. unfold refreshed. by destruct (uptime_base s). Qed.

Lemma progress_status s v :
  progress (MinionState.spread s (just_status v)) = progress s.
Proof. reflexivity. Qed.

Lemma clearTimer_unfold id e : clearTimer id e = set_timers (delete id (timers e)) e.
Proof.
  unfold clearTimer. destruct (timers e !! id) eqn:Ht; [done|].
  rewrite delete_id by done. by destruct e.
Qed.

(** ** [stopMinion] and [pauseMinion] *)

Lemma halt_fields (s : MinionStatus) (message : string) id now logId e :
  let e' := notifyListeners
              (log id level_info message now logId
                 (persistState id
                    (updateState id (just_status s) now (clearTimer id e)))) in
  timers e' = delete id (timers e)
  /\ configs e' = configs e
  /\ rateLimiter e' = rateLimiter e
  /\ alertService e' = alertService e
  /\ minionPollFunctions e' = minionPollFunctions e
  /\ Storage.CONFIGS (db e') = Storage.CONFIGS (db e)
  /\ Storage.ALERTS (db e') = Storage.ALERTS (db e)
  /\ match states e !! id with
     | None => states e' = states e /\ Storage.STATES (db e') = Storage.STATES (db e)
     | Some current =>
         let halted := refreshed now (MinionState.spread current (just_status s)) in
         states e' = <[id := halted]> (states e)
         /\ Storage.STATES (db e')
            = <[MinionState.id current := halted]> (Storage.STATES (db e))
     end.
Proof.
  cbv zeta. rewrite clearTimer_unfold. unfold updateState, persistState. simpl.
  destruct (states e !! id) as [current|] eqn:Hs; simpl.
  - rewrite lookup_insert_eq. simpl.
    destruct (refreshed_kept now (MinionState.spread current (just_status s)))
      as (_ & _ & _ & _ & _ & _ & ->).
    by repeat apply conj.
  - rewrite Hs. by repeat apply conj.
Qed.


Lemma status_refreshed_spread now current s :
  MinionState.status (refreshed now (MinionState.spread current (just_status s))) = s.
Proof. by rewrite refreshed_status. Qed.

Lemma progress_halted now current s :
  progress (refreshed now (MinionState.spread current (just_status s)))
  = progress current.
Proof. by rewrite progress_refreshed. Qed.

Lemma startedAt_halted now current s :
  MinionState.startedAt (refreshed now (MinionState.spread current (just_status s)))
  = MinionState.startedAt current.
Proof.
  by destruct (refreshed_kept now (MinionState.spread current (just_status s)))
    as (_ & _ & _ & _ & _ & -> & _).
Qed.

Lemma lastError_halted now current s :
  MinionState.lastError (refreshed now (MinionState.spread current (just_status s)))
  = MinionState.lastError current.
Proof. by rewrite refreshed_lastError. Qed.

(** X17. [stopMinion] and [pauseMinion] on a known minion clear its
    timer, set its status to ['stopped'] resp. ['paused'] and store the
    state: what the database holds for the minion afterwards is the
    in-memory state.  Cursors and counters are kept, the configs are
    untouched, and a timer callback that still fires finds nothing to
    do. *)
Theorem stop_and_pause_persist id now logId e current :
  states e !! id = Some current ->
  MinionState.id current = id ->
  let halted (e' : t) (s : MinionStatus) :=
    statusOf id e' = Some s
    /\ timers e' !! id = None
    /\ Storage.getState id (db e') = states e' !! id
    /\ progress <$> states e' !! id = Some (progress current)
    /\ (forall now' logId', executePoll_begin id now' logId' e' = None)
    /\ configs e' = configs e in
  halted (stopMinion id now logId e) stopped
  /\ halted (pauseMinion id now logId e) paused.
Proof.
  intros Hs Hid. cbv zeta.
  assert (Hgen : forall s message, s <> running ->
    let e' := notifyListeners
                (log id level_info message now logId
                   (persistState id
                      (updateState id (just_status s) now (clearTimer id e)))) in
    statusOf id e' = Some s
    /\ timers e' !! id = None
    /\ Storage.getState id (db e') = states e' !! id
    /\ progress <$> states e' !! id = Some (progress current)
    /\ (forall now' logId', executePoll_begin id now' logId' e' = None)
    /\ configs e' = configs e).
  { intros s message Hnr e'.
    destruct (halt_fields s message id now logId e)
      as (Ht & Hc & _ & _ & _ & _ & _ & Hst).
    fold e' in Ht, Hc, Hst. rewrite Hs in Hst. cbv zeta in Hst.
    destruct Hst as [Hst Hdb]. rewrite Hid in Hdb.
    assert (Hstatus : statusOf id e' = Some s).
    { unfold statusOf. rewrite Hst, lookup_insert_eq. simpl.
      by rewrite status_refreshed_spread. }
    repeat apply conj.
    - exact Hstatus.
    - rewrite Ht. apply lookup_delete_eq.
    - unfold Storage.getState. by rewrite Hdb, Hst, !lookup_insert_eq.
    - rewrite Hst, lookup_insert_eq. simpl. by rewrite progress_halted.
    - intros now' logId'. apply executePoll_begin_not_running.
      rewrite Hstatus. congruence.
    - exact Hc. }
  split; [exact (Hgen stopped "Minion stopped" ltac:(done))
         | exact (Hgen paused "Minion paused" ltac:(done))].
Qed.

Lemma pause_resume_spec id now1 logId1 now2 logId2 rnd e config current :
  configs e !! id = Some config ->
  states e !! id = Some current ->
  let e' := resumeMinion id now2 logId2 rnd (pauseMinion id now1 logId1 e) in
  exists resumed,
    states e' !! id = Some resumed
    /\ MinionState.status resumed = running
    /\ progress resumed = progress current
    /\ MinionState.startedAt resumed = MinionState.startedAt current
    /\ MinionState.lastError resumed = MinionState.lastError current
    /\ timers e' !! id
       = Some {| armedAt := now2;
                 delay := Float64.add
                           (Qmax (MinionConfig.pollIntervalMs config) 30000)
                           (Float64.mul rnd 5000) |}
    /\ MinionState.nextPollAt resumed
       = Float64.add
           (Float64.add (inject_Z now2)
              (Qmax (MinionConfig.pollIntervalMs config) 30000))
           (Float64.mul rnd 5000).
Proof.
  intros Hc Hs e'.
  destruct (halt_fields paused "Minion paused" id now1 logId1 e)
    as (Ht & Hcfg & _ & _ & _ & _ & _ & Hst).
  rewrite Hs in Hst. cbv zeta in Hst. destruct Hst as [Hst _].
  change (notifyListeners _) with (pauseMinion id now1 logId1 e) in Ht, Hcfg, Hst.
  set (e1 := pauseMinion id now1 logId1 e) in *.
  set (p := refreshed now1 (MinionState.spread current (just_status paused))) in *.
  assert (Hp : states e1 !! id = Some p) by (by rewrite Hst, lookup_insert_eq).
  assert (Hpaused : MinionState.status p = paused) by apply status_refreshed_spread.
  subst e'. unfold resumeMinion. rewrite Hp.
  destruct (decide (MinionState.status p = paused)) as [_|Hn]; [|done].
  set (r := refreshed now2 (MinionState.spread p (just_status running))).
  set (e2 := log id level_info "Minion resumed" now2 logId2
               (updateState id (just_status running) now2 e1)).
  assert (Hr : states e2 !! id = Some r).
  { unfold e2. rewrite log_states. by apply updateState_states. }
  assert (Hc2 : configs e2 !! id = Some config).
  { unfold e2. by rewrite log_configs, updateState_configs, Hcfg. }
  assert (Hrun : MinionState.status r = running) by apply status_refreshed_spread.
  destruct (schedulePoll_armed id now2 rnd e2 config r Hc2 Hr Hrun) as (Htm & Hst2 & _).
  eexists. split; [rewrite notifyListeners_states; exact Hst2|].
  destruct (refreshed_kept now2
              (MinionState.spread r
                 (MinionState.with_nextPollAt
                    (Float64.add
                       (Float64.add (inject_Z now2)
                          (Qmax (MinionConfig.pollIntervalMs config) 30000))
                       (Float64.mul rnd 5000)) MinionState.nothing)))
    as (_ & _ & _ & _ & _ & Hstarted & _).
  repeat apply conj.
  - by rewrite refreshed_status.
  - rewrite progress_refreshed.
    change (progress r = progress current). unfold r.
    rewrite progress_halted. unfold p. by rewrite progress_halted.
  - rewrite Hstarted.
    change (MinionState.startedAt r = MinionState.startedAt current).
    unfold r. rewrite startedAt_halted. unfold p. by rewrite startedAt_halted.
  - rewrite refreshed_lastError.
    change (MinionState.lastError r = MinionState.lastError current).
    unfold r. rewrite lastError_halted. unfold p. by rewrite lastError_halted.
  - exact Htm.
  - by rewrite refreshed_nextPollAt.
Qed.

Lemma resumeMinion_not_paused id now logId rnd e :
  statusOf id e <> Some paused -> resumeMinion id now logId rnd e = e.
Proof.
  unfold statusOf, resumeMinion. intros Hn.
  destruct (states e !! id) as [state|]; [|done]. simpl in Hn.
  destruct (decide (MinionState.status state = paused)) as [Heq|_]; [|done].
  by rewrite Heq in Hn.
Qed.


(** ** [startMinion] *)

Lemma log_timers minionId level message now logId e :
  timers (log minionId level message now logId e) = timers e.
Proof. reflexivity. Qed.

Lemma log_db_others minionId level message now logId e :
  Storage.CONFIGS (db (log minionId level message now logId e)) = Storage.CONFIGS (db e)
  /\ Storage.STATES (db (log minionId level message now logId e)) = Storage.STATES (db e)
  /\ Storage.ALERTS (db (log minionId level message now logId e)) = Storage.ALERTS (db e).
Proof. done. Qed.

Lemma schedulePoll_frame id now rnd e :
  configs (schedulePoll id now rnd e) = configs e
  /\ db (schedulePoll id now rnd e) = db e
  /\ minionPollFunctions (schedulePoll id now rnd e) = minionPollFunctions e
  /\ alertService (schedulePoll id now rnd e) = alertService e
  /\ notified (schedulePoll id now rnd e) = notified e
  /\ (forall other, other <> id ->
        states (schedulePoll id now rnd e) !! other = states e !! other
        /\ timers (schedulePoll id now rnd e) !! other = timers e !! other).
Proof.
  unfold schedulePoll.
  destruct (configs e !! id) as [config|]; [|done].
  destruct (states e !! id) as [state|] eqn:Hs; [|done].
  destruct (decide (MinionState.status state = running)); [|done].
  unfold updateState. simpl. rewrite Hs. simpl.
  repeat apply conj; try done.
  intros other Hne. by rewrite !lookup_insert_ne.
Qed.

Lemma updateState_frame id updates now e other :
  other <> id -> states (updateState id updates now e) !! other = states e !! other.
Proof.
  intros Hne. unfold updateState. destruct (states e !! id); [|done].
  simpl. by rewrite lookup_insert_ne.
Qed.

Lemma startMinion_frame id now logId rnd e :
  let r := startMinion id now logId rnd e in
  configs r.1 = configs e
  /\ minionPollFunctions r.1 = minionPollFunctions e
  /\ Storage.CONFIGS (db r.1) = Storage.CONFIGS (db e)
  /\ Storage.STATES (db r.1) = Storage.STATES (db e)
  /\ Storage.ALERTS (db r.1) = Storage.ALERTS (db e)
  /\ (forall other, other <> id ->
        states r.1 !! other = states e !! other
        /\ timers r.1 !! other = timers e !! other).
Proof.
  cbv zeta. unfold startMinion.
  destruct (configs e !! id) as [config|]; [|done].
  destruct (minionPollFunctions e (MinionConfig.type config)); cbn [fst].
  - match goal with |- context [schedulePoll id now rnd ?x] =>
      destruct (schedulePoll_frame id now rnd x) as (Hc & Hdb & Hf & _ & _ & Hother);
      set (e2 := x) in *
    end.
    assert (He2 : configs e2 = configs e /\ minionPollFunctions e2 = minionPollFunctions e
                  /\ Storage.CONFIGS (db e2) = Storage.CONFIGS (db e)
                  /\ Storage.STATES (db e2) = Storage.STATES (db e)
                  /\ Storage.ALERTS (db e2) = Storage.ALERTS (db e)).
    { unfold e2. rewrite log_configs, updateState_configs, clearTimer_configs.
      simpl. rewrite updateState_db, clearTimer_db. repeat apply conj; try done.
      unfold updateState, clearTimer.
      destruct (timers e !! id); by destruct (states _ !! id). }
    destruct He2 as (H1 & H2 & H3 & H4 & H5).
    simpl. rewrite Hc, Hf, Hdb. repeat apply conj; try done.
    intros other Hne. destruct (Hother other Hne) as [-> ->].
    unfold e2. rewrite log_states, log_timers, updateState_timers.
    rewrite updateState_frame by done. rewrite clearTimer_states.
    rewrite clearTimer_unfold. simpl. by rewrite lookup_delete_ne.
  - rewrite updateState_configs, updateState_db, updateState_timers.
    repeat apply conj; try done.
    + unfold updateState. by destruct (states _ !! id).
    + intros other Hne. by rewrite updateState_frame.
Qed.

Lemma startMinion_refused id now logId rnd e config :
  configs e !! id = Some config ->
  minionPollFunctions e (MinionConfig.type config) = false ->
  let r := startMinion id now logId rnd e in
  r.2 = false
  /\ states r.1 !! id
     = (fun current =>
          refreshed now
            (MinionState.spread current
               (MinionState.with_lastError
                  (Some ("No handler for type: " +:+ typeName (MinionConfig.type config)))
                  (MinionState.with_status error MinionState.nothing))))
       <$> states e !! id
  /\ statusOf id r.1 = (fun _ => error) <$> states e !! id
  /\ timers r.1 = timers e
  /\ configs r.1 = configs e
  /\ notified r.1 = notified e
  /\ (forall now' logId', executePoll_begin id now' logId' r.1 = None)
  /\ exists entry,
       Storage.LOGS (db r.1) = <[logId := entry]> (Storage.LOGS (db e))
       /\ MinionLogEntry.level entry = level_error
       /\ MinionLogEntry.minionId entry = id.
Proof.
  intros Hc Hf r. subst r. unfold startMinion. rewrite Hc, Hf. cbn [fst snd].
  set (e1 := log id level_error _ now logId e).
  assert (Hst : states e1 = states e) by reflexivity.
  unfold updateState. rewrite Hst.
  destruct (states e !! id) as [current|] eqn:Hs; simpl.
  - rewrite lookup_insert_eq. split; [done|]. split; [done|].
    unfold statusOf. simpl. rewrite lookup_insert_eq. simpl.
    rewrite refreshed_status. split; [done|]. repeat apply conj; try done.
    + intros now' logId'. unfold executePoll_begin. simpl. rewrite Hc. simpl.
      rewrite lookup_insert_eq. simpl. rewrite refreshed_status. simpl.
      by destruct (decide (error = running)).
    + eexists. split; [reflexivity|]. done.
  - rewrite Hs. unfold statusOf. simpl. rewrite Hs. repeat apply conj; try done.
    + intros now' logId'. unfold executePoll_begin. simpl. rewrite Hc, Hs. done.
    + eexists. split; [reflexivity|]. done.
Qed.

Lemma startMinion_started id now logId rnd e config current :
  configs e !! id = Some config ->
  minionPollFunctions e (MinionConfig.type config) = true ->
  states e !! id = Some current ->
  let r := startMinion id now logId rnd e in
  r.2 = true
  /\ exists started,
       states r.1 !! id = Some started
       /\ MinionState.status started = running
       /\ MinionState.startedAt started = Some now
       /\ MinionState.lastError started = None
       /\ progress started = progress current
       /\ timers r.1 !! id
          = Some {| armedAt := now;
                    delay := Float64.add
                              (Qmax (MinionConfig.pollIntervalMs config) 30000)
                              (Float64.mul rnd 5000) |}
       /\ MinionState.nextPollAt started
          = Float64.add
              (Float64.add (inject_Z now)
                 (Qmax (MinionConfig.pollIntervalMs config) 30000))
              (Float64.mul rnd 5000)
       /\ Storage.STATES (db r.1) = Storage.STATES (db e)
       /\ configs r.1 = configs e.
Proof.
  intros Hc Hf Hs r. subst r. unfold startMinion. rewrite Hc, Hf. cbn [fst snd].
  split; [done|].
  set (upd := MinionState.with_startedAt (Some now)
                (MinionState.with_lastError None
                   (MinionState.with_status running MinionState.nothing))).
  set (s1 := refreshed now (MinionState.spread current upd)).
  set (e2 := log id level_info _ now logId (updateState id upd now (clearTimer id e))).
  assert (Hs2 : states e2 !! id = Some s1).
  { unfold e2. rewrite log_states. apply updateState_states.
    by rewrite clearTimer_states. }
  assert (Hc2 : configs e2 = configs e).
  { unfold e2. by rewrite log_configs, updateState_configs, clearTimer_configs. }
  assert (Hrun : MinionState.status s1 = running) by (unfold s1; by rewrite refreshed_status).
  assert (Hc2' : configs e2 !! id = Some config) by (by rewrite Hc2).
  destruct (schedulePoll_armed id now rnd e2 config s1 Hc2' Hs2 Hrun) as (Htm & Hst & _).
  destruct (schedulePoll_frame id now rnd e2) as (Hcf & Hdb & _).
  eexists. split; [rewrite notifyListeners_states; exact Hst|].
  set (nx := MinionState.with_nextPollAt _ MinionState.nothing).
  destruct (refreshed_kept now (MinionState.spread s1 nx))
    as (_ & _ & _ & _ & _ & Hstarted & _).
  destruct (refreshed_kept now (MinionState.spread current upd))
    as (_ & _ & _ & _ & _ & Hstarted1 & _).
  repeat apply conj.
  - by rewrite refreshed_status.
  - rewrite Hstarted. change (MinionState.startedAt s1 = Some now).
    unfold s1. by rewrite Hstarted1.
  - rewrite refreshed_lastError. change (MinionState.lastError s1 = None).
    unfold s1. by rewrite refreshed_lastError.
  - rewrite progress_refreshed. change (progress s1 = progress current).
    unfold s1. by rewrite progress_refreshed.
  - exact Htm.
  - by rewrite refreshed_nextPollAt.
  - simpl. rewrite Hdb. unfold e2. simpl. by rewrite updateState_db, clearTimer_db.
  - simpl. by rewrite Hcf.
Qed.

(** ** A poll that settles after its minion was deleted *)

(** X19. When the awaited poll of a minion settles after the minion was
    deleted (its state is gone), [executePoll] re-creates nothing: states,
    configs and timers are as they were, the config, state and alert
    stores are untouched, the limiter is reported to and released as for
    any poll, and no later timer callback polls the id.  A fulfilled poll
    leaves the log store as it is; a rejected one still writes its 'Poll
    failed' line for the deleted id. *)
Theorem settle_after_delete id state outcome now ids rnd e :
  states e !! id = None ->
  let e' := executePoll_settle id state outcome now ids rnd e in
  states e' = states e
  /\ configs e' = configs e
  /\ timers e' = timers e
  /\ Storage.CONFIGS (db e') = Storage.CONFIGS (db e)
  /\ Storage.STATES (db e') = Storage.STATES (db e)
  /\ Storage.ALERTS (db e') = Storage.ALERTS (db e)
  /\ Storage.LOGS (db e')
     = match thrownOf outcome with
       | None => Storage.LOGS (db e)
       | Some err =>
           <[failedLogId ids :=
               {| MinionLogEntry.id := failedLogId ids;
                  MinionLogEntry.minionId := id;
                  MinionLogEntry.level := level_error;
                  MinionLogEntry.message := "Poll failed: " +:+ errorMsg err;
                  MinionLogEntry.timestamp := now;
                  MinionLogEntry.data := None |}]> (Storage.LOGS (db e))
       end
  /\ rateLimiter e' = settle_rateLimiter now outcome (rateLimiter e)
  /\ forall now' logId', executePoll_begin id now' logId' e' = None.
Proof.
  intros Hs e'. subst e'. unfold executePoll_settle.
  set (e0 := set_rateLimiter _ e).
  assert (Hs0 : states e0 !! id = None) by exact Hs.
  assert (Hbegin : forall e1, states e1 = states e ->
            forall now' logId', executePoll_begin id now' logId' e1 = None).
  { intros e1 He1 now' logId'. unfold executePoll_begin. rewrite He1, Hs.
    by destruct (configs e1 !! id). }
  assert (Hcatch : forall err,
    let e' := executePoll_catch id state err now ids rnd e0 in
    states e' = states e /\ configs e' = configs e /\ timers e' = timers e
    /\ Storage.CONFIGS (db e') = Storage.CONFIGS (db e)
    /\ Storage.STATES (db e') = Storage.STATES (db e)
    /\ Storage.ALERTS (db e') = Storage.ALERTS (db e)
    /\ Storage.LOGS (db e')
       = <[failedLogId ids :=
             {| MinionLogEntry.id := failedLogId ids;
                MinionLogEntry.minionId := id;
                MinionLogEntry.level := level_error;
                MinionLogEntry.message := "Poll failed: " +:+ errorMsg err;
                MinionLogEntry.timestamp := now;
                MinionLogEntry.data := None |}]> (Storage.LOGS (db e))
    /\ rateLimiter e' = rateLimiter e0).
  { intros err. cbv zeta. unfold executePoll_catch, executePoll_failed.
    rewrite (updateState_none _ _ _ _ Hs0). rewrite log_states, Hs0.
    unfold executePoll_reschedule. rewrite log_states, Hs0. done. }
  destruct outcome as [stateUpdates|err|]; cbn [thrownOf].
  - unfold executePoll_succeeded. rewrite (updateState_none _ _ _ _ Hs0).
    unfold persistState. rewrite Hs0. unfold executePoll_reschedule. rewrite Hs0.
    repeat apply conj; try done. by apply Hbegin.
  - destruct (Hcatch err) as (H1 & H2 & H3 & H4 & H5 & H6 & H7 & H8).
    repeat apply conj; try done. by apply Hbegin.
  - destruct (Hcatch limiterReset) as (H1 & H2 & H3 & H4 & H5 & H6 & H7 & H8).
    repeat apply conj; try done. by apply Hbegin.
Qed.

(** ** emitAlert *)

(** X20. [emitAlert(alert)] stores the alert under its id, hands it to
    the alert service (the unread counter grows by one unless the alert is
    already read) and adds one to [alertsTriggered] of the alert's minion
    when the engine knows it; the minion's status, the other minions,
    timers, configs and the limiter are untouched, and the listeners are
    notified once. *)
Theorem emitAlert_records alert now logId e :
  let e' := emitAlert alert now logId e in
  let m := MinionAlert.minionId alert in
  Storage.getAlert (MinionAlert.id alert) (db e') = Some alert
  /\ MinionState.alertsTriggered <$> states e' !! m
     = (fun s => MinionState.alertsTriggered s + 1) <$> states e !! m
  /\ statusOf m e' = statusOf m e
  /\ (forall other, other <> m -> states e' !! other = states e !! other)
  /\ AlertService.unreadCount (alertService e')
     = AlertService.unreadCount (alertService e)
       + (if MinionAlert.read alert then 0 else 1)
  /\ AlertService.alertNotified (alertService e')
     = AlertService.alertNotified (alertService e) ++ [MinionAlert.id alert]
  /\ timers e' = timers e
  /\ configs e' = configs e
  /\ rateLimiter e' = rateLimiter e
  /\ notified e' = S (notified e).
Proof.
  cbv zeta. unfold emitAlert, AlertService.pushAlert. cbn [fst snd].
  set (svc := AlertService.notifyAlertListeners alert _).
  set (e1 := log (MinionAlert.minionId alert) level_info _ now logId _).
  assert (Hst : states e1 = states e) by reflexivity.
  assert (Halert : Storage.getAlert (MinionAlert.id alert) (db e1) = Some alert).
  { unfold Storage.getAlert. simpl. by rewrite lookup_insert_eq. }
  assert (Hsvc : AlertService.unreadCount svc
                 = AlertService.unreadCount (alertService e)
                   + (if MinionAlert.read alert then 0 else 1)).
  { unfold svc. simpl. destruct (MinionAlert.read alert); simpl; lia. }
  assert (Hnot : AlertService.alertNotified svc
                 = AlertService.alertNotified (alertService e) ++ [MinionAlert.id alert]).
  { unfold svc. simpl. by destruct (MinionAlert.read alert). }
  rewrite Hst.
  destruct (states e !! MinionAlert.minionId alert) as [state|] eqn:Hs.
  - unfold updateState. rewrite Hst, Hs. unfold statusOf. simpl.
    rewrite lookup_insert_eq. simpl.
    destruct (refreshed_kept now
                (MinionState.spread state
                   (MinionState.with_alertsTriggered
                      (MinionState.alertsTriggered state + 1) MinionState.nothing)))
      as (_ & _ & _ & -> & _).
    rewrite refreshed_status. rewrite Hs. simpl.
    repeat apply conj; try done.
    intros other Hne. by rewrite lookup_insert_ne.
  - unfold statusOf. simpl. rewrite Hs. simpl. repeat apply conj; try done.
Qed.


(** ** updateMinion / createMinion *)

(** X22. [updateMinion(id, updates)] returns [undefined] and changes
    nothing for an unknown id.  For a known one it stores the merged
    config under [id] in memory and in the database: the id cannot be
    changed by [updates], [updatedAt] is the time of the call, the other
    keys are those of [updates] where present and those of the old config
    otherwise.  It never touches states
    or timers: a running minion keeps its pending timer (armed with the
    old interval) and keeps running when [enabled] is set to [false]. *)
Theorem updateMinion_keeps_schedule id updates now logId e :
  let r := updateMinion id updates now logId e in
  (configs e !! id = None -> r = (e, None))
  /\ (forall config, configs e !! id = Some config ->
      exists updated,
        r.2 = Some updated
        /\ configs r.1 !! id = Some updated
        /\ Storage.getConfig id (db r.1) = Some updated
        /\ MinionConfig.id updated = id
        /\ MinionConfig.updatedAt updated = now
        /\ MinionConfig.createdAt updated
           = default (MinionConfig.createdAt config) (MinionConfig.createdAt' updates)
        /\ MinionConfig.enabled updated
           = default (MinionConfig.enabled config) (MinionConfig.enabled' updates)
        /\ MinionConfig.pollIntervalMs updated
           = default (MinionConfig.pollIntervalMs config)
               (MinionConfig.pollIntervalMs' updates)
        /\ MinionConfig.name updated
           = default (MinionConfig.name config) (MinionConfig.name' updates)
        /\ MinionConfig.type updated
           = default (MinionConfig.type config) (MinionConfig.type' updates)
        /\ MinionConfig.targetChatIds updated
           = default (MinionConfig.targetChatIds config)
               (MinionConfig.targetChatIds' updates)
        /\ MinionConfig.typeConfig updated
           = default (MinionConfig.typeConfig config)
               (MinionConfig.typeConfig' updates))
  /\ states r.1 = states e
  /\ timers r.1 = timers e
  /\ Storage.STATES (db r.1) = Storage.STATES (db e)
  /\ (forall other, other <> id -> configs r.1 !! other = configs e !! other).
Proof.
  cbv zeta. unfold updateMinion.
  destruct (configs e !! id) as [config|] eqn:Hc.
  - cbn [fst snd]. repeat apply conj; try done.
    + intros config' [= <-]. eexists. split; [reflexivity|]. simpl.
      unfold Storage.getConfig. simpl. rewrite !lookup_insert_eq. by repeat apply conj.
    + intros other Hne. simpl. by rewrite lookup_insert_ne.
  - cbn [fst snd]. repeat apply conj; try done.
Qed.

(** X21. [createMinion(config)] stores the full config (generated id,
    [createdAt = updatedAt = now]) in memory and in the database and
    gives the minion a default state, which is what the database holds.
    The minion is then ['running'] with a timer armed when it is enabled
    and its type has a poll function, ['error'] when it is enabled and its
    type has none, ['stopped'] when it is not enabled; the entries of
    other ids are untouched. *)
Theorem createMinion_registers config newId now createdLogId startLogId rnd e :
  let r := createMinion config newId now createdLogId startLogId rnd e in
  let registered := minionPollFunctions e (MinionConfig.draft_type config) in
  let enabled := MinionConfig.draft_enabled config in
  configs r.1 !! newId = Some r.2
  /\ Storage.getConfig newId (db r.1) = Some r.2
  /\ MinionConfig.id r.2 = newId
  /\ MinionConfig.createdAt r.2 = now /\ MinionConfig.updatedAt r.2 = now
  /\ Storage.getState newId (db r.1) = Some (createDefaultState newId)
  /\ statusOf newId r.1
     = Some (if enabled then if registered then running else error else stopped)
  /\ progress <$> states r.1 !! newId = Some (progress (createDefaultState newId))
  /\ timers r.1 !! newId
     = (if enabled && registered
        then Some {| armedAt := now;
                     delay := Float64.add
                               (Qmax (MinionConfig.draft_pollIntervalMs config) 30000)
                               (Float64.mul rnd 5000) |}
        else timers e !! newId)
  /\ (forall other, other <> newId ->
        configs r.1 !! other = configs e !! other
        /\ states r.1 !! other = states e !! other
        /\ timers r.1 !! other = timers e !! other).
Proof.
  cbv zeta. unfold createMinion. cbn [fst snd].
  set (full := {| MinionConfig.id := newId;
                  MinionConfig.name := MinionConfig.draft_name config |}).
  set (e0 := set_states _ (set_configs _ (set_db _ e))).
  assert (Hs0 : states e0 !! newId = Some (createDefaultState newId))
    by (simpl; by rewrite lookup_insert_eq).
  unfold persistState. rewrite Hs0.
  set (e1 := log newId level_info _ now createdLogId _).
  assert (Hc1 : configs e1 !! newId = Some full)
    by (simpl; by rewrite lookup_insert_eq).
  assert (Hs1 : states e1 !! newId = Some (createDefaultState newId)) by exact Hs0.
  assert (Hf1 : minionPollFunctions e1 = minionPollFunctions e) by reflexivity.
  assert (Hframe1 : forall other, other <> newId ->
            configs e1 !! other = configs e !! other
            /\ states e1 !! other = states e !! other
            /\ timers e1 !! other = timers e !! other).
  { intros other Hne. simpl. by rewrite !lookup_insert_ne. }
  assert (Hdb1 : Storage.getConfig newId (db e1) = Some full
                 /\ Storage.getState newId (db e1) = Some (createDefaultState newId)).
  { unfold Storage.getConfig, Storage.getState. simpl. by rewrite !lookup_insert_eq. }
  change (MinionConfig.enabled full) with (MinionConfig.draft_enabled config).
  destruct (MinionConfig.draft_enabled config) eqn:Hen.
  - destruct (minionPollFunctions e (MinionConfig.draft_type config)) eqn:Hreg.
    + assert (Hreg1 : minionPollFunctions e1 (MinionConfig.type full) = true)
        by (by rewrite Hf1).
      destruct (startMinion_started newId now startLogId rnd e1 full
                  (createDefaultState newId) Hc1 Hreg1 Hs1)
        as (_ & started & Hst & Hrun & _ & _ & Hprog & Htm & _ & Hdbs & Hcfg).
      cbv zeta in Hst, Htm, Hdbs, Hcfg.
      set (r := startMinion newId now startLogId rnd e1) in *.
      destruct (startMinion_frame newId now startLogId rnd e1)
        as (_ & _ & Hdbc & _ & _ & Hother).
      cbv zeta in Hdbc, Hother. fold r in Hdbc, Hother.
      repeat apply conj.
      * simpl. by rewrite Hcfg.
      * unfold Storage.getConfig. simpl. rewrite Hdbc. apply Hdb1.
      * done.
      * done.
      * done.
      * unfold Storage.getState. simpl. rewrite Hdbs. apply Hdb1.
      * unfold statusOf. simpl. by rewrite Hst; simpl; rewrite Hrun.
      * simpl. rewrite Hst. simpl. by rewrite Hprog.
      * simpl. exact Htm.
      * intros other Hne. simpl. destruct (Hframe1 other Hne) as (<- & <- & <-).
        rewrite Hcfg. split; [done|]. by apply Hother.
    + assert (Hreg1 : minionPollFunctions e1 (MinionConfig.type full) = false)
        by (by rewrite Hf1).
      destruct (startMinion_refused newId now startLogId rnd e1 full
                  Hc1 Hreg1)
        as (_ & Hst & Hstatus & Htm & Hcfg & _ & _ & entry & Hlogs & _).
      cbv zeta in Hst, Hstatus, Htm, Hcfg, Hlogs.
      set (r := startMinion newId now startLogId rnd e1) in *.
      destruct (startMinion_frame newId now startLogId rnd e1)
        as (_ & _ & Hdbc & Hdbs & _ & Hother).
      cbv zeta in Hdbc, Hdbs, Hother. fold r in Hdbc, Hdbs, Hother.
      repeat apply conj.
      * simpl. by rewrite Hcfg.
      * unfold Storage.getConfig. simpl. rewrite Hdbc. apply Hdb1.
      * done.
      * done.
      * done.
      * unfold Storage.getState. simpl. rewrite Hdbs. apply Hdb1.
      * unfold statusOf in *. simpl. rewrite Hstatus, Hs1. done.
      * simpl. rewrite Hst, Hs1. simpl. by rewrite progress_refreshed.
      * simpl. rewrite Htm. done.
      * intros other Hne. simpl. destruct (Hframe1 other Hne) as (<- & <- & <-).
        rewrite Hcfg. split; [done|]. by apply Hother.
  - repeat apply conj; try done.
    + apply Hdb1.
    + apply Hdb1.
    + unfold statusOf. simpl. by rewrite lookup_insert_eq.
    + simpl. by rewrite lookup_insert_eq.
Qed.


(** ** Stores filled record by record *)

Lemma inserts_lookup {A} (key : A -> string) (l : list A) : forall (m : gmap string A),
  NoDup (key <$> l) ->
  (forall v, v ∈ l -> foldl (fun m v => <[key v := v]> m) m l !! key v = Some v)
  /\ (forall k, k ∉ key <$> l -> foldl (fun m v => <[key v := v]> m) m l !! k = m !! k).
Proof.
  induction l as [|a l IH]; intros m Hnd.
  - split; [intros v Hv; inversion Hv | done].
  - rewrite fmap_cons in Hnd. apply NoDup_cons in Hnd as [Ha Hnd].
    destruct (IH (<[key a := a]> m) Hnd) as [IH1 IH2].
    cbn [foldl]. split.
    + intros v Hv. apply elem_of_cons in Hv as [->|Hv]; [|by apply IH1].
      rewrite IH2 by done. apply lookup_insert_eq.
    + intros k Hk. rewrite fmap_cons, not_elem_of_cons in Hk. destruct Hk as [Hne Hk].
      rewrite IH2 by done. by apply lookup_insert_ne.
Qed.

Lemma inserts_getAll {A} (key : A -> string) (m : gmap string A) :
  Storage.keyed key m ->
  foldl (fun m v => <[key v := v]> m) ∅ (Storage.getAll m) = m.
Proof.
  intros Hkeyed. apply map_eq. intros k.
  destruct (inserts_lookup key (Storage.getAll m) ∅
              (StorageFacts.getAll_ids_NoDup key m Hkeyed)) as [H1 H2].
  destruct (m !! k) as [v|] eqn:Hk.
  - rewrite <- (Hkeyed _ _ Hk). apply H1. apply StorageFacts.elem_of_getAll. eauto.
  - rewrite H2; [done|]. intros (v & -> & Hv)%list_elem_of_fmap.
    apply StorageFacts.elem_of_getAll in Hv as (k' & Hk').
    rewrite (Hkeyed _ _ Hk') in Hk. congruence.
Qed.

Lemma saveStates_unfold l : forall db,
  foldl (fun db state => Storage.saveState state db) db l
  = Storage.set_STATES
      (foldl (fun m s => <[MinionState.id s := s]> m) (Storage.STATES db) l) db.
Proof.
  induction l as [|a l IH]; intros db; [by destruct db|].
  cbn [foldl]. by rewrite IH.
Qed.

(** ** shutdown *)

(** X24. [shutdown()] (the in-memory states being keyed by their own id)
    clears every timer, sets every in-memory state to ['stopped'] and
    stores it, cursors and counters unchanged, so that memory and database
    agree on every minion; no timer callback polls afterwards.  Configs,
    alerts and logs are untouched, [initialized] is reset, and the pruning
    interval registered by [initialize()] is not cleared. *)
Theorem shutdown_stops_everything h :
  Storage.keyed MinionState.id (states (engine h)) ->
  let h' := shutdown h in
  timers (engine h') = ∅
  /\ initialized h' = false
  /\ pruningIntervals h' = pruningIntervals h
  /\ (forall id s, states (engine h) !! id = Some s ->
        states (engine h') !! id = Some (MinionState.set_status stopped s)
        /\ Storage.getState id (db (engine h')) = Some (MinionState.set_status stopped s)
        /\ progress (MinionState.set_status stopped s) = progress s)
  /\ (forall id, states (engine h) !! id = None ->
        states (engine h') !! id = None
        /\ Storage.getState id (db (engine h')) = Storage.getState id (db (engine h)))
  /\ (forall id now logId, executePoll_begin id now logId (engine h') = None)
  /\ configs (engine h') = configs (engine h)
  /\ Storage.CONFIGS (db (engine h')) = Storage.CONFIGS (db (engine h))
  /\ Storage.ALERTS (db (engine h')) = Storage.ALERTS (db (engine h))
  /\ Storage.LOGS (db (engine h')) = Storage.LOGS (db (engine h)).
Proof.
  intros Hkeyed h'. subst h'. unfold shutdown. cbn [engine initialized pruningIntervals].
  set (e := engine h) in *.
  set (ss := MinionState.set_status stopped <$> states (set_timers ∅ e)).
  assert (Hss : forall id, ss !! id = MinionState.set_status stopped <$> states e !! id).
  { intros id. unfold ss. by rewrite lookup_fmap. }
  assert (Hk : Storage.keyed MinionState.id ss).
  { intros k v. rewrite Hss. destruct (states e !! k) as [s|] eqn:Hs; [|done].
    simpl. intros [= <-]. simpl. by apply Hkeyed. }
  rewrite saveStates_unfold.
  destruct (inserts_lookup MinionState.id (Storage.getAll ss)
              (Storage.STATES (db (set_states ss (set_timers ∅ e))))
              (StorageFacts.getAll_ids_NoDup MinionState.id ss Hk)) as [H1 H2].
  repeat apply conj; try done.
  - intros id s Hs. simpl. rewrite Hss, Hs. split; [done|]. split; [|done].
    unfold Storage.getState. simpl.
    assert (Hid : MinionState.id (MinionState.set_status stopped s) = id)
      by (simpl; by apply Hkeyed).
    rewrite <- Hid at 1. apply H1. apply StorageFacts.elem_of_getAll.
    exists id. by rewrite Hss, Hs.
  - intros id Hs. simpl. rewrite Hss, Hs. split; [done|].
    unfold Storage.getState. simpl. rewrite H2; [done|].
    intros (v & -> & Hv)%list_elem_of_fmap.
    apply StorageFacts.elem_of_getAll in Hv as (k' & Hk').
    pose proof (Hk _ _ Hk') as Hid. rewrite <- Hid, Hss, Hs in Hk'. done.
  - intros id now logId. apply executePoll_begin_not_running.
    unfold statusOf. simpl. rewrite Hss.
    by destruct (states e !! id).
Qed.


(** ** initialize *)

Lemma loads_spec stateMap cs : forall e,
  NoDup (MinionConfig.id <$> cs) ->
  let e' := foldl (loadConfig stateMap) e cs in
  timers e' = timers e
  /\ db e' = db e
  /\ minionPollFunctions e' = minionPollFunctions e
  /\ (forall c, c ∈ cs ->
        configs e' !! MinionConfig.id c = Some c
        /\ states e' !! MinionConfig.id c
           = Some (match stateMap !! MinionConfig.id c with
                   | Some existingState => MinionState.set_status stopped existingState
                   | None => createDefaultState (MinionConfig.id c)
                   end))
  /\ (forall k, k ∉ MinionConfig.id <$> cs ->
        configs e' !! k = configs e !! k /\ states e' !! k = states e !! k).
Proof.
  induction cs as [|a cs IH]; intros e Hnd.
  - cbv zeta. simpl. repeat apply conj; try done. intros c Hc. inversion Hc.
  - rewrite fmap_cons in Hnd. apply NoDup_cons in Hnd as [Ha Hnd].
    cbv zeta. cbn [foldl].
    destruct (IH (loadConfig stateMap e a) Hnd) as (Ht & Hdb & Hf & Hin & Hout).
    cbv zeta in Ht, Hdb, Hf, Hin, Hout.
    assert (Hload : timers (loadConfig stateMap e a) = timers e
                    /\ db (loadConfig stateMap e a) = db e
                    /\ minionPollFunctions (loadConfig stateMap e a)
                       = minionPollFunctions e).
    { unfold loadConfig. by destruct (stateMap !! MinionConfig.id a). }
    destruct Hload as (Ht0 & Hdb0 & Hf0).
    rewrite Ht, Hdb, Hf. repeat apply conj; try done.
    + intros c Hc. apply elem_of_cons in Hc as [->|Hc]; [|by apply Hin].
      destruct (Hout _ Ha) as [-> ->]. unfold loadConfig.
      destruct (stateMap !! MinionConfig.id a); simpl; by rewrite !lookup_insert_eq.
    + intros k Hk. rewrite fmap_cons, not_elem_of_cons in Hk. destruct Hk as [Hne Hk].
      destruct (Hout _ Hk) as [-> ->]. unfold loadConfig.
      destruct (stateMap !! MinionConfig.id a); simpl; by rewrite !lookup_insert_ne.
Qed.

Lemma autoStart_frame inputs e c :
  configs (autoStart inputs e c) = configs e
  /\ minionPollFunctions (autoStart inputs e c) = minionPollFunctions e
  /\ (forall other, other <> MinionConfig.id c ->
        states (autoStart inputs e c) !! other = states e !! other
        /\ timers (autoStart inputs e c) !! other = timers e !! other).
Proof.
  unfold autoStart. destruct (MinionConfig.enabled c); [|done].
  destruct (startMinion_frame (MinionConfig.id c)
              (startNow (inputs (MinionConfig.id c)))
              (startLogId (inputs (MinionConfig.id c)))
              (startRnd (inputs (MinionConfig.id c))) e)
    as (H1 & H2 & _ & _ & _ & H3).
  done.
Qed.

(** Where a config's turn in the second loop finds the engine: its own
    entries are as the first loop left them. *)
Lemma starts_spec inputs cs : forall e,
  NoDup (MinionConfig.id <$> cs) ->
  let e' := foldl (autoStart inputs) e cs in
  configs e' = configs e
  /\ minionPollFunctions e' = minionPollFunctions e
  /\ (forall c, c ∈ cs ->
        exists e1,
          configs e1 = configs e
          /\ minionPollFunctions e1 = minionPollFunctions e
          /\ states e1 !! MinionConfig.id c = states e !! MinionConfig.id c
          /\ timers e1 !! MinionConfig.id c = timers e !! MinionConfig.id c
          /\ states e' !! MinionConfig.id c
             = states (autoStart inputs e1 c) !! MinionConfig.id c
          /\ timers e' !! MinionConfig.id c
             = timers (autoStart inputs e1 c) !! MinionConfig.id c)
  /\ (forall k, k ∉ MinionConfig.id <$> cs ->
        states e' !! k = states e !! k /\ timers e' !! k = timers e !! k).
Proof.
  induction cs as [|a cs IH]; intros e Hnd.
  - cbv zeta. simpl. repeat apply conj; try done. intros c Hc. inversion Hc.
  - rewrite fmap_cons in Hnd. apply NoDup_cons in Hnd as [Ha Hnd].
    cbv zeta. cbn [foldl].
    destruct (IH (autoStart inputs e a) Hnd) as (Hc & Hf & Hin & Hout).
    cbv zeta in Hc, Hf, Hin, Hout.
    destruct (autoStart_frame inputs e a) as (Hc0 & Hf0 & Hother).
    rewrite Hc, Hf, Hc0, Hf0. repeat apply conj; try done.
    + intros c Hin'. apply elem_of_cons in Hin' as [->|Hin'].
      * exists e. destruct (Hout _ Ha) as [-> ->]. by repeat apply conj.
      * destruct (Hin c Hin') as (e1 & H1 & H2 & H3 & H4 & H5 & H6).
        assert (Hne : MinionConfig.id c <> MinionConfig.id a).
        { intros Heq. apply Ha. rewrite <- Heq. by apply list_elem_of_fmap_2. }
        destruct (Hother _ Hne) as [Hs Ht].
        exists e1. rewrite H1, H2, H3, H4, Hc0, Hf0, Hs, Ht. by repeat apply conj.
    + intros k Hk. rewrite fmap_cons, not_elem_of_cons in Hk. destruct Hk as [Hne Hk].
      destruct (Hout _ Hk) as [-> ->]. by apply Hother.
Qed.

Lemma progress_stopped s : progress (MinionState.set_status stopped s) = progress s.
Proof. reflexivity. Qed.

(** X23. [initialize()] on a fresh engine object over a database whose
    configs and states sit under their own ids: every stored config is
    loaded; its minion is ['running'] with a timer armed at its start when
    the config is enabled and its type has a poll function, ['error'] when
    it is enabled and its type has none, ['stopped'] otherwise, whatever
    status was stored (a minion stored as ['paused'] or ['error'] does not
    come back so); its cursors and counters are the stored ones, or those
    of a default state.  Stored states without a config are not loaded,
    and a second [initialize()] does nothing. *)
Theorem initialize_restarts_from_stopped now inputs registered database :
  Storage.keyed MinionConfig.id (Storage.CONFIGS database) ->
  Storage.keyed MinionState.id (Storage.STATES database) ->
  let h := initialize now inputs (fresh registered database) in
  let e := engine h in
  initialized h = true
  /\ engineStartTime h = now
  /\ (forall id config, Storage.CONFIGS database !! id = Some config ->
        configs e !! id = Some config
        /\ exists st,
             states e !! id = Some st
             /\ MinionState.status st
                = (if MinionConfig.enabled config
                   then if registered (MinionConfig.type config) then running else error
                   else stopped)
             /\ progress st
                = progress (default (createDefaultState id)
                              (Storage.STATES database !! id))
             /\ timers e !! id
                = (if MinionConfig.enabled config && registered (MinionConfig.type config)
                   then Some {| armedAt := startNow (inputs id);
                                delay := Float64.add
                                          (Qmax (MinionConfig.pollIntervalMs config) 30000)
                                          (Float64.mul (startRnd (inputs id)) 5000) |}
                   else None))
  /\ (forall id, Storage.CONFIGS database !! id = None ->
        configs e !! id = None /\ states e !! id = None /\ timers e !! id = None)
  /\ (forall now' inputs', initialize now' inputs' h = h).
Proof.
  intros Hkc Hks h e. subst e h. unfold initialize.
  cbn [initialized fresh engine engineStartTime db].
  set (e0 := {| timers := ∅; states := ∅; configs := ∅;
                minionPollFunctions := registered; db := database;
                rateLimiter := RateLimiter.new RateLimiter.GLOBAL_CONFIG;
                alertService := AlertService.new; notified := 0 |}).
  set (cs := Storage.getAllConfigs database).
  assert (Hsm : stateMapOf (Storage.getAllStates database) = Storage.STATES database)
    by (by apply inserts_getAll).
  rewrite Hsm.
  assert (Hnd : NoDup (MinionConfig.id <$> cs))
    by (by apply StorageFacts.getAll_ids_NoDup).
  destruct (loads_spec (Storage.STATES database) cs e0 Hnd)
    as (Ht1 & Hdb1 & Hf1 & Hin1 & Hout1).
  cbv zeta in Ht1, Hdb1, Hf1, Hin1, Hout1.
  set (e1 := foldl (loadConfig (Storage.STATES database)) e0 cs) in *.
  destruct (starts_spec inputs cs e1 Hnd) as (Hc2 & Hf2 & Hin2 & Hout2).
  cbv zeta in Hc2, Hf2, Hin2, Hout2.
  set (e2 := foldl (autoStart inputs) e1 cs) in *.
  assert (Hmem : forall id config,
            Storage.CONFIGS database !! id = Some config ->
            config ∈ cs /\ MinionConfig.id config = id).
  { intros id config Hc. split; [|by apply Hkc].
    apply StorageFacts.elem_of_getAll. eauto. }
  assert (Hnot : forall id, Storage.CONFIGS database !! id = None ->
            id ∉ MinionConfig.id <$> cs).
  { intros id Hc (c & -> & Hin)%list_elem_of_fmap.
    apply StorageFacts.elem_of_getAll in Hin as (k & Hk).
    rewrite <- (Hkc _ _ Hk) in Hk. congruence. }
  cbn [engine initialized engineStartTime].
  repeat apply conj; try done.
  - intros id config Hc. destruct (Hmem id config Hc) as [Hin Hid].
    destruct (Hin1 config Hin) as [Hcfg1 Hst1]. rewrite Hid in Hcfg1, Hst1.
    destruct (Hin2 config Hin) as (e' & H1 & H2 & H3 & H4 & H5 & H6).
    rewrite Hid in H3, H4, H5, H6.
    split; [simpl; by rewrite Hc2|].
    set (s0 := match Storage.STATES database !! id with
               | Some existingState => MinionState.set_status stopped existingState
               | None => createDefaultState id
               end) in *.
    assert (Hs0 : MinionState.status s0 = stopped
                  /\ progress s0 = progress (default (createDefaultState id)
                                               (Storage.STATES database !! id))).
    { unfold s0. by destruct (Storage.STATES database !! id). }
    destruct Hs0 as [Hstat0 Hprog0].
    assert (Hce : configs e' !! id = Some config) by (by rewrite H1).
    assert (Hse : states e' !! id = Some s0) by (by rewrite H3).
    assert (Hte : timers e' !! id = None) by (by rewrite H4, Ht1).
    rewrite notifyListeners_states. simpl timers. rewrite H5, H6.
    unfold autoStart. rewrite Hid.
    destruct (MinionConfig.enabled config) eqn:Hen.
    + destruct (registered (MinionConfig.type config)) eqn:Hreg.
      * assert (Hreg' : minionPollFunctions e' (MinionConfig.type config) = true)
          by (by rewrite H2, Hf1).
        destruct (startMinion_started id (startNow (inputs id)) (startLogId (inputs id))
                    (startRnd (inputs id)) e' config s0 Hce Hreg' Hse)
          as (_ & started & Hst & Hrun & _ & _ & Hprog & Htm & _).
        exists started. by rewrite Hprog.
      * assert (Hreg' : minionPollFunctions e' (MinionConfig.type config) = false)
          by (by rewrite H2, Hf1).
        destruct (startMinion_refused id (startNow (inputs id)) (startLogId (inputs id))
                    (startRnd (inputs id)) e' config Hce Hreg')
          as (_ & Hst & _ & Htm & _).
        cbv zeta in Hst, Htm. rewrite Hse in Hst. simpl in Hst.
        eexists. split; [exact Hst|]. rewrite refreshed_status, progress_refreshed.
        rewrite Htm. done.
    + exists s0. done.
  - intros id Hc. destruct (Hout1 id (Hnot id Hc)) as [Hcfg Hst].
    destruct (Hout2 id (Hnot id Hc)) as [Hst2 Htm2].
    simpl. by rewrite Hc2, Hcfg, Hst2, Hst, Htm2, Ht1.
Qed.


(** ** The extras on [startMinion], [pauseMinion] and [resumeMinion] *)

(** X15. [startMinion(id)] on a known minion whose type has a poll
    function returns [true]: the minion is ['running'] with [startedAt =
    now] and [lastError] cleared, a timer is armed for [max(pollIntervalMs,
    30000) + rnd * 5000] ms (a sum of doubles), and the cursors and
    counters are kept (in particular [errorsCount] is not reset).  The
    state is not stored: the state store of the database is as it was. *)
Theorem startMinion_keeps_progress id now logId rnd e config current :
  configs e !! id = Some config ->
  minionPollFunctions e (MinionConfig.type config) = true ->
  states e !! id = Some current ->
  let r := startMinion id now logId rnd e in
  r.2 = true
  /\ exists started,
       states r.1 !! id = Some started
       /\ MinionState.status started = running
       /\ MinionState.startedAt started = Some now
       /\ MinionState.lastError started = None
       /\ progress started = progress current
       /\ timers r.1 !! id
          = Some {| armedAt := now;
                    delay := Float64.add
                              (Qmax (MinionConfig.pollIntervalMs config) 30000)
                              (Float64.mul rnd 5000) |}
       /\ MinionState.nextPollAt started
          = Float64.add
              (Float64.add (inject_Z now)
                 (Qmax (MinionConfig.pollIntervalMs config) 30000))
              (Float64.mul rnd 5000)
       /\ Storage.STATES (db r.1) = Storage.STATES (db e)
       /\ configs r.1 = configs e.
Proof. intros Hc Hf Hs. by apply startMinion_started. Qed.

Lemma startMinion_keeps_progress_witness :
  let e := Scenario.created in
  let current := createDefaultState "minion-1" in
  let r := startMinion "minion-1" Scenario.T0 "log-start" (1 # 2) e in
  (configs e !! "minion-1" = Some Scenario.watcher
   /\ minionPollFunctions e (MinionConfig.type Scenario.watcher) = true
   /\ states e !! "minion-1" = Some current)
  /\ r.2 = true
  /\ exists started,
       states r.1 !! "minion-1" = Some started
       /\ MinionState.status started = running
       /\ MinionState.startedAt started = Some Scenario.T0
       /\ MinionState.lastError started = None
       /\ progress started = progress current
       /\ timers r.1 !! "minion-1"
          = Some {| armedAt := Scenario.T0;
                    delay := Float64.add
                              (Qmax (MinionConfig.pollIntervalMs Scenario.watcher) 30000)
                              (Float64.mul (1 # 2) 5000) |}
       /\ MinionState.nextPollAt started
          = Float64.add
              (Float64.add (inject_Z Scenario.T0)
                 (Qmax (MinionConfig.pollIntervalMs Scenario.watcher) 30000))
              (Float64.mul (1 # 2) 5000)
       /\ Storage.STATES (db r.1) = Storage.STATES (db e)
       /\ configs r.1 = configs e.
Proof.
  cbv zeta.
  assert (H1 : configs Scenario.created !! "minion-1" = Some Scenario.watcher)
    by (vm_compute; reflexivity).
  assert (H2 : minionPollFunctions Scenario.created
                 (MinionConfig.type Scenario.watcher) = true) by reflexivity.
  assert (H3 : states Scenario.created !! "minion-1"
               = Some (createDefaultState "minion-1")) by (vm_compute; reflexivity).
  split; [exact (conj H1 (conj H2 H3))|].
  exact (startMinion_keeps_progress "minion-1" Scenario.T0 "log-start" (1 # 2)
           Scenario.created Scenario.watcher (createDefaultState "minion-1") H1 H2 H3).
Defined.

(** X16. [startMinion(id)] on a minion whose type has no poll function
    returns [false]: it writes an error log line, sets the status to
    ['error'] and [lastError] to 'No handler for type: ...' when the state
    exists, notifies nobody and leaves the timers as they are (a timer
    that was pending stays armed, but its callback finds nothing to
    do). *)
Theorem startMinion_refuses_without_handler id now logId rnd e config :
  configs e !! id = Some config ->
  minionPollFunctions e (MinionConfig.type config) = false ->
  let r := startMinion id now logId rnd e in
  r.2 = false
  /\ states r.1 !! id
     = (fun current =>
          refreshed now
            (MinionState.spread current
               (MinionState.with_lastError
                  (Some ("No handler for type: " +:+ typeName (MinionConfig.type config)))
                  (MinionState.with_status error MinionState.nothing))))
       <$> states e !! id
  /\ statusOf id r.1 = (fun _ => error) <$> states e !! id
  /\ timers r.1 = timers e
  /\ configs r.1 = configs e
  /\ notified r.1 = notified e
  /\ (forall now' logId', executePoll_begin id now' logId' r.1 = None)
  /\ exists entry,
       Storage.LOGS (db r.1) = <[logId := entry]> (Storage.LOGS (db e))
       /\ MinionLogEntry.level entry = level_error
       /\ MinionLogEntry.minionId entry = id.
Proof. intros Hc Hf. by apply startMinion_refused. Qed.

Lemma startMinion_refuses_without_handler_witness :
  let e := Scenario.unregistered in
  let r := startMinion "minion-1" Scenario.T0 "log-start" (1 # 2) e in
  (configs e !! "minion-1" = Some Scenario.watcher
   /\ minionPollFunctions e (MinionConfig.type Scenario.watcher) = false)
  /\ r.2 = false
  /\ states r.1 !! "minion-1"
     = (fun current =>
          refreshed Scenario.T0
            (MinionState.spread current
               (MinionState.with_lastError
                  (Some ("No handler for type: "
                           +:+ typeName (MinionConfig.type Scenario.watcher)))
                  (MinionState.with_status error MinionState.nothing))))
       <$> states e !! "minion-1"
  /\ statusOf "minion-1" r.1 = (fun _ => error) <$> states e !! "minion-1"
  /\ timers r.1 = timers e
  /\ configs r.1 = configs e
  /\ notified r.1 = notified e
  /\ (forall now' logId', executePoll_begin "minion-1" now' logId' r.1 = None)
  /\ exists entry,
       Storage.LOGS (db r.1) = <["log-start" := entry]> (Storage.LOGS (db e))
       /\ MinionLogEntry.level entry = level_error
       /\ MinionLogEntry.minionId entry = "minion-1".
Proof.
  cbv zeta.
  assert (H1 : configs Scenario.unregistered !! "minion-1" = Some Scenario.watcher)
    by (vm_compute; reflexivity).
  assert (H2 : minionPollFunctions Scenario.unregistered
                 (MinionConfig.type Scenario.watcher) = false) by reflexivity.
  split; [exact (conj H1 H2)|].
  exact (startMinion_refuses_without_handler "minion-1" Scenario.T0 "log-start"
           (1 # 2) Scenario.unregistered Scenario.watcher H1 H2).
Defined.

Lemma started_state :
  configs Scenario.started !! "minion-1" = Some Scenario.watcher
  /\ states Scenario.started !! "minion-1" = Some Scenario.running_state
  /\ MinionState.id Scenario.running_state = "minion-1".
Proof. repeat apply conj; vm_compute; reflexivity. Qed.

Lemma stop_and_pause_persist_witness :
  let id := "minion-1" in
  let e := Scenario.started in
  let current := Scenario.running_state in
  let now := Scenario.T0 + 1000 in
  let halted (e' : t) (s : MinionStatus) :=
    statusOf id e' = Some s
    /\ timers e' !! id = None
    /\ Storage.getState id (db e') = states e' !! id
    /\ progress <$> states e' !! id = Some (progress current)
    /\ (forall now' logId', executePoll_begin id now' logId' e' = None)
    /\ configs e' = configs e in
  (states e !! id = Some current /\ MinionState.id current = id)
  /\ halted (stopMinion id now "log-halt" e) stopped
  /\ halted (pauseMinion id now "log-halt" e) paused.
Proof.
  cbv zeta. destruct started_state as (_ & H1 & H2).
  split; [exact (conj H1 H2)|].
  exact (stop_and_pause_persist "minion-1" (Scenario.T0 + 1000) "log-halt"
           Scenario.started Scenario.running_state H1 H2).
Defined.

(** X18. [pauseMinion] followed by [resumeMinion] on a known minion
    brings it back to ['running'] with its cursors, counters, [startedAt]
    and [lastError] as before the pause, and arms a new timer counted from
    the resumption; [resumeMinion] on a minion that is not paused (or not
    known) does nothing at all. *)
Theorem pause_then_resume_keeps_progress id now1 logId1 now2 logId2 rnd e config current :
  configs e !! id = Some config ->
  states e !! id = Some current ->
  let e' := resumeMinion id now2 logId2 rnd (pauseMinion id now1 logId1 e) in
  (exists resumed,
     states e' !! id = Some resumed
     /\ MinionState.status resumed = running
     /\ progress resumed = progress current
     /\ MinionState.startedAt resumed = MinionState.startedAt current
     /\ MinionState.lastError resumed = MinionState.lastError current
     /\ timers e' !! id
        = Some {| armedAt := now2;
                  delay := Float64.add
                            (Qmax (MinionConfig.pollIntervalMs config) 30000)
                            (Float64.mul rnd 5000) |}
     /\ MinionState.nextPollAt resumed
        = Float64.add
            (Float64.add (inject_Z now2)
               (Qmax (MinionConfig.pollIntervalMs config) 30000))
            (Float64.mul rnd 5000))
  /\ (forall other, statusOf id other <> Some paused ->
        resumeMinion id now2 logId2 rnd other = other).
Proof.
  intros Hc Hs e'. split.
  - by apply pause_resume_spec.
  - intros other. apply resumeMinion_not_paused.
Qed.

Lemma pause_then_resume_keeps_progress_witness :
  let id := "minion-1" in
  let e := Scenario.started in
  let config := Scenario.watcher in
  let current := Scenario.running_state in
  let now2 := Scenario.T0 + 9000 in
  let e' := resumeMinion id now2 "log-resume" (1 # 2)
              (pauseMinion id (Scenario.T0 + 1000) "log-pause" e) in
  (configs e !! id = Some config /\ states e !! id = Some current)
  /\ (exists resumed,
        states e' !! id = Some resumed
        /\ MinionState.status resumed = running
        /\ progress resumed = progress current
        /\ MinionState.startedAt resumed = MinionState.startedAt current
        /\ MinionState.lastError resumed = MinionState.lastError current
        /\ timers e' !! id
           = Some {| armedAt := now2;
                     delay := Float64.add
                               (Qmax (MinionConfig.pollIntervalMs config) 30000)
                               (Float64.mul (1 # 2) 5000) |}
        /\ MinionState.nextPollAt resumed
           = Float64.add
               (Float64.add (inject_Z now2)
                  (Qmax (MinionConfig.pollIntervalMs config) 30000))
               (Float64.mul (1 # 2) 5000))
  /\ (forall other, statusOf id other <> Some paused ->
        resumeMinion id now2 "log-resume" (1 # 2) other = other).
Proof.
  cbv zeta. destruct started_state as (H1 & H2 & _).
  split; [exact (conj H1 H2)|].
  exact (pause_then_resume_keeps_progress "minion-1" (Scenario.T0 + 1000) "log-pause"
           (Scenario.T0 + 9000) "log-resume" (1 # 2) Scenario.started
           Scenario.watcher Scenario.running_state H1 H2).
Defined.

Lemma settle_after_delete_witness :
  let id := "minion-1" in
  let e := deleteMinion id (Scenario.T0 + 1000) "log-stopped" Scenario.started in
  let outcome := Rejected Scenario.networkError in
  let now := Scenario.T0 + 2000 in
  let ids := Scenario.logIds 1 in
  let e' := executePoll_settle id Scenario.running_state outcome now ids (1 # 2) e in
  states e !! id = None
  /\ states e' = states e
  /\ configs e' = configs e
  /\ timers e' = timers e
  /\ Storage.CONFIGS (db e') = Storage.CONFIGS (db e)
  /\ Storage.STATES (db e') = Storage.STATES (db e)
  /\ Storage.ALERTS (db e') = Storage.ALERTS (db e)
  /\ Storage.LOGS (db e')
     = match thrownOf outcome with
       | None => Storage.LOGS (db e)
       | Some err =>
           <[failedLogId ids :=
               {| MinionLogEntry.id := failedLogId ids;
                  MinionLogEntry.minionId := id;
                  MinionLogEntry.level := level_error;
                  MinionLogEntry.message := "Poll failed: " +:+ errorMsg err;
                  MinionLogEntry.timestamp := now;
                  MinionLogEntry.data := None |}]> (Storage.LOGS (db e))
       end
  /\ rateLimiter e' = settle_rateLimiter now outcome (rateLimiter e)
  /\ forall now' logId', executePoll_begin id now' logId' e' = None.
Proof.
  cbv zeta.
  assert (H1 : states (deleteMinion "minion-1" (Scenario.T0 + 1000) "log-stopped"
                         Scenario.started) !! "minion-1" = None)
    by (vm_compute; reflexivity).
  split; [exact H1|].
  exact (settle_after_delete "minion-1" Scenario.running_state
           (Rejected Scenario.networkError) (Scenario.T0 + 2000) (Scenario.logIds 1)
           (1 # 2) _ H1).
Defined.

Lemma started_states_keyed :
  Storage.keyed MinionState.id (states (engine Scenario.host)).
Proof.
  assert (Heq : states (engine Scenario.host)
                = <[MinionState.id Scenario.running_state := Scenario.running_state]> ∅)
    by (vm_compute; reflexivity).
  rewrite Heq. apply StorageFacts.keyed_insert. apply keyed_empty.
Qed.

Lemma shutdown_stops_everything_witness :
  let h := Scenario.host in
  let h' := shutdown h in
  Storage.keyed MinionState.id (states (engine h))
  /\ timers (engine h') = ∅
  /\ initialized h' = false
  /\ pruningIntervals h' = pruningIntervals h
  /\ (forall id s, states (engine h) !! id = Some s ->
        states (engine h') !! id = Some (MinionState.set_status stopped s)
        /\ Storage.getState id (db (engine h')) = Some (MinionState.set_status stopped s)
        /\ progress (MinionState.set_status stopped s) = progress s)
  /\ (forall id, states (engine h) !! id = None ->
        states (engine h') !! id = None
        /\ Storage.getState id (db (engine h')) = Storage.getState id (db (engine h)))
  /\ (forall id now logId, executePoll_begin id now logId (engine h') = None)
  /\ configs (engine h') = configs (engine h)
  /\ Storage.CONFIGS (db (engine h')) = Storage.CONFIGS (db (engine h))
  /\ Storage.ALERTS (db (engine h')) = Storage.ALERTS (db (engine h))
  /\ Storage.LOGS (db (engine h')) = Storage.LOGS (db (engine h)).
Proof.
  cbv zeta. split; [exact started_states_keyed|].
  exact (shutdown_stops_everything Scenario.host started_states_keyed).
Defined.

Lemma created_db_keyed :
  Storage.keyed MinionConfig.id (Storage.CONFIGS (db Scenario.created))
  /\ Storage.keyed MinionState.id (Storage.STATES (db Scenario.created)).
Proof.
  split.
  - apply (StorageFacts.keyed_insert MinionConfig.id ∅ Scenario.watcher), keyed_empty.
  - apply (StorageFacts.keyed_insert MinionState.id ∅ (createDefaultState "minion-1")),
      keyed_empty.
Qed.

Lemma initialize_restarts_from_stopped_witness :
  let registered := fun _ : MinionType => true in
  let database := db Scenario.created in
  let inputs := Scenario.startInputs in
  let h := initialize Scenario.T0 inputs (fresh registered database) in
  let e := engine h in
  (Storage.keyed MinionConfig.id (Storage.CONFIGS database)
   /\ Storage.keyed MinionState.id (Storage.STATES database))
  /\ initialized h = true
  /\ engineStartTime h = Scenario.T0
  /\ (forall id config, Storage.CONFIGS database !! id = Some config ->
        configs e !! id = Some config
        /\ exists st,
             states e !! id = Some st
             /\ MinionState.status st
                = (if MinionConfig.enabled config
                   then if registered (MinionConfig.type config) then running else error
                   else stopped)
             /\ progress st
                = progress (default (createDefaultState id)
                              (Storage.STATES database !! id))
             /\ timers e !! id
                = (if MinionConfig.enabled config && registered (MinionConfig.type config)
                   then Some {| armedAt := startNow (inputs id);
                                delay := Float64.add
                                          (Qmax (MinionConfig.pollIntervalMs config) 30000)
                                          (Float64.mul (startRnd (inputs id)) 5000) |}
                   else None))
  /\ (forall id, Storage.CONFIGS database !! id = None ->
        configs e !! id = None /\ states e !! id = None /\ timers e !! id = None)
  /\ (forall now' inputs', initialize now' inputs' h = h).
Proof.
  cbv zeta. split; [exact created_db_keyed|].
  exact (initialize_restarts_from_stopped Scenario.T0 Scenario.startInputs
           (fun _ => true) (db Scenario.created)
           (proj1 created_db_keyed) (proj2 created_db_keyed)).
Defined.

End Lifecycle.

(* ===================================================================== *)
(** * Properties of the string helpers *)
(* ===================================================================== *)

Module UtilsFacts.
Import Utils.

Lemma prefix_spec needle : forall text,
  String.prefix needle text = true <-> exists post, text = needle +:+ post.
Proof.
  induction needle as [|c needle IH]; intros text.
  - split; [intros _; by exists text | intros _; by destruct text].
  - destruct text as [|d text]; simpl.
    + split; [done|]. by intros [post ?].
    + destruct (Ascii.ascii_dec c d) as [->|Hne].
      * rewrite IH. split; intros [post Hp]; exists post; [by rewrite Hp | by injection Hp].
      * split; [done|]. intros [post Hp]. injection Hp as Hp _. congruence.
Qed.

Lemma includes_spec needle : forall text,
  includes text needle = true <-> exists pre post, text = pre +:+ needle +:+ post.
Proof.
  intros text. induction text as [|d text IH].
  - cbn [includes]. rewrite orb_false_r, prefix_spec. split.
    + intros [post Hp]. by exists EmptyString, post.
    + intros (pre & post & Hp). destruct pre as [|? ?]; [by exists post | done].
  - cbn [includes]. rewrite orb_true_iff, IH, prefix_spec. split.
    + intros [[post Hp]|(pre & post & Hp)].
      * by exists EmptyString, post.
      * exists (String d pre), post. simpl. by rewrite Hp.
    + intros (pre & post & Hp). destruct pre as [|c pre].
      * left. by exists post.
      * right. exists pre, post. simpl in Hp. by injection Hp.
Qed.

Lemma includes_empty text : includes text EmptyString = true.
Proof. apply includes_spec. by exists EmptyString, text. Qed.

(** X28. Whatever [String.prototype.toLowerCase] maps,
    [matchesKeywords(text, keywords)] returns, in their order, the
    keywords whose lower-cased form occurs in the lower-cased text.  So two
    texts with the same lower-cased form give the same result, two
    keywords with the same lower-cased form match the same texts, and a
    keyword whose lower-cased form is empty matches every text. *)
Theorem matchesKeywords_case_insensitive toLowerCase text keywords :
  (forall k, k ∈ matchesKeywords toLowerCase text keywords
     <-> k ∈ keywords
         /\ exists pre post, toLowerCase text = pre +:+ toLowerCase k +:+ post)
  /\ sublist (matchesKeywords toLowerCase text keywords) keywords
  /\ (forall text', toLowerCase text' = toLowerCase text ->
        matchesKeywords toLowerCase text' keywords
        = matchesKeywords toLowerCase text keywords)
  /\ (forall k k', toLowerCase k = toLowerCase k' ->
        (k ∈ matchesKeywords toLowerCase text [k]
         <-> k' ∈ matchesKeywords toLowerCase text [k']))
  /\ (forall k, k ∈ keywords -> toLowerCase k = EmptyString ->
        k ∈ matchesKeywords toLowerCase text keywords).
Proof.
  assert (Hin : forall ks k,
    k ∈ matchesKeywords toLowerCase text ks
    <-> k ∈ ks
        /\ exists pre post, toLowerCase text = pre +:+ toLowerCase k +:+ post).
  { intros ks k. unfold matchesKeywords. cbv zeta.
    rewrite !list_elem_of_In, List.filter_In, includes_spec. done. }
  repeat apply conj.
  - intros k. apply Hin.
  - unfold matchesKeywords. cbv zeta. clear Hin.
    induction keywords as [|k ks IH]; [constructor|]. simpl.
    destruct (includes _ _); by constructor.
  - intros text' E. unfold matchesKeywords. cbv zeta. by rewrite E.
  - intros k k' E. rewrite !Hin, E, !list_elem_of_singleton. tauto.
  - intros k Hk E. apply Hin. split; [exact Hk|]. rewrite E.
    by exists EmptyString, (toLowerCase text).
Qed.

End UtilsFacts.

(* ===================================================================== *)
(** * More on the keyword monitor *)
(* ===================================================================== *)

Module KeywordPollFacts.
Import KeywordMonitor.

Section Poll.
Variable fetchChatMessages : string -> nat -> option Z -> list BridgeMessage.t.
Variable toLowerCase : string -> string.
Variable matchAll : string -> string -> option (list string).
Variable truncate : string -> nat -> string.
Variable generateAlertId : nat -> string.
Variable stringify : list string -> list Utils.RegexMatch -> BridgeMessage.t -> string.
Variable now : Z.
Variable config : MinionConfig.t.
Variable typeConfig : KeywordMonitorConfig.t.
Variable state : MinionState.t.

Abbreviation scan :=
  (scanMessage toLowerCase matchAll truncate generateAlertId stringify now config
     typeConfig).
Abbreviation chat_step :=
  (pollChat fetchChatMessages toLowerCase matchAll truncate generateAlertId stringify
     now config
     typeConfig state).
Abbreviation triggers := (KeywordMonitor.triggers toLowerCase matchAll typeConfig).
Abbreviation newMessagesOf := (KeywordMonitor.newMessagesOf fetchChatMessages state).
Abbreviation scannedIn := (KeywordMonitor.scannedIn fetchChatMessages state).
Abbreviation stamped := (KeywordMonitor.stamped now config typeConfig).
Abbreviation chat_unfold :=
  (KeywordMonitorFacts.pollChat_unfold fetchChatMessages toLowerCase matchAll truncate
     generateAlertId
     stringify now config typeConfig state).

(** The log line of an archived match. *)
Abbreviation archived :=
  (fun l : string * MinionLogLevel * string =>
     l.1.1 = MinionConfig.id config /\ l.1.2 = level_info
     /\ KeywordMonitorConfig.autoArchive typeConfig = true).

Lemma logsOf_app cs1 cs2 : logsOf (cs1 ++ cs2) = logsOf cs1 ++ logsOf cs2.
Proof. apply omap_app. Qed.

(** *** One message *)

Lemma scan_exact chatId acc m a :
  a ∈ alertsOf (calls (scan chatId acc m)) ->
  a ∈ alertsOf (calls acc) \/ (about chatId m a /\ triggers m /\ stamped a).
Proof.
  unfold scanMessage, KeywordMonitor.triggers.
  destruct (decide (BridgeMessage.text m = EmptyString)) as [|Htext]; [by left|].
  cbv zeta.
  destruct (_ || _) eqn:Hmatch; [|by left].
  simpl. rewrite KeywordMonitorFacts.alertsOf_app, elem_of_app.
  intros [Hin|Hin]; [by left|right].
  assert (Htr : Utils.matchesKeywords toLowerCase (BridgeMessage.text m)
                  (KeywordMonitorConfig.keywords typeConfig) <> []
                \/ Utils.matchesRegexPatterns matchAll (BridgeMessage.text m)
                     (KeywordMonitorConfig.regexPatterns typeConfig) <> []).
  { apply orb_true_iff in Hmatch as [Hk|Hr]; [left|right].
    - destruct (Utils.matchesKeywords _ _); [done|discriminate].
    - destruct (Utils.matchesRegexPatterns _ _ _); [done|discriminate]. }
  destruct (KeywordMonitorConfig.autoArchive typeConfig); simpl in Hin;
    apply list_elem_of_singleton in Hin; subst a; by repeat split.
Qed.

Lemma scan_logs chatId acc m l :
  l ∈ logsOf (calls (scan chatId acc m)) -> l ∈ logsOf (calls acc) \/ archived l.
Proof.
  unfold scanMessage.
  destruct (decide (BridgeMessage.text m = EmptyString)) as [|Htext]; [by left|].
  cbv zeta. destruct (_ || _); [|by left].
  simpl. rewrite logsOf_app, elem_of_app.
  intros [Hin|Hin]; [by left|right].
  destruct (KeywordMonitorConfig.autoArchive typeConfig); simpl in Hin.
  - apply list_elem_of_singleton in Hin. by subst l.
  - inversion Hin.
Qed.

Lemma scan_counts chatId acc m :
  totalScanned (scan chatId acc m) = totalScanned acc
  /\ (length (alertsOf (calls acc)) <= length (alertsOf (calls (scan chatId acc m)))
      <= S (length (alertsOf (calls acc))))%nat
  /\ (length (logsOf (calls (scan chatId acc m))) + 
        (if KeywordMonitorConfig.autoArchive typeConfig
         then length (alertsOf (calls acc)) else 0)
      = length (logsOf (calls acc))
        + (if KeywordMonitorConfig.autoArchive typeConfig
           then length (alertsOf (calls (scan chatId acc m))) else 0))%nat.
Proof.
  unfold scanMessage.
  destruct (decide (BridgeMessage.text m = EmptyString)) as [|Htext]; [lia|].
  cbv zeta. destruct (_ || _); [|lia].
  simpl. rewrite KeywordMonitorFacts.alertsOf_app, logsOf_app, !length_app.
  destruct (KeywordMonitorConfig.autoArchive typeConfig); simpl; lia.
Qed.

(** *** The messages of one chat *)

Lemma scans_exact chatId ms : forall acc a,
  a ∈ alertsOf (calls (foldl (scan chatId) acc ms)) ->
  a ∈ alertsOf (calls acc)
  \/ exists m, m ∈ ms /\ about chatId m a /\ triggers m /\ stamped a.
Proof.
  induction ms as [|m ms IH]; intros acc a Hin; [by left|].
  cbn [foldl] in Hin. apply IH in Hin as [Hin|(m' & Hm' & H)].
  - apply scan_exact in Hin as [Hin|H]; [by left|].
    right. exists m. split; [apply elem_of_cons; by left | done].
  - right. exists m'. split; [apply elem_of_cons; by right | done].
Qed.

Lemma scans_logs chatId ms : forall acc l,
  l ∈ logsOf (calls (foldl (scan chatId) acc ms)) ->
  l ∈ logsOf (calls acc) \/ archived l.
Proof.
  induction ms as [|m ms IH]; intros acc l Hin; [by left|].
  cbn [foldl] in Hin. apply IH in Hin as [Hin|H]; [|by right].
  by apply scan_logs in Hin.
Qed.

Lemma scans_counts chatId ms : forall acc,
  totalScanned (foldl (scan chatId) acc ms) = totalScanned acc
  /\ (length (alertsOf (calls (foldl (scan chatId) acc ms)))
      <= length (alertsOf (calls acc)) + length ms)%nat
  /\ (length (logsOf (calls (foldl (scan chatId) acc ms))) + 
        (if KeywordMonitorConfig.autoArchive typeConfig
         then length (alertsOf (calls acc)) else 0)
      = length (logsOf (calls acc))
        + (if KeywordMonitorConfig.autoArchive typeConfig
           then length (alertsOf (calls (foldl (scan chatId) acc ms))) else 0))%nat.
Proof.
  induction ms as [|m ms IH]; intros acc; [simpl; lia|].
  cbn [foldl]. destruct (IH (scan chatId acc m)) as (-> & Ha & Hl).
  destruct (scan_counts chatId acc m) as (-> & Ha0 & Hl0).
  split; [done|]. split; [simpl; lia|].
  destruct (KeywordMonitorConfig.autoArchive typeConfig); lia.
Qed.

(** *** One target chat *)

Lemma pollChat_exact acc chatId a :
  a ∈ alertsOf (calls (chat_step acc chatId)) ->
  a ∈ alertsOf (calls acc)
  \/ exists m, m ∈ newMessagesOf chatId /\ about chatId m a /\ triggers m /\ stamped a.
Proof.
  rewrite chat_unfold. destruct (newMessagesOf chatId) as [|first rest]; [by left|].
  intros Hin. by apply scans_exact in Hin.
Qed.

Lemma pollChat_logs acc chatId l :
  l ∈ logsOf (calls (chat_step acc chatId)) -> l ∈ logsOf (calls acc) \/ archived l.
Proof.
  rewrite chat_unfold. destruct (newMessagesOf chatId) as [|first rest]; [by left|].
  intros Hin. by apply scans_logs in Hin.
Qed.

Lemma pollChat_counts acc chatId :
  totalScanned (chat_step acc chatId)
  = totalScanned acc + Z.of_nat (length (newMessagesOf chatId))
  /\ (length (alertsOf (calls (chat_step acc chatId)))
      <= length (alertsOf (calls acc)) + length (newMessagesOf chatId))%nat
  /\ (length (logsOf (calls (chat_step acc chatId))) + 
        (if KeywordMonitorConfig.autoArchive typeConfig
         then length (alertsOf (calls acc)) else 0)
      = length (logsOf (calls acc))
        + (if KeywordMonitorConfig.autoArchive typeConfig
           then length (alertsOf (calls (chat_step acc chatId))) else 0))%nat.
Proof.
  rewrite chat_unfold. destruct (newMessagesOf chatId) as [|first rest] eqn:Hn.
  - simpl. split; [lia|]. split; [lia|].
    destruct (KeywordMonitorConfig.autoArchive typeConfig); lia.
  - match goal with |- context [foldl (scan chatId) ?a ?ms] =>
      destruct (scans_counts chatId ms a) as (-> & Ha & Hl)
    end.
    simpl in *. repeat apply conj; try done.
Qed.

Lemma pollChat_idle acc chatId : newMessagesOf chatId = [] -> chat_step acc chatId = acc.
Proof. intros Hn. by rewrite chat_unfold, Hn. Qed.

(** *** All target chats *)

Lemma polls_exact targets : forall acc a,
  a ∈ alertsOf (calls (foldl chat_step acc targets)) ->
  a ∈ alertsOf (calls acc)
  \/ exists c m, c ∈ targets /\ m ∈ newMessagesOf c /\ about c m a
                 /\ triggers m /\ stamped a.
Proof.
  induction targets as [|c targets IH]; intros acc a Hin; [by left|].
  cbn [foldl] in Hin. apply IH in Hin as [Hin|(c' & m & Hc' & H)].
  - apply pollChat_exact in Hin as [Hin|(m & H)]; [by left|].
    right. exists c, m. split; [apply elem_of_cons; by left | done].
  - right. exists c', m. split; [apply elem_of_cons; by right | done].
Qed.

Lemma polls_logs targets : forall acc l,
  l ∈ logsOf (calls (foldl chat_step acc targets)) ->
  l ∈ logsOf (calls acc) \/ archived l.
Proof.
  induction targets as [|c targets IH]; intros acc l Hin; [by left|].
  cbn [foldl] in Hin. apply IH in Hin as [Hin|H]; [|by right].
  by apply pollChat_logs in Hin.
Qed.

Lemma polls_counts targets : forall acc,
  totalScanned (foldl chat_step acc targets) = totalScanned acc + scannedIn targets
  /\ Z.of_nat (length (alertsOf (calls (foldl chat_step acc targets))))
     <= Z.of_nat (length (alertsOf (calls acc))) + scannedIn targets
  /\ (length (logsOf (calls (foldl chat_step acc targets))) + 
        (if KeywordMonitorConfig.autoArchive typeConfig
         then length (alertsOf (calls acc)) else 0)
      = length (logsOf (calls acc))
        + (if KeywordMonitorConfig.autoArchive typeConfig
           then length (alertsOf (calls (foldl chat_step acc targets))) else 0))%nat.
Proof.
  induction targets as [|c targets IH]; intros acc.
  - simpl. split; [lia|]. split; [lia|].
    destruct (KeywordMonitorConfig.autoArchive typeConfig); lia.
  - cbn [foldl]. destruct (IH (chat_step acc c)) as (-> & Ha & Hl).
    destruct (pollChat_counts acc c) as (-> & Ha0 & Hl0).
    unfold KeywordMonitor.scannedIn in *. cbn [foldr].
    split; [lia|]. split; [lia|].
    destruct (KeywordMonitorConfig.autoArchive typeConfig); lia.
Qed.

Lemma polls_cursor_kept targets c : forall acc,
  c ∉ targets \/ newMessagesOf c = [] ->
  updatedLastMessageIds (foldl chat_step acc targets) !! c
  = updatedLastMessageIds acc !! c.
Proof.
  induction targets as [|t targets IH]; intros acc Hc; [done|].
  cbn [foldl]. rewrite IH.
  - destruct (decide (t = c)) as [->|Hne].
    + destruct Hc as [Hc|Hc]; [exfalso; apply Hc; left|].
      by rewrite pollChat_idle.
    + by apply KeywordMonitorFacts.pollChat_cursor_other.
  - destruct Hc as [Hc|Hc]; [left|by right].
    rewrite not_elem_of_cons in Hc. tauto.
Qed.

Lemma polls_idle targets : forall acc,
  (forall c, c ∈ targets -> newMessagesOf c = []) ->
  foldl chat_step acc targets = acc.
Proof.
  induction targets as [|t targets IH]; intros acc Hidle; [done|].
  cbn [foldl]. rewrite pollChat_idle by (apply Hidle; left).
  apply IH. intros c Hc. apply Hidle. by right.
Qed.

Lemma newMessagesOf_above c c0 m :
  MinionState.lastMessageIds state !! c = Some c0 -> 0 < c0 ->
  m ∈ newMessagesOf c -> c0 < BridgeMessage.id m.
Proof.
  intros Hc Hpos Hm. unfold KeywordMonitor.newMessagesOf in Hm.
  rewrite Hc in Hm. simpl in Hm.
  assert (Hlt : (0 <? c0) = true) by (apply Z.ltb_lt; lia).
  rewrite Hlt in Hm. by apply list_elem_of_filter in Hm as [Hgt _].
Qed.

End Poll.


(** X26. A keyword-monitor poll returns [messagesScanned] raised by the
    number of new messages of its targets (a chat listed twice is fetched
    and counted twice), emits at most one alert per scanned message, and
    writes one log line per alert when [autoArchive] is set and none
    otherwise. *)
Theorem pollKeywordMonitor_counts fetchChatMessages toLowerCase matchAll truncate
    generateAlertId stringify now config typeConfig state :
  let result := pollKeywordMonitor fetchChatMessages toLowerCase matchAll truncate
                  generateAlertId stringify now config typeConfig state in
  let scanned := scannedIn fetchChatMessages state (MinionConfig.targetChatIds config) in
  MinionState.messagesScanned' result.2
    = Some (MinionState.messagesScanned state + scanned)
  /\ Z.of_nat (length (alertsOf result.1)) <= scanned
  /\ length (logsOf result.1)
     = (if KeywordMonitorConfig.autoArchive typeConfig
        then length (alertsOf result.1) else 0%nat).
Proof.
  cbv zeta. unfold pollKeywordMonitor. cbn [fst snd].
  match goal with |- context [foldl ?f ?a ?ts] =>
    destruct (polls_counts fetchChatMessages toLowerCase matchAll truncate
                generateAlertId stringify now
                config typeConfig state ts a) as (Ht & Ha & Hl)
  end.
  simpl in Ht, Ha, Hl. repeat apply conj.
  - simpl. by rewrite Ht.
  - lia.
  - destruct (KeywordMonitorConfig.autoArchive typeConfig); lia.
Qed.

(** X27. The cursors a keyword-monitor poll returns: the cursor of a chat
    that is no target, or that has no new message, is the one of the
    state; a positive cursor never decreases, and increases strictly for a
    target with new messages; a poll that finds no new message in any
    target makes no engine call and returns the cursors and the scanned
    count of the state. *)
Theorem pollKeywordMonitor_cursor_monotone fetchChatMessages toLowerCase matchAll
    truncate generateAlertId stringify now config typeConfig state :
  let result := pollKeywordMonitor fetchChatMessages toLowerCase matchAll truncate
                  generateAlertId stringify now config typeConfig state in
  let targets := MinionConfig.targetChatIds config in
  exists cursor,
    MinionState.lastMessageIds' result.2 = Some cursor
    /\ (forall c, c ∉ targets \/ newMessagesOf fetchChatMessages state c = [] ->
          cursor !! c = MinionState.lastMessageIds state !! c)
    /\ (forall c c0, MinionState.lastMessageIds state !! c = Some c0 -> 0 < c0 ->
          exists c1, cursor !! c = Some c1 /\ c0 <= c1
                     /\ (c ∈ targets -> newMessagesOf fetchChatMessages state c <> [] ->
                         c0 < c1))
    /\ ((forall c, c ∈ targets -> newMessagesOf fetchChatMessages state c = []) ->
        result.1 = [] /\ cursor = MinionState.lastMessageIds state
        /\ MinionState.messagesScanned' result.2
           = Some (MinionState.messagesScanned state + 0)).
Proof.
  cbv zeta. unfold pollKeywordMonitor. cbn [fst snd].
  eexists. split; [reflexivity|]. repeat apply conj.
  - intros c Hc. by rewrite polls_cursor_kept.
  - intros c c0 Hc Hpos.
    destruct (newMessagesOf fetchChatMessages state c) as [|first rest] eqn:Hn.
    { exists c0. rewrite polls_cursor_kept by (by right). simpl. split; [done|].
      split; [lia|done]. }
    destruct (decide (c ∈ MinionConfig.targetChatIds config)) as [Hin|Hnin].
    + exists (maxId first rest).
      assert (Hgt : c0 < maxId first rest).
      { pose proof (KeywordMonitorFacts.maxId_ge first rest first ltac:(left)) as Hge.
        pose proof (newMessagesOf_above fetchChatMessages state c c0 first Hc Hpos) as Hf.
        rewrite Hn in Hf. specialize (Hf ltac:(left)). lia. }
      split; [|split; [lia|done]].
      apply KeywordMonitorFacts.polls_cursor; [done | by left].
    + exists c0. rewrite polls_cursor_kept by (by left). simpl.
      split; [done|]. split; [lia|done].
  - intros Hidle. by rewrite polls_idle.
Qed.

End KeywordPollFacts.

(* ===================================================================== *)
(** * Properties of the new-member monitor *)
(* ===================================================================== *)

Module NewMemberAlertFacts.
Import KeywordMonitor.
Import NewMemberAlertPoll.

Section Poll.
Variable fetchChatMembers : string -> nat -> list BridgeMember.t.
Variable estimateAccountAgeDays : string -> Z.
Variable isSuspiciousUsername : string -> list string -> bool.
Variable generateAlertId : nat -> string.
Variable stringify : BridgeMember.t -> list string -> bool -> Z -> string.
Variable now : Z.
Variable config : MinionConfig.t.
Variable typeConfig : NewMemberAlertConfig.t.
Variable state : MinionState.t.

Abbreviation scan :=
  (scanMember estimateAccountAgeDays isSuspiciousUsername generateAlertId stringify
     now config typeConfig).
Abbreviation chat_poll :=
  (pollChat fetchChatMembers estimateAccountAgeDays isSuspiciousUsername
     generateAlertId stringify now config typeConfig state).
Abbreviation risks :=
  (riskFactorsOf estimateAccountAgeDays isSuspiciousUsername typeConfig).
Abbreviation joined := (newMembersOf fetchChatMembers state).
Abbreviation known := (previousMemberIds state).
Abbreviation tells := (reports config typeConfig).

Lemma risks_watchlist member :
  onWatchlist typeConfig member = true -> risks member <> [].
Proof. unfold riskFactorsOf. by intros ->. Qed.

(** *** One member *)

Lemma scanMember_fields chatId acc member :
  totalScanned (scan chatId acc member) = totalScanned acc
  /\ updatedLastKnownMembers (scan chatId acc member) = updatedLastKnownMembers acc.
Proof. done. Qed.

Lemma scanMember_sound chatId acc member a :
  a ∈ alertsOf (calls (scan chatId acc member)) ->
  a ∈ alertsOf (calls acc) \/ (tells chatId member a /\ risks member <> []).
Proof.
  unfold scanMember. cbv zeta. cbn [calls].
  rewrite !KeywordMonitorFacts.alertsOf_app, !elem_of_app.
  intros [Hin|[Hin|Hin]]; [by left| |by inversion Hin].
  right. destruct (_ || _) eqn:Hshould; [|by inversion Hin].
  simpl in Hin. apply list_elem_of_singleton in Hin. subst a.
  split; [by repeat split|].
  apply orb_true_iff in Hshould as [Hw|Hr]; [by apply risks_watchlist|].
  by destruct (risks member).
Qed.

Lemma scanMember_keeps chatId acc member a :
  a ∈ alertsOf (calls acc) -> a ∈ alertsOf (calls (scan chatId acc member)).
Proof.
  intros Hin. unfold scanMember. cbv zeta. cbn [calls].
  rewrite KeywordMonitorFacts.alertsOf_app, elem_of_app. by left.
Qed.

Lemma scanMember_complete chatId acc member :
  risks member <> [] ->
  exists a, a ∈ alertsOf (calls (scan chatId acc member)) /\ tells chatId member a.
Proof.
  intros Hr. unfold scanMember. cbv zeta. cbn [calls].
  assert (Hb : (0 <? length (risks member))%nat = true)
    by (by apply KeywordMonitorFacts.length_pos_bool).
  rewrite Hb, orb_true_r. eexists. split.
  - rewrite !KeywordMonitorFacts.alertsOf_app, !elem_of_app. right. left.
    simpl. apply elem_of_cons. left. reflexivity.
  - by repeat split.
Qed.

(** *** The new members of one chat *)

Lemma members_fields chatId ms : forall acc,
  totalScanned (foldl (scan chatId) acc ms) = totalScanned acc
  /\ updatedLastKnownMembers (foldl (scan chatId) acc ms) = updatedLastKnownMembers acc.
Proof.
  induction ms as [|m ms IH]; intros acc; [done|].
  cbn [foldl]. by destruct (IH (scan chatId acc m)) as [-> ->].
Qed.

Lemma members_keep chatId ms : forall acc a,
  a ∈ alertsOf (calls acc) -> a ∈ alertsOf (calls (foldl (scan chatId) acc ms)).
Proof.
  induction ms as [|m ms IH]; intros acc a Hin; [done|].
  cbn [foldl]. by apply IH, scanMember_keeps.
Qed.

Lemma members_sound chatId ms : forall acc a,
  a ∈ alertsOf (calls (foldl (scan chatId) acc ms)) ->
  a ∈ alertsOf (calls acc)
  \/ exists member, member ∈ ms /\ tells chatId member a /\ risks member <> [].
Proof.
  induction ms as [|m ms IH]; intros acc a Hin; [by left|].
  cbn [foldl] in Hin. apply IH in Hin as [Hin|(m' & Hm' & H)].
  - apply scanMember_sound in Hin as [Hin|H]; [by left|].
    right. exists m. split; [apply elem_of_cons; by left | done].
  - right. exists m'. split; [apply elem_of_cons; by right | done].
Qed.

Lemma members_complete chatId ms : forall acc member,
  member ∈ ms -> risks member <> [] ->
  exists a, a ∈ alertsOf (calls (foldl (scan chatId) acc ms)) /\ tells chatId member a.
Proof.
  induction ms as [|m ms IH]; intros acc member Hin Hr; [by inversion Hin|].
  cbn [foldl]. apply elem_of_cons in Hin as [->|Hin]; [|by apply IH].
  destruct (scanMember_complete chatId acc m Hr) as (a & Ha & Hab).
  exists a. split; [by apply members_keep | done].
Qed.

(** *** One target chat *)

Lemma alertsOf_log cs minionId level message :
  alertsOf (cs ++ [Log minionId level message]) = alertsOf cs.
Proof. rewrite KeywordMonitorFacts.alertsOf_app. simpl. apply app_nil_r. Qed.

Lemma memberChat_alerts acc chatId :
  alertsOf (calls (chat_poll acc chatId))
  = match fetchChatMembers chatId 200%nat with
    | [] => alertsOf (calls acc)
    | members =>
        alertsOf (calls (foldl (scan chatId)
          {| totalScanned := totalScanned acc + Z.of_nat (length members);
             updatedLastKnownMembers :=
               <[chatId := BridgeMember.userId <$> members]>
                 (updatedLastKnownMembers acc);
             calls := calls acc |} (joined chatId)))
    end.
Proof.
  unfold pollChat. destruct (fetchChatMembers chatId 200%nat) as [|m ms]; [done|].
  cbv zeta. destruct (_ && _); [|done]. cbn [calls]. apply alertsOf_log.
Qed.

Lemma memberChat_fields acc chatId :
  match fetchChatMembers chatId 200%nat with
  | [] => chat_poll acc chatId = acc
  | members =>
      totalScanned (chat_poll acc chatId)
      = totalScanned acc + Z.of_nat (length members)
      /\ updatedLastKnownMembers (chat_poll acc chatId)
         = <[chatId := BridgeMember.userId <$> members]> (updatedLastKnownMembers acc)
  end.
Proof.
  unfold pollChat. destruct (fetchChatMembers chatId 200%nat) as [|m ms]; [done|].
  cbv zeta.
  match goal with |- context [foldl (scan chatId) ?a ?l] =>
    destruct (members_fields chatId l a) as [Ht Hu]
  end.
  destruct (_ && _); cbn [totalScanned updatedLastKnownMembers]; by rewrite Ht, Hu.
Qed.

Lemma memberChat_first_run acc chatId :
  known chatId = [] ->
  calls (chat_poll acc chatId) = calls acc.
Proof.
  intros Hk. unfold pollChat, newMembersOf. rewrite Hk.
  by destruct (fetchChatMembers chatId 200%nat).
Qed.

Lemma joined_spec chatId member :
  member ∈ joined chatId
  <-> known chatId <> [] /\ member ∈ fetchChatMembers chatId 200%nat
      /\ BridgeMember.userId member ∉ known chatId.
Proof.
  unfold newMembersOf. destruct (known chatId) as [|k ks] eqn:Hk; simpl.
  - split; [intros Hin; inversion Hin | by intros [? _]].
  - rewrite list_elem_of_filter. split; [intros [? ?]|intros (_ & ? & ?)]; by repeat split.
Qed.

Lemma memberChat_keeps acc chatId a :
  a ∈ alertsOf (calls acc) -> a ∈ alertsOf (calls (chat_poll acc chatId)).
Proof.
  intros Hin. rewrite memberChat_alerts.
  destruct (fetchChatMembers chatId 200%nat); [done|]. by apply members_keep.
Qed.

Lemma memberChat_sound acc chatId a :
  a ∈ alertsOf (calls (chat_poll acc chatId)) ->
  a ∈ alertsOf (calls acc)
  \/ exists member, member ∈ joined chatId /\ tells chatId member a
                    /\ risks member <> [].
Proof.
  rewrite memberChat_alerts.
  destruct (fetchChatMembers chatId 200%nat); [by left|].
  intros Hin. by apply members_sound in Hin.
Qed.

Lemma memberChat_complete acc chatId member :
  member ∈ joined chatId -> risks member <> [] ->
  exists a, a ∈ alertsOf (calls (chat_poll acc chatId)) /\ tells chatId member a.
Proof.
  intros Hin Hr. rewrite memberChat_alerts.
  destruct (fetchChatMembers chatId 200%nat) as [|m ms] eqn:Hf.
  - apply joined_spec in Hin as (_ & Hin & _). rewrite Hf in Hin. inversion Hin.
  - by apply members_complete.
Qed.

(** *** All target chats *)

Lemma memberPolls_keep targets : forall acc a,
  a ∈ alertsOf (calls acc) -> a ∈ alertsOf (calls (foldl chat_poll acc targets)).
Proof.
  induction targets as [|c targets IH]; intros acc a Hin; [done|].
  cbn [foldl]. by apply IH, memberChat_keeps.
Qed.

Lemma memberPolls_sound targets : forall acc a,
  a ∈ alertsOf (calls (foldl chat_poll acc targets)) ->
  a ∈ alertsOf (calls acc)
  \/ exists c member, c ∈ targets /\ member ∈ joined c /\ tells c member a
                      /\ risks member <> [].
Proof.
  induction targets as [|c targets IH]; intros acc a Hin; [by left|].
  cbn [foldl] in Hin. apply IH in Hin as [Hin|(c' & m & Hc' & H)].
  - apply memberChat_sound in Hin as [Hin|(m & H)]; [by left|].
    right. exists c, m. split; [apply elem_of_cons; by left | done].
  - right. exists c', m. split; [apply elem_of_cons; by right | done].
Qed.

Lemma memberPolls_complete targets : forall acc c member,
  c ∈ targets -> member ∈ joined c -> risks member <> [] ->
  exists a, a ∈ alertsOf (calls (foldl chat_poll acc targets)) /\ tells c member a.
Proof.
  induction targets as [|t targets IH]; intros acc c member Hc Hin Hr;
    [by inversion Hc|].
  cbn [foldl]. apply elem_of_cons in Hc as [->|Hc]; [|by apply IH].
  destruct (memberChat_complete acc t member Hin Hr) as (a & Ha & Hab).
  exists a. split; [by apply memberPolls_keep | done].
Qed.

Lemma memberPolls_first_run targets : forall acc,
  (forall c, c ∈ targets -> known c = []) ->
  calls (foldl chat_poll acc targets) = calls acc.
Proof.
  induction targets as [|t targets IH]; intros acc Hk; [done|].
  cbn [foldl]. rewrite IH by (intros c Hc; apply Hk; by right).
  apply memberChat_first_run, Hk. left.
Qed.

Lemma memberChat_snapshot acc t c :
  updatedLastKnownMembers (chat_poll acc t) !! c
  = match fetchChatMembers t 200%nat with
    | [] => updatedLastKnownMembers acc !! c
    | members =>
        if decide (t = c) then Some (BridgeMember.userId <$> members)
        else updatedLastKnownMembers acc !! c
    end.
Proof.
  pose proof (memberChat_fields acc t) as Hfields.
  destruct (fetchChatMembers t 200%nat) as [|m ms]; [by rewrite Hfields|].
  destruct Hfields as [_ ->]. destruct (decide (t = c)) as [->|Hne].
  - by rewrite lookup_insert_eq.
  - by rewrite lookup_insert_ne.
Qed.

Lemma memberPolls_snapshot_kept targets c : forall acc,
  c ∉ targets \/ fetchChatMembers c 200%nat = [] ->
  updatedLastKnownMembers (foldl chat_poll acc targets) !! c
  = updatedLastKnownMembers acc !! c.
Proof.
  induction targets as [|t targets IH]; intros acc Hc; [done|].
  cbn [foldl]. rewrite IH.
  - rewrite memberChat_snapshot. destruct (fetchChatMembers t 200%nat) eqn:Hf; [done|].
    destruct (decide (t = c)) as [->|Hne]; [|done].
    destruct Hc as [Hc|Hc]; [exfalso; apply Hc; left | by rewrite Hc in Hf].
  - destruct Hc as [Hc|Hc]; [left|by right].
    rewrite not_elem_of_cons in Hc. tauto.
Qed.

Lemma memberPolls_snapshot_taken targets c : forall acc,
  fetchChatMembers c 200%nat <> [] ->
  c ∈ targets
  \/ updatedLastKnownMembers acc !! c
     = Some (BridgeMember.userId <$> fetchChatMembers c 200%nat) ->
  updatedLastKnownMembers (foldl chat_poll acc targets) !! c
  = Some (BridgeMember.userId <$> fetchChatMembers c 200%nat).
Proof.
  induction targets as [|t targets IH]; intros acc Hf Hc.
  - destruct Hc as [Hc|Hc]; [inversion Hc | done].
  - cbn [foldl]. apply IH; [done|].
    destruct (decide (t = c)) as [->|Hne].
    + right. rewrite memberChat_snapshot.
      destruct (fetchChatMembers c 200%nat); [done|].
      by destruct (decide (c = c)).
    + destruct Hc as [Hc|Hc].
      * left. apply elem_of_cons in Hc as [->|Hc]; done.
      * right. rewrite memberChat_snapshot.
        destruct (fetchChatMembers t 200%nat); [done|].
        by destruct (decide (t = c)).
Qed.

End Poll.

(** X29. A new-member poll over targets for which the state holds no
    member list (or an empty one) makes no engine call at all: no alert
    and no log line, whoever is in the groups; it returns, for every
    target whose fetch is not empty, the fetched user ids as the list to
    compare with next time. *)
Theorem pollNewMemberAlert_first_run fetchChatMembers estimateAccountAgeDays
    isSuspiciousUsername generateAlertId stringify now config typeConfig state :
  (forall c, c ∈ MinionConfig.targetChatIds config -> previousMemberIds state c = []) ->
  let result := pollNewMemberAlert fetchChatMembers estimateAccountAgeDays
                  isSuspiciousUsername generateAlertId stringify now config
                  typeConfig state in
  result.1 = []
  /\ exists snapshot,
       MinionState.lastKnownMembers' result.2 = Some snapshot
       /\ forall c, c ∈ MinionConfig.targetChatIds config ->
            fetchChatMembers c 200%nat <> [] ->
            snapshot !! c = Some (BridgeMember.userId <$> fetchChatMembers c 200%nat).
Proof.
  intros Hk result. subst result. unfold pollNewMemberAlert. cbn [fst snd].
  split; [by rewrite memberPolls_first_run|].
  eexists. split; [reflexivity|].
  intros c Hc Hf. apply memberPolls_snapshot_taken; [done | by left].
Qed.

(** X30. The alerts of a new-member poll are exactly about the members
    of a target that are absent from the target's stored, non-empty member
    list and have at least one risk factor: each alert reports such a
    member, and each such member is reported.  A watchlisted member always
    has a risk factor, and its alert is a ['watchlist-hit'] with the
    watchlist priority, any other a ['risk-account'] with the risk
    priority.  The returned member list of a target whose fetch is not
    empty is the fetched one; a target whose fetch is empty, and a chat
    that is no target, keep their list. *)
Theorem pollNewMemberAlert_alerts_on_new_risky_members fetchChatMembers
    estimateAccountAgeDays isSuspiciousUsername generateAlertId stringify now
    config typeConfig state :
  let result := pollNewMemberAlert fetchChatMembers estimateAccountAgeDays
                  isSuspiciousUsername generateAlertId stringify now config
                  typeConfig state in
  let risks := riskFactorsOf estimateAccountAgeDays isSuspiciousUsername typeConfig in
  (forall a, a ∈ alertsOf result.1 ->
     exists c member,
       c ∈ MinionConfig.targetChatIds config
       /\ member ∈ fetchChatMembers c 200%nat
       /\ previousMemberIds state c <> []
       /\ (BridgeMember.userId member ∉ previousMemberIds state c)
       /\ risks member <> []
       /\ reports config typeConfig c member a)
  /\ (forall c member,
        c ∈ MinionConfig.targetChatIds config ->
        member ∈ fetchChatMembers c 200%nat ->
        previousMemberIds state c <> [] ->
        BridgeMember.userId member ∉ previousMemberIds state c ->
        risks member <> [] ->
        exists a, a ∈ alertsOf result.1 /\ reports config typeConfig c member a)
  /\ (forall member, onWatchlist typeConfig member = true -> risks member <> [])
  /\ exists snapshot,
       MinionState.lastKnownMembers' result.2 = Some snapshot
       /\ (forall c, c ∈ MinionConfig.targetChatIds config ->
              fetchChatMembers c 200%nat <> [] ->
              snapshot !! c
              = Some (BridgeMember.userId <$> fetchChatMembers c 200%nat))
       /\ (forall c, (c ∉ MinionConfig.targetChatIds config
                      \/ fetchChatMembers c 200%nat = []) ->
              snapshot !! c = MinionState.lastKnownMembers state !! c).
Proof.
  cbv zeta. unfold pollNewMemberAlert. cbn [fst snd]. repeat apply conj.
  - intros a Ha. apply memberPolls_sound in Ha as [Ha|(c & m & Hc & Hm & Hab & Hr)];
      [inversion Ha|].
    apply joined_spec in Hm as (Hk & Hm & Hnew). by exists c, m.
  - intros c member Hc Hm Hk Hnew Hr. apply memberPolls_complete; [done| |done].
    by apply joined_spec.
  - apply risks_watchlist.
  - eexists. split; [reflexivity|]. split.
    + intros c Hc Hf. apply memberPolls_snapshot_taken; [done | by left].
    + intros c Hc. by rewrite memberPolls_snapshot_kept.
Qed.

Lemma pollNewMemberAlert_first_run_witness :
  let state := MinionEngine.createDefaultState "minion-2" in
  (forall c, c ∈ MinionConfig.targetChatIds Scenario.greeter ->
             previousMemberIds state c = [])
  /\ Scenario.firstRoll.1 = []
  /\ exists snapshot,
       MinionState.lastKnownMembers' Scenario.firstRoll.2 = Some snapshot
       /\ forall c, c ∈ MinionConfig.targetChatIds Scenario.greeter ->
            Scenario.roster c 200%nat <> [] ->
            snapshot !! c = Some (BridgeMember.userId <$> Scenario.roster c 200%nat).
Proof.
  cbv zeta.
  assert (Hk : forall c, c ∈ MinionConfig.targetChatIds Scenario.greeter ->
                 previousMemberIds (MinionEngine.createDefaultState "minion-2") c = []).
  { intros c _. unfold previousMemberIds. simpl. by rewrite lookup_empty. }
  split; [exact Hk|].
  exact (pollNewMemberAlert_first_run Scenario.roster (fun _ => 4000)
           (fun _ _ => false) (fun n => "alert-" +:+ pretty n) (fun _ _ _ _ => "{}")
           Scenario.T0 Scenario.greeter Scenario.greeterConfig
           (MinionEngine.createDefaultState "minion-2") Hk).
Defined.

End NewMemberAlertFacts.
